(** * ai-therapist: chunk reassembly, transcript dispatch, voice activity
      and amplitude visualisation

    A shallow embedding of
    - [src/hooks/useAgoraVideoClient.ts]: [base64ToUtf8], [handleTenMessage],
      [handleStreamMessage], the eviction callback given to [setTimeout],
      the volume-check interval callback and [leaveChannel];
    - [src/hooks/useAudioVisualization.ts]: the numeric core of [updateData],
      in the arithmetic of doubles.

    The hooks keep their state in React refs and state cells; here that state
    is a record passed explicitly.  The browser functions the hooks call
    ([String.prototype.split], [parseInt], [atob], [TextDecoder],
    [JSON.parse], [String.prototype.trim], [Array.prototype.sort]) are
    written out as executable functions following their standards. *)

From Stdlib Require Import ZArith NArith QArith Qminmax Qround Qpower Lia Lqa List Ascii String.
From Stdlib Require Import Permutation Sorted.
From stdpp Require Import gmap strings list sorting.

(** ** JavaScript values used by the hooks *)

(** A JavaScript string after decoding: its UTF-16 code units. *)
Definition jsstring := list N.

(** The code units of a Latin-1 string literal. *)
Definition js (s : string) : jsstring :=
  map N_of_ascii (list_ascii_of_string s).

(** The numbers the stream handler works with: [NaN] and the doubles with an
    integer value, as [parseInt] and [length] produce them.  [Num z] is the
    double of value [z]; [Num (2^1024)] and [Num (-2^1024)] stand for
    [Infinity] and [-Infinity].  The hook does three things with these
    numbers: it compares [total_parts] with -1 and with a length, and in the
    comparator of the sort it subtracts one index from another, of which
    only the sign counts.  In all three [Infinity] behaves as the integer
    2^1024 does, which is above every double: [Infinity - Infinity] is
    [NaN], which the sort takes as zero, as it takes the difference of the
    two integers.  (Minus zero is not told from zero: the hook never divides
    by an index and never prints one.) *)
Inductive number : Type :=
| NaN
| Num (z : Z).

#[global] Instance number_eq_dec : EqDecision number.
Proof. solve_decision. Defined.

(** [a === b] on numbers: [NaN] is equal to nothing. *)
Definition number_eqb (a b : number) : bool :=
  match a, b with
  | Num x, Num y => (x =? y)%Z
  | _, _ => false
  end.
Arguments number_eqb : simpl never.

(** The values [JSON.parse] can return.  A number literal [m * 10^e] is kept
    as the pair of its decimal mantissa and exponent. *)
#[warnings="-register-all"]
Inductive JSON : Type :=
| JNull
| JBool (b : bool)
| JNum (mantissa exponent : Z)
| JStr (s : jsstring)
| JArr (elements : list JSON)
| JObj (properties : list (jsstring * JSON)).

(** A property read yields a value or [undefined]. *)
Definition JSValue := option JSON.
Definition undefined : JSValue := None.

Definition jsstring_eqb (a b : jsstring) : bool :=
  bool_decide (a = b).

(** The double that [JSON.parse] makes of the literal [mantissa * 10^exponent]
    is zero: the mantissa is zero, or the value is so small that it rounds
    to zero, which it does up to 2^-1075, half of the smallest double above
    zero. *)
Definition rounds_to_zero (mantissa exponent : Z) : bool :=
  (mantissa =? 0)%Z ||
  ((exponent <? 0)%Z &&
   (Z.abs mantissa * 2 ^ 1075 <=? 10 ^ (- exponent))%Z).

(** [ToBoolean]. *)
Definition truthy (v : JSValue) : bool :=
  match v with
  | None => false
  | Some JNull => false
  | Some (JBool b) => b
  | Some (JNum m e) => negb (rounds_to_zero m e)
  | Some (JStr s) => negb (bool_decide (s = []))
  | Some (JArr _) => true
  | Some (JObj _) => true
  end.

(** Own property of an object built by [JSON.parse]: when a key occurs more
    than once in the source text, the last occurrence is the property. *)
Fixpoint own_property (props : list (jsstring * JSON)) (k : jsstring) : JSValue :=
  match props with
  | [] => None
  | (k', v) :: rest =>
      match own_property rest k with
      | Some w => Some w
      | None => if jsstring_eqb k' k then Some v else None
      end
  end.

(** Outcome of an expression that may throw. *)
Inductive Exc (A : Type) : Type :=
| Ok (a : A)
| Throw (e : string).
Arguments Ok {A} a.
Arguments Throw {A} e.

(** ** Wire-level string functions *)

(** [String.fromCharCode(...new Uint8Array(data))]: one code unit per byte.
    (For a payload longer than the engine's limit on arguments the spread
    throws a [RangeError]; that happens inside the outer [try], before
    anything is changed, and is not modelled.) *)
Definition fromCharCode (data : list Byte.byte) : string :=
  string_of_list_byte data.

(** [s.split(sep)] for a one-character separator: the fields between the
    separators, always at least one. *)
Fixpoint split (sep : ascii) (s : string) : list string :=
  match s with
  | EmptyString => [EmptyString]
  | String c rest =>
      if Ascii.eqb c sep then EmptyString :: split sep rest
      else match split sep rest with
           | [] => [String c EmptyString]
           | f :: fs => String c f :: fs
           end
  end.

(** White space and line terminators that [parseInt] skips, among the code
    units a byte can give. *)
Definition is_StrWhiteSpace_byte (c : ascii) : bool :=
  let n := N_of_ascii c in
  ((9 <=? n) && (n <=? 13) || (n =? 32) || (n =? 160))%N.

Fixpoint skip_StrWhiteSpace (s : string) : string :=
  match s with
  | String c rest => if is_StrWhiteSpace_byte c then skip_StrWhiteSpace rest else s
  | EmptyString => s
  end.

Definition digit_value (c : ascii) : option Z :=
  let n := N_of_ascii c in
  if ((48 <=? n) && (n <=? 57))%N then Some (Z.of_N n - 48)%Z else None.

(** The longest prefix of decimal digits, read left to right. *)
Fixpoint read_digits (s : string) (acc : option Z) : option Z :=
  match s with
  | String c rest =>
      match digit_value c with
      | Some d => read_digits rest (Some (10 * default 0%Z acc + d)%Z)
      | None => acc
      end
  | EmptyString => acc
  end.

(** The double for the integer [z]: [z] itself up to 2^53 in size, beyond
    that [z] rounded to 53 significant bits, to the nearest and in a tie to
    the one whose last bit is zero, and 2^1024 ([Infinity]) when the rounded
    value is out of the range of the doubles. *)
Definition Number_of_integer (z : Z) : Z :=
  let a := Z.abs z in
  if (a <? 2 ^ 53)%Z then z
  else
    let e := (Z.log2 a - 52)%Z in
    let q := (a / 2 ^ e)%Z in
    let r := (a mod 2 ^ e)%Z in
    let half := (2 ^ (e - 1))%Z in
    let q' := if (r <? half)%Z then q
              else if (half <? r)%Z then (q + 1)%Z
              else if Z.even q then q else (q + 1)%Z in
    (Z.sgn z * Z.min (q' * 2 ^ e) (2 ^ 1024))%Z.

(** [parseInt(x, 10)].  [undefined] is first converted to the string
    ["undefined"], which has no digits.  The result is the double for the
    integer the digits spell.  (For more than 20 significant digits the
    language lets an engine read the digits after the 20th as zeros before
    it rounds; the engines do not, and neither does this function.) *)
Definition parseInt (x : option string) : number :=
  match x with
  | None => NaN
  | Some s =>
      match skip_StrWhiteSpace s with
      | String "-" rest =>
          match read_digits rest None with
          | Some v => Num (Number_of_integer (- v))
          | None => NaN
          end
      | String "+" rest =>
          match read_digits rest None with
          | Some v => Num (Number_of_integer v)
          | None => NaN
          end
      | t =>
          match read_digits t None with
          | Some v => Num (Number_of_integer v)
          | None => NaN
          end
      end
  end.

(** ** [atob]: forgiving base64 decoding *)

Definition is_ascii_whitespace (c : ascii) : bool :=
  let n := N_of_ascii c in
  ((n =? 9) || (n =? 10) || (n =? 12) || (n =? 13) || (n =? 32))%N.

Definition base64_value (c : ascii) : option N :=
  let n := N_of_ascii c in
  if ((65 <=? n) && (n <=? 90))%N then Some (n - 65)%N
  else if ((97 <=? n) && (n <=? 122))%N then Some (n - 71)%N
  else if ((48 <=? n) && (n <=? 57))%N then Some (n + 4)%N
  else if (n =? 43)%N then Some 62%N
  else if (n =? 47)%N then Some 63%N
  else None.

(** Remove one or two trailing [=] from data whose length is a multiple
    of four. *)
Definition strip_padding (cs : list ascii) : list ascii :=
  if (length cs mod 4 =? 0)%nat then
    match rev cs with
    | "="%char :: "="%char :: r => rev r
    | "="%char :: r => rev r
    | _ => cs
    end
  else cs.

Fixpoint sextets (cs : list ascii) : option (list N) :=
  match cs with
  | [] => Some []
  | c :: rest =>
      match base64_value c, sextets rest with
      | Some v, Some vs => Some (v :: vs)
      | _, _ => None
      end
  end.

(** Four sextets give three bytes; a final group of two gives one byte and a
    final group of three gives two, the surplus bits being discarded. *)
Fixpoint sextets_to_bytes (vs : list N) : list N :=
  match vs with
  | a :: b :: c :: d :: rest =>
      let w := (a * 262144 + b * 4096 + c * 64 + d)%N in
      (w / 65536)%N :: ((w / 256) mod 256)%N :: (w mod 256)%N :: sextets_to_bytes rest
  | [a; b; c] =>
      let w := ((a * 4096 + b * 64 + c) / 4)%N in
      [(w / 256)%N; (w mod 256)%N]
  | [a; b] => [((a * 64 + b) / 16)%N]
  | _ => []
  end.

(** [atob(s)]: the decoded bytes, or the [InvalidCharacterError] it throws. *)
Definition atob (s : string) : Exc (list N) :=
  let cs := filter (fun c => negb (is_ascii_whitespace c)) (list_ascii_of_string s) in
  let cs := strip_padding cs in
  if (length cs mod 4 =? 1)%nat then Throw "InvalidCharacterError"
  else match sextets cs with
       | Some vs => Ok (sextets_to_bytes vs)
       | None => Throw "InvalidCharacterError"
       end.

(** ** [TextDecoder("utf-8").decode]: UTF-8 with replacement *)

Definition REPLACEMENT : N := 65533.

Inductive utf8_lead_result : Type :=
| Emit (cp : N)
| Need (cp : N) (more : nat) (lower upper : N)
| Bad.

(** What a byte means when no sequence is open. *)
Definition utf8_lead (b : N) : utf8_lead_result :=
  if (b <=? 127)%N then Emit b
  else if ((194 <=? b) && (b <=? 223))%N then Need (N.land b 31) 1 128 191
  else if ((224 <=? b) && (b <=? 239))%N then
    Need (N.land b 15) 2 (if (b =? 224)%N then 160 else 128)%N
         (if (b =? 237)%N then 159 else 191)%N
  else if ((240 <=? b) && (b <=? 244))%N then
    Need (N.land b 7) 3 (if (b =? 240)%N then 144 else 128)%N
         (if (b =? 244)%N then 143 else 191)%N
  else Bad.

(** The decoder's loop.  [st] is the open sequence, if any: the code point
    so far, the number of continuation bytes still needed and the bounds of
    the next byte.  A byte outside the bounds ends the sequence with U+FFFD
    and is then read again as a lead byte. *)
Fixpoint utf8_run (bytes : list N) (st : option (N * nat * N * N)) : list N :=
  match bytes with
  | [] => match st with None => [] | Some _ => [REPLACEMENT] end
  | b :: rest =>
      let fresh :=
        match utf8_lead b with
        | Emit c => c :: utf8_run rest None
        | Need c more lo hi => utf8_run rest (Some (c, more, lo, hi))
        | Bad => REPLACEMENT :: utf8_run rest None
        end in
      match st with
      | None => fresh
      | Some (cp, more, lo, hi) =>
          if ((lo <=? b) && (b <=? hi))%N then
            let cp' := (cp * 64 + N.land b 63)%N in
            match more with
            | S (S m) => utf8_run rest (Some (cp', S m, 128, 191)%N)
            | _ => cp' :: utf8_run rest None
            end
          else REPLACEMENT :: fresh
      end
  end.

(** A code point as one or two UTF-16 code units. *)
Definition utf16_units (cp : N) : list N :=
  if (cp <? 65536)%N then [cp]
  else let c := (cp - 65536)%N in [(55296 + c / 1024)%N; (56320 + c mod 1024)%N].

(** A leading byte order mark is not part of the text. *)
Definition strip_BOM (bytes : list N) : list N :=
  match bytes with
  | 239%N :: 187%N :: 191%N :: rest => rest
  | _ => bytes
  end.

Definition TextDecoder_decode (bytes : list N) : jsstring :=
  concat (map utf16_units (utf8_run (strip_BOM bytes) None)).

(** [base64ToUtf8] (lines 63-70): [atob], the copy of the binary string into
    a byte array, and the decoding of the bytes as UTF-8. *)
Definition base64ToUtf8 (base64 : string) : Exc jsstring :=
  match atob base64 with
  | Ok binaryString => Ok (TextDecoder_decode binaryString)
  | Throw e => Throw e
  end.

(** ** [String.prototype.trim] *)

(** WhiteSpace and LineTerminator code units. *)
Definition is_WhiteSpace (c : N) : bool :=
  ((9 <=? c) && (c <=? 13) || (c =? 32) || (c =? 160) || (c =? 5760)
   || (8192 <=? c) && (c <=? 8202) || (c =? 8232) || (c =? 8233)
   || (c =? 8239) || (c =? 8287) || (c =? 12288) || (c =? 65279))%N.

Fixpoint trimStart (s : jsstring) : jsstring :=
  match s with
  | c :: rest => if is_WhiteSpace c then trimStart rest else s
  | [] => []
  end.

Definition trim (s : jsstring) : jsstring :=
  rev (trimStart (rev (trimStart s))).

(** ** [JSON.parse] *)

Definition is_json_ws (c : N) : bool :=
  ((c =? 32) || (c =? 9) || (c =? 10) || (c =? 13))%N.

Fixpoint skip_ws (s : list N) : list N :=
  match s with
  | c :: rest => if is_json_ws c then skip_ws rest else s
  | [] => []
  end.

Definition is_digit (c : N) : bool := ((48 <=? c) && (c <=? 57))%N.

Definition hex_value (c : N) : option N :=
  if is_digit c then Some (c - 48)%N
  else if ((65 <=? c) && (c <=? 70))%N then Some (c - 55)%N
  else if ((97 <=? c) && (c <=? 102))%N then Some (c - 87)%N
  else None.

Definition hex4 (a b c d : N) : option N :=
  match hex_value a, hex_value b, hex_value c, hex_value d with
  | Some x, Some y, Some z, Some w => Some (x * 4096 + y * 256 + z * 16 + w)%N
  | _, _, _, _ => None
  end.

(** The code unit an escape letter stands for. *)
Definition simple_escape (c : N) : option N :=
  if (c =? 34)%N then Some 34%N
  else if (c =? 92)%N then Some 92%N
  else if (c =? 47)%N then Some 47%N
  else if (c =? 98)%N then Some 8%N
  else if (c =? 102)%N then Some 12%N
  else if (c =? 110)%N then Some 10%N
  else if (c =? 114)%N then Some 13%N
  else if (c =? 116)%N then Some 9%N
  else None.

(** The characters of a string literal after its opening quote, up to and
    including the closing quote. *)
Fixpoint parse_string_body (s : list N) (acc : list N) : option (jsstring * list N) :=
  match s with
  | [] => None
  | c :: rest =>
      if (c =? 34)%N then Some (rev acc, rest)
      else if (c =? 92)%N then
        match rest with
        | e :: rest' =>
            if (e =? 117)%N then
              match rest' with
              | h1 :: h2 :: h3 :: h4 :: rest'' =>
                  match hex4 h1 h2 h3 h4 with
                  | Some u => parse_string_body rest'' (u :: acc)
                  | None => None
                  end
              | _ => None
              end
            else match simple_escape e with
                 | Some u => parse_string_body rest' (u :: acc)
                 | None => None
                 end
        | [] => None
        end
      else if (c <? 32)%N then None
      else parse_string_body rest (c :: acc)
  end.

(** A maximal run of decimal digits: the digits read, their value appended
    to [acc], and the rest. *)
Fixpoint read_digit_run (s : list N) (count : nat) (acc : Z) : nat * Z * list N :=
  match s with
  | c :: rest =>
      if is_digit c then read_digit_run rest (S count) (10 * acc + Z.of_N (c - 48))%Z
      else (count, acc, s)
  | [] => (count, acc, s)
  end.

(** The integer part: a single [0], or a run of digits not starting
    with [0]. *)
Definition parse_int_part (s : list N) : option (Z * list N) :=
  match s with
  | c :: rest =>
      if (c =? 48)%N then Some (0%Z, rest)
      else if is_digit c then
        let '(_, v, r) := read_digit_run s 0 0%Z in Some (v, r)
      else None
  | [] => None
  end.

(** An optional fraction: the mantissa extended by the fraction's digits and
    the number of those digits. *)
Definition parse_frac_part (m : Z) (s : list N) : option (Z * nat * list N) :=
  match s with
  | c :: rest =>
      if (c =? 46)%N then
        let '(k, v, r) := read_digit_run rest 0 m in
        match k with O => None | S _ => Some (v, k, r) end
      else Some (m, O, s)
  | [] => Some (m, O, s)
  end.

(** An optional exponent. *)
Definition parse_exp_part (s : list N) : option (Z * list N) :=
  match s with
  | c :: rest =>
      if ((c =? 101) || (c =? 69))%N then
        let '(neg, digits) :=
          match rest with
          | sg :: rest' =>
              if (sg =? 45)%N then (true, rest')
              else if (sg =? 43)%N then (false, rest')
              else (false, rest)
          | [] => (false, rest)
          end in
        let '(k, v, r) := read_digit_run digits 0 0%Z in
        match k with
        | O => None
        | S _ => Some ((if neg then - v else v)%Z, r)
        end
      else Some (0%Z, s)
  | [] => Some (0%Z, s)
  end.

Definition parse_number (s : list N) : option (JSON * list N) :=
  let '(neg, s1) :=
    match s with
    | c :: rest => if (c =? 45)%N then (true, rest) else (false, s)
    | [] => (false, s)
    end in
  match parse_int_part s1 with
  | None => None
  | Some (i, s2) =>
      match parse_frac_part i s2 with
      | None => None
      | Some (m, k, s3) =>
          match parse_exp_part s3 with
          | None => None
          | Some (e, s4) =>
              Some (JNum (if neg then - m else m) (e - Z.of_nat k), s4)
          end
      end
  end.

(** [s] starts with the code units of [word]: the rest. *)
Fixpoint expect (word : jsstring) (s : list N) : option (list N) :=
  match word with
  | [] => Some s
  | w :: word' =>
      match s with
      | c :: rest => if (c =? w)%N then expect word' rest else None
      | [] => None
      end
  end.

(** A JSON value with the white space before it; [parse_elements] reads the
    rest of an array after [[] and [parse_members] the rest of an object
    after [{], both with at least one entry to come. *)
Fixpoint parse_value (fuel : nat) (s : list N) : option (JSON * list N) :=
  match fuel with
  | O => None
  | S fuel' =>
      match skip_ws s with
      | [] => None
      | c :: rest =>
          if (c =? 123)%N then
            match skip_ws rest with
            | d :: rest' =>
                if (d =? 125)%N then Some (JObj [], rest')
                else parse_members fuel' rest []
            | [] => None
            end
          else if (c =? 91)%N then
            match skip_ws rest with
            | d :: rest' =>
                if (d =? 93)%N then Some (JArr [], rest')
                else parse_elements fuel' rest []
            | [] => None
            end
          else if (c =? 34)%N then
            match parse_string_body rest [] with
            | Some (str, r) => Some (JStr str, r)
            | None => None
            end
          else if (c =? 116)%N then
            match expect (js "rue") rest with
            | Some r => Some (JBool true, r) | None => None end
          else if (c =? 102)%N then
            match expect (js "alse") rest with
            | Some r => Some (JBool false, r) | None => None end
          else if (c =? 110)%N then
            match expect (js "ull") rest with
            | Some r => Some (JNull, r) | None => None end
          else parse_number (c :: rest)
      end
  end
with parse_elements (fuel : nat) (s : list N) (acc : list JSON)
  : option (JSON * list N) :=
  match fuel with
  | O => None
  | S fuel' =>
      match parse_value fuel' s with
      | None => None
      | Some (v, r) =>
          match skip_ws r with
          | d :: r' =>
              if (d =? 44)%N then parse_elements fuel' r' (v :: acc)
              else if (d =? 93)%N then Some (JArr (rev (v :: acc)), r')
              else None
          | [] => None
          end
      end
  end
with parse_members (fuel : nat) (s : list N) (acc : list (jsstring * JSON))
  : option (JSON * list N) :=
  match fuel with
  | O => None
  | S fuel' =>
      match skip_ws s with
      | q :: s1 =>
          if (q =? 34)%N then
            match parse_string_body s1 [] with
            | None => None
            | Some (k, s2) =>
                match skip_ws s2 with
                | col :: s3 =>
                    if (col =? 58)%N then
                      match parse_value fuel' s3 with
                      | None => None
                      | Some (v, r) =>
                          match skip_ws r with
                          | d :: r' =>
                              if (d =? 44)%N then parse_members fuel' r' ((k, v) :: acc)
                              else if (d =? 125)%N then
                                Some (JObj (rev ((k, v) :: acc)), r')
                              else None
                          | [] => None
                          end
                      end
                    else None
                | [] => None
                end
            end
          else None
      | [] => None
      end
  end.

(** [JSON.parse(text)]: one value surrounded by white space, or the
    [SyntaxError] it throws.  Every recursive call follows at least one
    consumed code unit, so twice the length of the text is fuel enough. *)
Definition JSON_parse (text : jsstring) : Exc JSON :=
  match parse_value (2 * length text + 2) text with
  | Some (v, rest) =>
      match skip_ws rest with
      | [] => Ok v
      | _ :: _ => Throw "SyntaxError"
      end
  | None => Throw "SyntaxError"
  end.

(** Sequencing of expressions that may throw. *)
Definition bindExc {A B : Type} (x : Exc A) (k : A -> Exc B) : Exc B :=
  match x with
  | Ok a => k a
  | Throw e => Throw e
  end.

Notation "'let!' x ':=' e 'in' k" := (bindExc e (fun x => k))
  (at level 10, x name, e at level 100, k at level 200).

(** ** Transcript dispatcher: [handleTenMessage] (lines 72-92) *)

Record IMessageListItem : Type := {
  turn_id : N;
  uid : N;
  text : jsstring;
  status : N;
  timestamp : JSValue
}.

(** [messageList], [currentInProgressMessage] and [turnIdCounterRef.current].
    The counter is a double in the hook; it is exact far beyond any number of
    turns a session can reach and is a natural number here. *)
Record Dispatcher : Type := {
  messageList : list IMessageListItem;
  currentInProgressMessage : option IMessageListItem;
  turnIdCounter : N
}.

Definition dispatcher_init : Dispatcher :=
  {| messageList := []; currentInProgressMessage := None; turnIdCounter := 0 |}.

(** [v.k] for the properties the hook reads ([role], [text], [is_final],
    [text_ts]).  Reading a property of [null] throws; no prototype has a
    property of one of these names, so numbers, booleans, strings and arrays
    give [undefined], and an object gives its own property. *)
Definition get (v : JSON) (k : string) : Exc JSValue :=
  match v with
  | JNull => Throw "TypeError"
  | JObj props => Ok (own_property props (js k))
  | _ => Ok undefined
  end.

(** [v === "literal"]. *)
Definition strict_equal_string (v : JSValue) (s : string) : bool :=
  match v with
  | Some (JStr t) => jsstring_eqb t (js s)
  | _ => false
  end.

(** The call either returns the new state or throws before it has changed
    anything: the two places that can throw, the read of [parsedMsg.role]
    and the call of [parsedMsg.text.trim], come before every update. *)
Definition handleTenMessage (parsedMsg : JSON) (d : Dispatcher) : Exc Dispatcher :=
  let! role := get parsedMsg "role" in
  let isAgent := strict_equal_string role "assistant" in
  let uid := if isAgent then 0%N else 1%N in
  let! msg_text := get parsedMsg "text" in
  if negb (truthy msg_text) then Ok d
  else
    match msg_text with
    | Some (JStr s) =>
        if (length (trim s) =? 0)%nat then Ok d
        else
          let! is_final := get parsedMsg "is_final" in
          let! text_ts := get parsedMsg "text_ts" in
          let newMessage :=
            {| turn_id := turnIdCounter d;
               uid := uid;
               text := s;
               status := if truthy is_final then 1%N else 0%N;
               timestamp := text_ts |} in
          if truthy is_final then
            Ok {| messageList := messageList d ++ [newMessage];
                  currentInProgressMessage := None;
                  turnIdCounter := (turnIdCounter d + 1)%N |}
          else
            Ok {| messageList := messageList d;
                  currentInProgressMessage := Some newMessage;
                  turnIdCounter := (turnIdCounter d + 1)%N |}
    | _ => Throw "TypeError"
    end.

(** ** Chunk reassembler: [handleStreamMessage] (lines 94-145) *)

Record TextDataChunk : Type := {
  message_id : string;
  part_index : number;
  total_parts : number;
  content : option string
}.

(** A pending [setTimeout] callback (lines 115-120): the time it is due and
    the [message_id] and [total_parts] its closure has captured. *)
Record Timer : Type := {
  due : N;
  timer_message_id : string;
  timer_total_parts : number
}.

(** The state of the hook that the stream handler touches: the object
    [messageCacheRef.current] (its own properties), the timers it has set
    and the dispatcher's state. *)
Record Client : Type := {
  messageCache : gmap string (list TextDataChunk);
  timers : list Timer;
  dispatcher : Dispatcher
}.

Definition client_init : Client :=
  {| messageCache := ∅; timers := []; dispatcher := dispatcher_init |}.

(** [messageCacheRef.current] is a plain object: a read of a key it does not
    own falls through to [Object.prototype]. *)
Definition Object_prototype_keys : list string :=
  [ "constructor"; "__defineGetter__"; "__defineSetter__"; "hasOwnProperty";
    "__lookupGetter__"; "__lookupSetter__"; "isPrototypeOf";
    "propertyIsEnumerable"; "toString"; "valueOf"; "__proto__";
    "toLocaleString" ].

Inductive CacheRead : Type :=
| Chunks (chunks : list TextDataChunk)
| Inherited
| Absent.

(** [messageCacheRef.current[key]]: the array stored under the key, a member
    of [Object.prototype], or [undefined]. *)
Definition cache_read (cache : gmap string (list TextDataChunk)) (key : string)
  : CacheRead :=
  match cache !! key with
  | Some chunks => Chunks chunks
  | None => if bool_decide (key ∈ Object_prototype_keys) then Inherited else Absent
  end.

(** Lines 96-110: the four fields of the payload.  [None] is the early
    return for an unknown number of parts. *)
Definition parse_chunk (data : list Byte.byte) : option TextDataChunk :=
  let ascii := fromCharCode data in
  let fields := split "|" ascii in
  let message_id := default "" (fields !! 0%nat) in
  let partIndexStr := fields !! 1%nat in
  let totalPartsStr := fields !! 2%nat in
  let content := fields !! 3%nat in
  let part_index := parseInt partIndexStr in
  let total_parts :=
    if bool_decide (totalPartsStr = Some "???") then Num (-1)
    else parseInt totalPartsStr in
  if number_eqb total_parts (Num (-1)) then None
  else Some {| message_id := message_id; part_index := part_index;
               total_parts := total_parts; content := content |}.

(** The comparator [(a, b) => a.part_index - b.part_index] is positive. *)
Definition compare_positive (a b : TextDataChunk) : bool :=
  match part_index a, part_index b with
  | Num x, Num y => (0 <? x - y)%Z
  | _, _ => false
  end.

(** [chunks.sort(...)].  The language asks for a stable sort.  When every
    index is a number the comparator is consistent, and the result is the
    one list that holds the same chunks in ascending order of index, chunks
    of equal index in their order of arrival (see [sort_determined]); this
    function computes it.  When an index is [NaN] the comparator is not
    consistent and the language leaves the order to the engine: this
    function then gives one of the orders an engine may give, and nothing
    below is said of the joined text in that case. *)
Fixpoint sort_insert (x : TextDataChunk) (l : list TextDataChunk) : list TextDataChunk :=
  match l with
  | [] => [x]
  | y :: l' => if compare_positive x y then y :: sort_insert x l' else x :: y :: l'
  end.

Fixpoint sort (l : list TextDataChunk) : list TextDataChunk :=
  match l with
  | [] => []
  | x :: l' => sort_insert x (sort l')
  end.

(** [chunks.map(c => c.content).join("")]; [join] writes [undefined] as the
    empty string. *)
Definition join_contents (chunks : list TextDataChunk) : string :=
  foldr (fun c acc => String.append (default "" (content c)) acc) "" chunks.

(** The body of the inner [try] (lines 132-135). *)
Definition decode_and_dispatch (completeBase64 : string) (d : Dispatcher)
  : Exc Dispatcher :=
  let! jsonStr := base64ToUtf8 completeBase64 in
  let! parsedMsg := JSON_parse jsonStr in
  handleTenMessage parsedMsg d.

(** The inner [try ... catch] (lines 131-138): a failure is logged and the
    dispatcher keeps its state. *)
Definition try_dispatch (completeBase64 : string) (d : Dispatcher) : Dispatcher :=
  match decode_and_dispatch completeBase64 d with
  | Ok d' => d'
  | Throw _ => d
  end.

(** How a block of statements ends: normally, or by an exception that
    leaves the state as it was when thrown. *)
Inductive Completion : Type :=
| Normal (c : Client)
| Abrupt (e : string) (c : Client).

(** Lines 110-141, for a chunk that was not dropped, at time [now]. *)
Definition ingest (now : N) (chunk : TextDataChunk) (c : Client) : Completion :=
  let id := message_id chunk in
  (* if (!messageCacheRef.current[message_id]) { ... } *)
  let c1 :=
    match cache_read (messageCache c) id with
    | Absent =>
        {| messageCache := <[id := []]> (messageCache c);
           timers := timers c ++
             [{| due := (now + 5000)%N; timer_message_id := id;
                 timer_total_parts := total_parts chunk |}];
           dispatcher := dispatcher c |}
    | _ => c
    end in
  (* messageCacheRef.current[message_id].push(chunk) *)
  match cache_read (messageCache c1) id with
  | Absent => Abrupt "TypeError" c1
  | Inherited => Abrupt "TypeError" c1
  | Chunks pending =>
      let chunks := pending ++ [chunk] in
      if number_eqb (Num (Z.of_nat (length chunks))) (total_parts chunk) then
        let completeBase64 := join_contents (sort chunks) in
        Normal {| messageCache := delete id (messageCache c1);
                  timers := timers c1;
                  dispatcher := try_dispatch completeBase64 (dispatcher c1) |}
      else
        Normal {| messageCache := <[id := chunks]> (messageCache c1);
                  timers := timers c1;
                  dispatcher := dispatcher c1 |}
  end.

(** The body of the outer [try] (lines 96-141). *)
Definition handleStreamMessage_body (now : N) (data : list Byte.byte) (c : Client)
  : Completion :=
  match parse_chunk data with
  | None => Normal c
  | Some chunk => ingest now chunk c
  end.

(** [handleStreamMessage]: the outer [catch] (lines 142-144) logs the error
    and the handler returns. *)
Definition handleStreamMessage (now : N) (data : list Byte.byte) (c : Client)
  : Completion :=
  match handleStreamMessage_body now data c with
  | Normal c' => Normal c'
  | Abrupt _ c' => Normal c'
  end.

Definition state_of (r : Completion) : Client :=
  match r with
  | Normal c => c
  | Abrupt _ c => c
  end.

(** The state after a sequence of stream messages, each with its time of
    arrival. *)
Definition receive (c : Client) (arrival : N * list Byte.byte) : Client :=
  state_of (handleStreamMessage (fst arrival) (snd arrival) c).

Definition receive_all (c : Client) (arrivals : list (N * list Byte.byte)) : Client :=
  foldl receive c arrivals.

(** The callback given to [setTimeout] (lines 116-119): the entry is deleted
    unless it holds exactly [total_parts] chunks.  Deleting a key the object
    does not own changes nothing. *)
Definition evict (id : string) (total : number) (c : Client) : Client :=
  match messageCache c !! id with
  | Some chunks =>
      if number_eqb (Num (Z.of_nat (length chunks))) total then c
      else {| messageCache := delete id (messageCache c);
              timers := timers c;
              dispatcher := dispatcher c |}
  | None => c
  end.

Definition fire (c : Client) (t : Timer) : Client :=
  evict (timer_message_id t) (timer_total_parts t) c.

(** The clock reaches [t]: the timers due by then run, in the order in which
    they were set, and leave the list of pending timers. *)
Definition advance (t : N) (c : Client) : Client :=
  let due_now := filter (fun tm => (due tm <=? t)%N = true) (timers c) in
  let later := filter (fun tm => (due tm <=? t)%N = false) (timers c) in
  foldl fire {| messageCache := messageCache c; timers := later;
                dispatcher := dispatcher c |} due_now.

Definition bytes (s : string) : list Byte.byte := list_byte_of_string s.

(** ** Voice activity: the volume-check interval (lines 213-229) *)

(** The array [volumes] of the running effect and the state cell
    [isAgentSpeaking] its closure has captured.  A volume level is a real
    number; rationals stand for it. *)
Record VoiceActivity : Type := {
  volumes : list Q;
  isAgentSpeaking : bool
}.

Definition voice_init : VoiceActivity :=
  {| volumes := []; isAgentSpeaking := false |}.

(** [v === 0] and [v > 0]. *)
Definition is_zero (v : Q) : bool := Qeq_bool v 0.
Definition is_positive (v : Q) : bool := negb (Qle_bool v 0).

(** [volumes.push(volume); if (volumes.length > 3) volumes.shift()]. *)
Definition push_volume (vs : list Q) (volume : Q) : list Q :=
  let vs' := vs ++ [volume] in
  if (3 <? length vs')%nat then tail vs' else vs'.

(** One run of the interval callback with the reading [volume].  The effect
    depends on [isAgentSpeaking] (line 237): when the callback changes it,
    the effect is torn down and set up again, with a new empty [volumes]. *)
Definition volume_check (volume : Q) (s : VoiceActivity) : VoiceActivity :=
  let vs := push_volume (volumes s) volume in
  let isAllZero := (2 <=? length vs)%nat && forallb is_zero vs in
  let hasSound := (2 <=? length vs)%nat && existsb is_positive vs in
  if isAllZero && isAgentSpeaking s then
    {| volumes := []; isAgentSpeaking := false |}
  else if hasSound && negb (isAgentSpeaking s) then
    {| volumes := []; isAgentSpeaking := true |}
  else
    {| volumes := vs; isAgentSpeaking := isAgentSpeaking s |}.

Definition volume_checks (samples : list Q) (s : VoiceActivity) : VoiceActivity :=
  foldl (fun st v => volume_check v st) s samples.

(** ** Doubles *)

(** The numbers of the visualiser are doubles, and each of its operations
    gives the double nearest to the exact result.  A double is taken as the
    rational it is; [double x] is the double nearest to the rational [x], in
    a tie the one whose last bit is zero.  No operation of the visualiser
    leaves the range of the doubles when the options are in theirs, so
    [Infinity] has no part here. *)

(** The integer [k] with [2^k <= x < 2^(k+1)], for [x] above zero. *)
Definition ilog2 (x : Q) : Z :=
  let k := (Z.log2 (Qnum x) - Z.log2 (Zpos (Qden x)))%Z in
  if Qle_bool (2 ^ k)%Q x then k else (k - 1)%Z.

(** The nearest integer, in a tie the even one. *)
Definition round_half_even (q : Q) : Z :=
  let f := Qfloor q in
  match Qcompare (q - inject_Z f)%Q (1 # 2)%Q with
  | Lt => f
  | Gt => (f + 1)%Z
  | Eq => if Z.even f then f else (f + 1)%Z
  end.

(** The exponent of the last bit of the doubles around [x]: 52 places
    below the leading bit of [x], and -1074 for the smallest. *)
Definition double_exponent (x : Q) : Z := Z.max (ilog2 x - 52) (-1074).

Definition double_above_zero (x : Q) : Q :=
  let e := double_exponent x in
  (inject_Z (round_half_even (x / 2 ^ e)) * 2 ^ e)%Q.

Definition double (x : Q) : Q :=
  match Qcompare x 0%Q with
  | Eq => 0%Q
  | Gt => double_above_zero x
  | Lt => (- double_above_zero (- x))%Q
  end.

(** [x] is a double. *)
Definition is_double (x : Q) : Prop := (double x == x)%Q.

(** ** Amplitude visualiser: [updateData] (lines 109-174) *)

Record AudioVisualizationOptions : Type := {
  threshold : Q;
  barCount : nat;
  amplification : Q;
  volumeDecay : Q;
  attackRate : Q
}.

(** The defaults of lines 39-46, each the double its literal denotes; the
    application passes no options. *)
Definition default_options : AudioVisualizationOptions :=
  {| threshold := double (15 # 100); barCount := 24; amplification := 4;
     volumeDecay := double (95 # 100); attackRate := double (3 # 10) |}.

(** [smoothedVolumeRef.current] and [currentLitCountRef.current]. *)
Record Levels : Type := {
  smoothedVolume : Q;
  currentLitCount : Q
}.

Definition levels_init : Levels :=
  {| smoothedVolume := 0; currentLitCount := 0 |}.

Definition sum_bytes (dataArray : list N) : Z :=
  foldl (fun acc b => (acc + Z.of_N b)%Z) 0%Z dataArray.

(** The buffer of the analyser: [frequencyBinCount] = 128 bytes. *)
Definition analyser_frame (dataArray : list N) : Prop :=
  length dataArray = 128%nat ∧ Forall (fun b => (b <= 255)%N) dataArray.

(** Lines 116-120.  The sum of the bytes is an integer far below 2^53 and
    exact. *)
Definition averageVolume (dataArray : list N) : Q :=
  double (inject_Z (sum_bytes dataArray) / inject_Z (Z.of_nat (length dataArray))).

(** Line 123: [Math.min(1, (averageVolume / 255) * amplification)]. *)
Definition amplifiedVolume (o : AudioVisualizationOptions) (average : Q) : Q :=
  Qmin 1 (double (double (average / 255) * amplification o)).

(** Lines 123-131. *)
Definition rawVolume (o : AudioVisualizationOptions) (average : Q) : Q :=
  let raw := amplifiedVolume o average in
  if Qlt_le_dec raw (threshold o) then 0
  else double (double (raw - threshold o) / double (1 - threshold o)).

(** Lines 134-138. *)
Definition smooth (o : AudioVisualizationOptions) (raw previous : Q) : Q :=
  if Qlt_le_dec previous raw then raw else double (previous * volumeDecay o).

(** Line 142. *)
Definition targetLitCount (o : AudioVisualizationOptions) (smoothed : Q) : Q :=
  double (smoothed * inject_Z (Z.of_nat (barCount o))).

(** Lines 145-154. *)
Definition newLitCount (o : AudioVisualizationOptions) (target current : Q) : Q :=
  if Qlt_le_dec current target
  then double (current + double (double (target - current) * attackRate o))
  else double (current * volumeDecay o).

(** The target lit count of the tick that reads [dataArray] in state [s]. *)
Definition tick_target (o : AudioVisualizationOptions) (dataArray : list N)
  (s : Levels) : Q :=
  targetLitCount o
    (smooth o (rawVolume o (averageVolume dataArray)) (smoothedVolume s)).

(** One run of [updateData] on the two refs. *)
Definition updateData (o : AudioVisualizationOptions) (dataArray : list N)
  (s : Levels) : Levels :=
  let smoothed := smooth o (rawVolume o (averageVolume dataArray)) (smoothedVolume s) in
  {| smoothedVolume := smoothed;
     currentLitCount := newLitCount o (targetLitCount o smoothed) (currentLitCount s) |}.

(** [Math.round]: the nearest integer, halves upwards; the result is exact. *)
Definition Math_round (x : Q) : Z := Qfloor (x + (1 # 2)).

(** Lines 159-164: the bars shown for the state after a tick. *)
Definition visualizationData (o : AudioVisualizationOptions) (s : Levels) : list N :=
  let displayLitCount := Math_round (currentLitCount s) in
  map (fun i => if (Z.of_nat i <? displayLitCount)%Z then 1%N else 0%N)
      (seq 0 (barCount o)).

Definition updates (o : AudioVisualizationOptions) (frames : list (list N))
  (s : Levels) : Levels :=
  foldl (fun st dataArray => updateData o dataArray st) s frames.

(** ** Runs of the dispatcher *)

(** [handleTenMessage] as the stream handler calls it, inside the inner
    [try]: a throw leaves the dispatcher as it was. *)
Definition dispatch (d : Dispatcher) (parsedMsg : JSON) : Dispatcher :=
  match handleTenMessage parsedMsg d with
  | Ok d' => d'
  | Throw _ => d
  end.

Definition dispatch_all (history : list JSON) (d : Dispatcher) : Dispatcher :=
  foldl dispatch d history.

(** The messages a dispatcher state holds: the finalized list and the
    in-progress slot. *)
Definition held (d : Dispatcher) (m : IMessageListItem) : Prop :=
  m ∈ messageList d ∨ currentInProgressMessage d = Some m.

(** Every turn id in the state was taken from the counter before it moved
    on. *)
Definition ids_below (d : Dispatcher) : Prop :=
  ∀ m, held d m → (turn_id m < turnIdCounter d)%N.

(** ** Bounds of the visualiser's state *)

(** The options lie in the ranges their documentation gives (lines 7-16):
    the threshold, a double, below 1, the decay and the attack rate in
    [0, 1]; and the number of bars is a length an array can have. *)
Definition options_in_range (o : AudioVisualizationOptions) : Prop :=
  is_double (threshold o) ∧ (threshold o < 1)%Q ∧
  (0 <= volumeDecay o)%Q ∧ (volumeDecay o <= 1)%Q ∧
  (0 <= attackRate o)%Q ∧ (attackRate o <= 1)%Q ∧
  (Z.of_nat (barCount o) < 2 ^ 32)%Z.

(** The two levels are doubles. *)
Definition levels_are_doubles (s : Levels) : Prop :=
  is_double (smoothedVolume s) ∧ is_double (currentLitCount s).

Definition bars (o : AudioVisualizationOptions) : Q :=
  inject_Z (Z.of_nat (barCount o)).

Definition levels_in_range (o : AudioVisualizationOptions) (s : Levels) : Prop :=
  (0 <= smoothedVolume s)%Q ∧ (smoothedVolume s <= 1)%Q ∧
  (0 <= currentLitCount s)%Q ∧ (currentLitCount s <= bars o)%Q.

(** ** Chunk sets *)

(** The part index of [a] is below the part index of [b]. *)
Definition index_lt (a b : TextDataChunk) : Prop :=
  ∃ x y : Z, part_index a = Num x ∧ part_index b = Num y ∧ (x < y)%Z.

(** A complete chunk set for [id]: at least one chunk, every chunk carries
    [id] and declares as many parts as there are chunks, and the part
    indices are integers, no two the same. *)
Definition complete_chunk_set (id : string) (chunks : list TextDataChunk) : Prop :=
  chunks ≠ [] ∧
  Forall (fun ch => message_id ch = id ∧
                    total_parts ch = Num (Z.of_nat (length chunks)) ∧
                    ∃ p : Z, part_index ch = Num p) chunks ∧
  NoDup (map part_index chunks).

(** The payload of an arrival is not dropped and gives the chunk [ch]. *)
Definition parses_to (arrival : N * list Byte.byte) (ch : TextDataChunk) : Prop :=
  parse_chunk (snd arrival) = Some ch.

(** The timer set when the first chunk of [id] arrives at [now]. *)
Definition eviction_timer (now : N) (id : string) (total : number) : Timer :=
  {| due := (now + 5000)%N; timer_message_id := id; timer_total_parts := total |}.

(** [persists id deadline c c']: [c'] comes after [c] by stream messages
    and by the clock moving to times before [deadline], and before each of
    the stream messages the entry of [id] exists. *)
Inductive persists (id : string) (deadline : N) (c : Client) : Client → Prop :=
| persists_here : persists id deadline c c
| persists_receive (c' : Client) (t : N) (data : list Byte.byte) :
    persists id deadline c c' →
    is_Some (messageCache c' !! id) →
    persists id deadline c (receive c' (t, data))
| persists_advance (c' : Client) (t : N) :
    persists id deadline c c' →
    (t < deadline)%N →
    persists id deadline c (advance t c').

(** ** Finished messages *)

(** The chunks an entry holds once [ch] is pushed. *)
Definition with_chunk (c : Client) (ch : TextDataChunk) : list TextDataChunk :=
  default [] (messageCache c !! message_id ch) ++ [ch].

(** [finished id c]: in state [c] the message [id] has been completed (its
    last chunk arrived and the entry was reassembled and deleted) or evicted
    (its timer found the entry incomplete and deleted it), and no chunk for
    [id] has arrived since; other ids' chunks, dropped payloads and timers
    may have. *)
Inductive finished (id : string) : Client → Prop :=
| finished_completed (c0 : Client) (t : N) (data : list Byte.byte)
    (last : TextDataChunk) :
    parse_chunk data = Some last →
    message_id last = id →
    id ∉ Object_prototype_keys →
    number_eqb (Num (Z.of_nat (length (with_chunk c0 last)))) (total_parts last) = true →
    finished id (receive c0 (t, data))
| finished_evicted (c0 : Client) (total : number) (chunks : list TextDataChunk) :
    id ∉ Object_prototype_keys →
    messageCache c0 !! id = Some chunks →
    number_eqb (Num (Z.of_nat (length chunks))) total = false →
    finished id (evict id total c0)
| finished_dropped (c : Client) (t : N) (data : list Byte.byte) :
    finished id c → parse_chunk data = None →
    finished id (receive c (t, data))
| finished_other (c : Client) (t : N) (data : list Byte.byte) (ch : TextDataChunk) :
    finished id c → parse_chunk data = Some ch → message_id ch ≠ id →
    finished id (receive c (t, data))
| finished_timer (c : Client) (tm : Timer) :
    finished id c → finished id (fire c tm).

(** The statement that a chunk for a finished message is ignored. *)
Definition late_chunks_ignored : Prop :=
  ∀ (id : string) (c : Client) (t : N) (data : list Byte.byte) (ch : TextDataChunk),
    finished id c → parse_chunk data = Some ch → message_id ch = id →
    receive c (t, data) = c.

(** ** The three-chunk scenario for message [m1] *)

Definition m1_payload (index content : string) : list Byte.byte :=
  bytes ("m1|" +:+ index +:+ "|3|" +:+ content).

Definition m1_part0 : list Byte.byte := m1_payload "0" "SGVsbG8s".
Definition m1_part1 : list Byte.byte := m1_payload "1" "Qg==".
Definition m1_part2 : list Byte.byte := m1_payload "2" "d29ybGQh".

Definition m1_chunk (index : Z) (part : string) : TextDataChunk :=
  {| message_id := "m1"; part_index := Num index; total_parts := Num 3;
     content := Some part |}.

Definition m1_chunks : list TextDataChunk :=
  [m1_chunk 0 "SGVsbG8s"; m1_chunk 1 "Qg=="; m1_chunk 2 "d29ybGQh"].

(** The three parts joined in index order. *)
Definition m1_joined : string := "SGVsbG8sQg==d29ybGQh".

(** Lines 132-133 on their own: the record, if decoding and parsing
    succeed. *)
Definition decode_record (completeBase64 : string) : Exc JSON :=
  let! jsonStr := base64ToUtf8 completeBase64 in
  JSON_parse jsonStr.

(** ** A transcript record sent in three chunks *)

(** The base64 text of
    [{"text":"hi","is_final":true,"role":"assistant","text_ts":1700}],
    cut into three parts. *)
Definition hi_part0 : string := "eyJ0ZXh0IjoiaGkiLCJpc19maW5h".
Definition hi_part1 : string := "bCI6dHJ1ZSwicm9sZSI6ImFzc2lz".
Definition hi_part2 : string := "dGFudCIsInRleHRfdHMiOjE3MDB9".

Definition hi_chunk (index : Z) (part : string) : TextDataChunk :=
  {| message_id := "t7"; part_index := Num index; total_parts := Num 3;
     content := Some part |}.

Definition hi_payload (index part : string) : list Byte.byte :=
  bytes ("t7|" +:+ index +:+ "|3|" +:+ part).

Definition hi_record : JSON :=
  JObj [(js "text", JStr (js "hi")); (js "is_final", JBool true);
        (js "role", JStr (js "assistant")); (js "text_ts", JNum 1700 0)].

Definition hi_message : IMessageListItem :=
  {| turn_id := 0; uid := 0; text := js "hi"; status := 1;
     timestamp := Some (JNum 1700 0) |}.

(** Options in their documented ranges for which a target equal to the
    current count is reached from the initial state. *)
Definition halving_options : AudioVisualizationOptions :=
  {| threshold := 0; barCount := 4; amplification := 1;
     volumeDecay := 1 # 2; attackRate := 1 # 2 |}.

Definition loud_frame : list N := repeat 255%N 128.
Definition silent_frame : list N := repeat 0%N 128.

(** The whole record in one chunk, and a later chunk with the same id. *)
Definition hi_single : list Byte.byte :=
  bytes ("t7|0|1|" +:+ hi_part0 +:+ hi_part1 +:+ hi_part2).

Definition hi_late : list Byte.byte := hi_payload "0" hi_part0.

(** The same record in two chunks whose indices on the wire are 2^53 and
    2^53 + 1, and in one chunk under an id that names a member of
    [Object.prototype]. *)
Definition hi_head : list Byte.byte :=
  bytes ("t7|9007199254740992|2|" +:+ hi_part0 +:+ hi_part1).

Definition hi_tail : list Byte.byte :=
  bytes ("t7|9007199254740993|2|" +:+ hi_part2).

Definition hi_constructor : list Byte.byte :=
  bytes ("constructor|0|1|" +:+ hi_part0 +:+ hi_part1 +:+ hi_part2).

(** Options in their documented ranges with an attack rate of 1, and a
    frame of 128 bytes of which the first [full] are 255 and the next is
    [rest]. *)
Definition full_attack_options : AudioVisualizationOptions :=
  {| threshold := 0; barCount := 24; amplification := 1;
     volumeDecay := double (95 # 100); attackRate := 1 |}.

Definition frame_of (full : nat) (rest : N) : list N :=
  repeat 255%N full ++ [rest] ++ repeat 0%N (127 - full).

(** ** What the dispatcher makes of a record *)

(** The message [handleTenMessage] builds for a record when the counter is
    at [id]: there is one when the record is an object whose [text] is a
    string with a character that is not white space. *)
Definition new_message (parsedMsg : JSON) (id : N) : option IMessageListItem :=
  match parsedMsg with
  | JObj props =>
      match own_property props (js "text") with
      | Some (JStr s) =>
          if forallb is_WhiteSpace s then None
          else Some {| turn_id := id;
                       uid := if strict_equal_string (own_property props (js "role"))
                                   "assistant"
                              then 0%N else 1%N;
                       text := s;
                       status := if truthy (own_property props (js "is_final"))
                                 then 1%N else 0%N;
                       timestamp := own_property props (js "text_ts") |}
      | _ => None
      end
  | _ => None
  end.

(** The text of a record that is accepted and final. *)
Definition final_text (parsedMsg : JSON) : option jsstring :=
  match new_message parsedMsg 0 with
  | Some m => if (status m =? 1)%N then Some (text m) else None
  | None => None
  end.

(** The record is accepted: the call changes the state. *)
Definition accepted (parsedMsg : JSON) : bool :=
  bool_decide (is_Some (new_message parsedMsg 0)).

(** A message as the list or the slot may hold it. *)
Definition well_formed_message (m : IMessageListItem) : Prop :=
  (uid m = 0%N ∨ uid m = 1%N) ∧ forallb is_WhiteSpace (text m) = false.

(** ** The wire format *)

(** The text has no separator in it. *)
Fixpoint bar_free (s : string) : bool :=
  match s with
  | EmptyString => true
  | String c rest => negb (Ascii.eqb c "|") && bar_free rest
  end.

(** A payload in the format of line 99:
    [message_id|part_index|total_parts|content]. *)
Definition payload (id index total part : string) : list Byte.byte :=
  bytes (id +:+ "|" +:+ index +:+ "|" +:+ total +:+ "|" +:+ part).

(** A number of parts that no entry can reach: not a number, or below 1. *)
Definition unreachable_total (total : number) : Prop :=
  match total with
  | NaN => True
  | Num n => (n < 1)%Z
  end.

(** ** Traffic of several messages *)

(** The chunks of [id] among the arrivals, in their order of arrival. *)
Definition chunks_of (id : string) (arrivals : list (N * list Byte.byte))
  : list TextDataChunk :=
  filter (fun ch => message_id ch = id)
         (omap (fun a : N * list Byte.byte => parse_chunk (snd a)) arrivals).

(** The part index of [ch] is the integer [p]. *)
Definition has_index (p : Z) (ch : TextDataChunk) : Prop :=
  part_index ch = Num p.

#[global] Instance has_index_dec (p : Z) (ch : TextDataChunk) :
  Decision (has_index p ch).
Proof. unfold has_index. apply _. Defined.

(** The part index of [a] is at most that of [b]. *)
Definition index_le (a b : TextDataChunk) : Prop :=
  ∃ x y : Z, part_index a = Num x ∧ part_index b = Num y ∧ (x <= y)%Z.

(** What holds of every entry of the cache: its key is no member of
    [Object.prototype]; it holds at least one chunk; its chunks carry its
    key and a number of parts other than -1; and the number of parts of the
    chunk pushed last is not the number of chunks held. *)
Definition entry_invariant (id : string) (chunks : list TextDataChunk) : Prop :=
  (id ∉ Object_prototype_keys) ∧
  chunks ≠ [] ∧
  Forall (fun ch => message_id ch = id ∧ total_parts ch ≠ Num (-1)) chunks ∧
  ∀ ch, last chunks = Some ch → total_parts ch ≠ Num (Z.of_nat (length chunks)).

Definition cache_invariant (cache : gmap string (list TextDataChunk)) : Prop :=
  ∀ id chunks, cache !! id = Some chunks → entry_invariant id chunks.

(** ** Leaving the channel *)

(** [leaveChannel] (lines 307-332) on the state the stream handler uses.
    [left] is the outcome of lines 310-317, the calls on the RTC helper (or
    [Ok] when there is none): when one of them throws, the [catch] logs the
    error and nothing below is reached.  Otherwise the cache is replaced by
    an empty object and the list and the slot are cleared; the timers set by
    the stream handler are not cleared and the turn counter is not reset. *)
Definition leaveChannel (left : Exc unit) (c : Client) : Client :=
  match left with
  | Ok _ =>
      {| messageCache := ∅;
         timers := timers c;
         dispatcher :=
           {| messageList := [];
              currentInProgressMessage := None;
              turnIdCounter := turnIdCounter (dispatcher c) |} |}
  | Throw _ => c
  end.

(** The states reached from the initial one by stream messages, timer
    callbacks, steps of the clock and leaving the channel. *)
Inductive reachable : Client → Prop :=
| reachable_init : reachable client_init
| reachable_receive (c : Client) (t : N) (data : list Byte.byte) :
    reachable c → reachable (receive c (t, data))
| reachable_fire (c : Client) (tm : Timer) :
    reachable c → reachable (fire c tm)
| reachable_advance (c : Client) (t : N) :
    reachable c → reachable (advance t c)
| reachable_leave (c : Client) (left : Exc unit) :
    reachable c → reachable (leaveChannel left c).

(** [session_from start c]: [c] is reached from the initial state, and
    [start] is where the turn counter stood when the channel was last left
    on the way, 0 when it was never left. *)
Inductive session_from : N → Client → Prop :=
| session_init : session_from 0 client_init
| session_receive (start : N) (c : Client) (t : N) (data : list Byte.byte) :
    session_from start c → session_from start (receive c (t, data))
| session_fire (start : N) (c : Client) (tm : Timer) :
    session_from start c → session_from start (fire c tm)
| session_advance (start : N) (c : Client) (t : N) :
    session_from start c → session_from start (advance t c)
| session_left (start : N) (c : Client) :
    session_from start c →
    session_from (turnIdCounter (dispatcher c)) (leaveChannel (Ok tt) c)
| session_not_left (start : N) (c : Client) (e : string) :
    session_from start c → session_from start (leaveChannel (Throw e) c).

(** ** Frames below the noise floor *)

(** A frame of the analyser's 128 bins whose amplified average is below the
    threshold (line 126). *)
Definition below_threshold (o : AudioVisualizationOptions) (dataArray : list N)
  : Prop :=
  length dataArray = 128%nat ∧
  (amplifiedVolume o (averageVolume dataArray) < threshold o)%Q.

(** The number of bars lit for a lit count: the rounded count, within the
    number of bars. *)
Definition displayLitCount (o : AudioVisualizationOptions) (s : Levels) : nat :=
  Nat.min (Z.to_nat (Math_round (currentLitCount s))) (barCount o).

(** * Properties *)

(** ** Trimming *)

Lemma trimStart_nil (s : jsstring) :
  trimStart s = [] ↔ forallb is_WhiteSpace s = true.
Proof.
  induction s as [|c s IH]; simpl; [tauto|].
  destruct (is_WhiteSpace c); simpl; [exact IH|].
  split; discriminate.
Qed.

Lemma trimStart_forallb (s : jsstring) :
  forallb is_WhiteSpace s = false → forallb is_WhiteSpace (trimStart s) = false.
Proof.
  induction s as [|c s IH]; simpl; [discriminate|].
  destruct (is_WhiteSpace c) eqn:Hc; simpl; [exact IH|].
  intros _. now rewrite Hc.
Qed.

Lemma forallb_rev {A : Type} (f : A → bool) (l : list A) :
  forallb f (rev l) = forallb f l.
Proof.
  induction l as [|x l IH]; simpl; [reflexivity|].
  rewrite forallb_app, IH. simpl. rewrite andb_true_r. apply andb_comm.
Qed.

Lemma trim_whitespace_only (s : jsstring) :
  forallb is_WhiteSpace s = true → trim s = [].
Proof.
  intros H. unfold trim.
  apply trimStart_nil in H. rewrite H. reflexivity.
Qed.

Lemma trim_not_whitespace_only (s : jsstring) :
  forallb is_WhiteSpace s = false → trim s ≠ [].
Proof.
  intros H Hnil. unfold trim in Hnil.
  apply trimStart_forallb in H.
  rewrite <- forallb_rev in H.
  apply trimStart_forallb in H.
  rewrite <- forallb_rev, Hnil in H. discriminate.
Qed.

(** ** Dispatcher *)

Lemma get_Some_object (v : JSON) (k : string) (w : JSON) :
  get v k = Ok (Some w) → ∃ props, v = JObj props.
Proof. destruct v; simpl; try discriminate. intros _. eauto. Qed.

(** What a call of [handleTenMessage] does to the state: nothing, or one new
    message that carries the old counter, with the counter moved on. *)
Lemma handleTenMessage_cases (parsedMsg : JSON) (d d' : Dispatcher) :
  handleTenMessage parsedMsg d = Ok d' →
  d' = d ∨
  ∃ m, turn_id m = turnIdCounter d ∧
       turnIdCounter d' = (turnIdCounter d + 1)%N ∧
       ((messageList d' = messageList d ++ [m] ∧ currentInProgressMessage d' = None) ∨
        (messageList d' = messageList d ∧ currentInProgressMessage d' = Some m)).
Proof.
  unfold handleTenMessage.
  destruct (get parsedMsg "role") as [role|]; simpl; [|discriminate].
  destruct (get parsedMsg "text") as [msg_text|]; simpl; [|discriminate].
  destruct (truthy msg_text); simpl; [|intros [= <-]; now left].
  destruct msg_text as [[| | |s| |]|]; try discriminate.
  destruct (length (trim s) =? 0)%nat; [intros [= <-]; now left|].
  destruct (get parsedMsg "is_final") as [is_final|]; simpl; [|discriminate].
  destruct (get parsedMsg "text_ts") as [text_ts|]; simpl; [|discriminate].
  destruct (truthy is_final); intros [= <-]; right; eexists; simpl.
  - (split; [|split; [reflexivity|left; split; reflexivity]]); reflexivity.
  - (split; [|split; [reflexivity|right; split; reflexivity]]); reflexivity.
Qed.

Lemma dispatch_cases (parsedMsg : JSON) (d : Dispatcher) :
  dispatch d parsedMsg = d ∨
  ∃ m, turn_id m = turnIdCounter d ∧
       turnIdCounter (dispatch d parsedMsg) = (turnIdCounter d + 1)%N ∧
       ((messageList (dispatch d parsedMsg) = messageList d ++ [m] ∧
         currentInProgressMessage (dispatch d parsedMsg) = None) ∨
        (messageList (dispatch d parsedMsg) = messageList d ∧
         currentInProgressMessage (dispatch d parsedMsg) = Some m)).
Proof.
  unfold dispatch.
  destruct (handleTenMessage parsedMsg d) as [d'|] eqn:H; [|now left].
  now apply handleTenMessage_cases in H.
Qed.

Lemma dispatch_ids_below (parsedMsg : JSON) (d : Dispatcher) :
  ids_below d → ids_below (dispatch d parsedMsg).
Proof.
  intros Hd.
  destruct (dispatch_cases parsedMsg d) as [->|(m & Hm & Hc & Hs)]; [exact Hd|].
  intros m' Hheld. rewrite Hc.
  assert (m' = m ∨ held d m') as [->|Hold].
  { destruct Hs as [[Hl Hp]|[Hl Hp]]; destruct Hheld as [Hin|Hin].
    - rewrite Hl in Hin. apply elem_of_app in Hin as [Hin|Hin].
      + right. now left.
      + left. now apply list_elem_of_singleton in Hin.
    - rewrite Hp in Hin. discriminate.
    - right. left. now rewrite <- Hl.
    - left. rewrite Hp in Hin. congruence. }
  - lia.
  - specialize (Hd _ Hold). lia.
Qed.

Lemma dispatch_all_ids_below (history : list JSON) (d : Dispatcher) :
  ids_below d → ids_below (dispatch_all history d).
Proof.
  revert d. induction history as [|x history IH]; intros d Hd; [exact Hd|].
  simpl. apply IH. now apply dispatch_ids_below.
Qed.

Lemma dispatch_counter_mono (parsedMsg : JSON) (d : Dispatcher) :
  (turnIdCounter d <= turnIdCounter (dispatch d parsedMsg))%N.
Proof.
  destruct (dispatch_cases parsedMsg d) as [->|(m & _ & Hc & _)]; [lia|].
  rewrite Hc. lia.
Qed.

Lemma dispatch_all_counter_mono (history : list JSON) (d : Dispatcher) :
  (turnIdCounter d <= turnIdCounter (dispatch_all history d))%N.
Proof.
  revert d. induction history as [|x history IH]; intros d; simpl; [lia|].
  etransitivity; [apply (dispatch_counter_mono x)|apply IH].
Qed.

(** The finalized list only grows. *)
Lemma dispatch_prefix (parsedMsg : JSON) (d : Dispatcher) :
  messageList d `prefix_of` messageList (dispatch d parsedMsg).
Proof.
  destruct (dispatch_cases parsedMsg d) as [->|(m & _ & _ & [[-> _]|[-> _]])];
    try reflexivity.
  now apply prefix_app_r.
Qed.

Lemma dispatch_all_prefix (history : list JSON) (d : Dispatcher) :
  messageList d `prefix_of` messageList (dispatch_all history d).
Proof.
  revert d. induction history as [|x history IH]; intros d; simpl; [reflexivity|].
  etransitivity; [apply (dispatch_prefix x)|apply IH].
Qed.

Lemma dispatch_all_app (h1 h2 : list JSON) (d : Dispatcher) :
  dispatch_all (h1 ++ h2) d = dispatch_all h2 (dispatch_all h1 d).
Proof. unfold dispatch_all. apply foldl_app. Qed.

(** C7.  A record whose text has a character that is not white space and
    whose [is_final] is [true] makes [handleTenMessage] append exactly one
    message to [messageList], leave the earlier messages as they were, and
    empty the in-progress slot.  The appended message carries the counter's
    value, the counter moves on by one, and the new turn id is strictly
    greater than every turn id held, in the list or in the slot, by any
    earlier state of the run.  Over the whole run the list only grows: the
    list of every earlier state is a prefix of the list now. *)
Theorem final_record_appends_next_turn
  (d0 : Dispatcher) (history : list JSON) (parsedMsg : JSON) (s : jsstring) :
  ids_below d0 →
  get parsedMsg "text" = Ok (Some (JStr s)) →
  forallb is_WhiteSpace s = false →
  get parsedMsg "is_final" = Ok (Some (JBool true)) →
  let d := dispatch_all history d0 in
  ∃ m : IMessageListItem,
    handleTenMessage parsedMsg d =
      Ok {| messageList := messageList d ++ [m];
            currentInProgressMessage := None;
            turnIdCounter := (turnIdCounter d + 1)%N |} ∧
    turn_id m = turnIdCounter d ∧ text m = s ∧ status m = 1%N ∧
    (∀ (k : nat) (m' : IMessageListItem),
       held (dispatch_all (take k history) d0) m' → (turn_id m' < turn_id m)%N) ∧
    (∀ k : nat,
       messageList (dispatch_all (take k history) d0) `prefix_of` messageList d).
Proof.
  intros Hd0 Htext Hs Hfinal d.
  destruct (get_Some_object _ _ _ Htext) as [props ->].
  simpl in Htext, Hfinal.
  injection Htext as Htext. injection Hfinal as Hfinal.
  pose proof (trim_not_whitespace_only s Hs) as Htrim.
  assert (s ≠ []) as Hne by (intros ->; discriminate).
  unfold handleTenMessage. simpl. rewrite Htext, Hfinal. simpl.
  rewrite (bool_decide_eq_false_2 _ Hne). simpl.
  destruct (length (trim s) =? 0)%nat eqn:Hlen.
  { apply Nat.eqb_eq in Hlen. destruct (trim s); [congruence|discriminate]. }
  eexists. split; [reflexivity|]. simpl.
  split; [reflexivity|]. split; [reflexivity|]. split; [reflexivity|]. split.
  - intros k m' Hheld.
    apply (dispatch_all_ids_below (take k history) d0 Hd0) in Hheld.
    eapply N.lt_le_trans; [exact Hheld|].
    subst d. rewrite <- (take_drop k history) at 2.
    rewrite dispatch_all_app. apply dispatch_all_counter_mono.
  - intros k. subst d. rewrite <- (take_drop k history) at 2.
    rewrite dispatch_all_app. apply dispatch_all_prefix.
Qed.

(** C8.  A record whose text is empty or has only white space leaves the
    dispatcher as it was: the list, the slot and the counter. *)
Theorem blank_text_is_noop (parsedMsg : JSON) (s : jsstring) (d : Dispatcher) :
  get parsedMsg "text" = Ok (Some (JStr s)) →
  forallb is_WhiteSpace s = true →
  handleTenMessage parsedMsg d = Ok d.
Proof.
  intros Htext Hs.
  destruct (get_Some_object _ _ _ Htext) as [props ->].
  simpl in Htext. injection Htext as Htext.
  unfold handleTenMessage. simpl. rewrite Htext. simpl.
  destruct (bool_decide (s = [])); simpl; [reflexivity|].
  now rewrite (trim_whitespace_only s Hs).
Qed.

(** ** Voice activity *)

Section VoiceActivityProperties.
Local Open Scope Q_scope.

Lemma is_zero_spec (v : Q) : is_zero v = true ↔ v == 0.
Proof. apply Qeq_bool_iff. Qed.

Lemma is_positive_spec (v : Q) : is_positive v = true ↔ 0 < v.
Proof.
  unfold is_positive. rewrite negb_true_iff, <- not_true_iff_false, Qle_bool_iff.
  split; [apply Qnot_le_lt|apply Qlt_not_le].
Qed.

Lemma forallb_is_zero (w : list Q) :
  forallb is_zero w = true ↔ Forall (fun x => x == 0) w.
Proof.
  induction w as [|a w IH]; simpl.
  - split; [constructor|reflexivity].
  - rewrite andb_true_iff, Forall_cons, IH, is_zero_spec. reflexivity.
Qed.

Lemma existsb_is_positive (w : list Q) :
  existsb is_positive w = true ↔ Exists (fun x => 0 < x) w.
Proof.
  induction w as [|a w IH]; simpl.
  - split; [discriminate|intros H; inversion H].
  - rewrite orb_true_iff, Exists_cons, IH, is_positive_spec. reflexivity.
Qed.

Lemma push_volume_last (vs : list Q) (v : Q) : last (push_volume vs v) = Some v.
Proof.
  unfold push_volume.
  destruct (3 <? length (vs ++ [v]))%nat eqn:Hlen; [|apply last_snoc].
  destruct vs as [|a vs]; [discriminate|]. simpl. apply last_snoc.
Qed.

(** The reading before the newest stays in the window. *)
Lemma push_volume_keeps_last (vs : list Q) (x v : Q) :
  last vs = Some x → x ∈ push_volume vs v.
Proof.
  intros Hlast. apply last_Some in Hlast as [vs0 ->].
  unfold push_volume.
  destruct (3 <? length ((vs0 ++ [x]) ++ [v]))%nat eqn:Hlen.
  - destruct vs0 as [|a vs0]; [discriminate|]. simpl.
    rewrite !elem_of_app, !list_elem_of_singleton. tauto.
  - rewrite !elem_of_app, !list_elem_of_singleton. tauto.
Qed.

Lemma volume_check_speaking (v : Q) (s : VoiceActivity) :
  isAgentSpeaking s = true →
  let w := push_volume (volumes s) v in
  volume_check v s =
    if (2 <=? length w)%nat && forallb is_zero w
    then {| volumes := []; isAgentSpeaking := false |}
    else {| volumes := w; isAgentSpeaking := true |}.
Proof.
  intros Hs w. unfold volume_check. fold w. rewrite Hs, !andb_true_r.
  simpl. rewrite andb_false_r. reflexivity.
Qed.

Lemma volume_check_listening (v : Q) (s : VoiceActivity) :
  isAgentSpeaking s = false →
  let w := push_volume (volumes s) v in
  volume_check v s =
    if (2 <=? length w)%nat && existsb is_positive w
    then {| volumes := []; isAgentSpeaking := true |}
    else {| volumes := w; isAgentSpeaking := false |}.
Proof.
  intros Hs w. unfold volume_check. fold w. rewrite Hs, !andb_false_r, !andb_true_r.
  reflexivity.
Qed.

(** While speaking, a window that holds a reading other than zero keeps the
    state and becomes the new window. *)
Lemma speaking_kept (v x : Q) (s : VoiceActivity) :
  isAgentSpeaking s = true →
  x ∈ push_volume (volumes s) v → ¬ x == 0 →
  volume_check v s =
    {| volumes := push_volume (volumes s) v; isAgentSpeaking := true |}.
Proof.
  intros Hs Hin Hx. rewrite (volume_check_speaking v s Hs).
  destruct (forallb is_zero (push_volume (volumes s) v)) eqn:Hall.
  - apply forallb_is_zero in Hall. rewrite Forall_forall in Hall.
    now specialize (Hall _ Hin).
  - now rewrite andb_false_r.
Qed.

(** C2.  One run of the volume check in state [s] with the reading [v];
    [w] is the window after the push.
    - While speaking, the state becomes listening exactly when [w] has at
      least two readings and all are zero.
    - While listening, the state becomes speaking exactly when [w] has at
      least two readings and one is positive.
    - A single zero reading between readings that are not zero never ends
      speaking: neither the zero nor the reading after it does.
    - A single positive reading does start speaking as soon as the window
      has a reading before it, whatever that reading is. *)
Theorem hysteresis_transitions (s : VoiceActivity) (v : Q) :
  let w := push_volume (volumes s) v in
  (isAgentSpeaking s = true →
     (isAgentSpeaking (volume_check v s) = false ↔
      (2 <= length w)%nat ∧ Forall (fun x => x == 0) w)) ∧
  (isAgentSpeaking s = false →
     (isAgentSpeaking (volume_check v s) = true ↔
      (2 <= length w)%nat ∧ Exists (fun x => 0 < x) w)) ∧
  (∀ x y : Q,
     isAgentSpeaking s = true → v == 0 →
     volumes s = [] ∨ last (volumes s) = Some x → ¬ x == 0 → ¬ y == 0 →
     isAgentSpeaking (volume_check v s) = true ∧
     isAgentSpeaking (volume_check y (volume_check v s)) = true) ∧
  (isAgentSpeaking s = false → volumes s ≠ [] → 0 < v →
   isAgentSpeaking (volume_check v s) = true).
Proof.
  intros w. split; [|split; [|split]].
  - intros Hs. rewrite (volume_check_speaking v s Hs). fold w.
    rewrite <- forallb_is_zero, <- Nat.leb_le.
    destruct (2 <=? length w)%nat, (forallb is_zero w); simpl;
      intuition congruence.
  - intros Hs. rewrite (volume_check_listening v s Hs). fold w.
    rewrite <- existsb_is_positive, <- Nat.leb_le.
    destruct (2 <=? length w)%nat, (existsb is_positive w); simpl;
      intuition congruence.
  - intros x y Hs Hv Hw Hx Hy.
    assert (volume_check v s = {| volumes := w; isAgentSpeaking := true |})
      as ->.
    { destruct Hw as [Hnil|Hlast].
      - rewrite (volume_check_speaking v s Hs). subst w. now rewrite Hnil.
      - exact (speaking_kept v x s Hs (push_volume_keeps_last _ _ _ Hlast) Hx). }
    split; [reflexivity|].
    rewrite (speaking_kept y y {| volumes := w; isAgentSpeaking := true |} eq_refl);
      [reflexivity| |exact Hy].
    apply last_Some_elem_of, push_volume_last.
  - intros Hs Hne Hv. rewrite (volume_check_listening v s Hs). fold w.
    assert ((2 <=? length w)%nat = true) as ->.
    { apply Nat.leb_le. subst w. unfold push_volume.
      destruct (volumes s) as [|a [|b l]]; [congruence|simpl; lia|].
      destruct (3 <? length ((a :: b :: l) ++ [v]))%nat; simpl;
        rewrite ?length_app; simpl; lia. }
    assert (existsb is_positive w = true) as ->; [|reflexivity].
    apply existsb_is_positive, Exists_exists. exists v. split; [|exact Hv].
    apply last_Some_elem_of, push_volume_last.
Qed.

End VoiceActivityProperties.

(** ** Doubles *)

Section DoubleProperties.
Local Open Scope Q_scope.

(** *** Powers of two *)

Lemma pow2_pos (e : Z) : 0 < 2 ^ e.
Proof. apply Qpower_0_lt. reflexivity. Qed.

Lemma pow2_plus (a b : Z) : 2 ^ (a + b) == 2 ^ a * 2 ^ b.
Proof. apply Qpower_plus. discriminate. Qed.

Lemma pow2_minus (a b : Z) : 2 ^ (a - b) == 2 ^ a / 2 ^ b.
Proof. apply Qpower_minus. discriminate. Qed.

Lemma pow2_le (a b : Z) : (a <= b)%Z → 2 ^ a <= 2 ^ b.
Proof. intros H. apply Qpower_le_compat_l; [exact H|]. discriminate. Qed.

Lemma pow2_lt (a b : Z) : (a < b)%Z → 2 ^ a < 2 ^ b.
Proof. intros H. apply Qpower_lt_compat_l; [exact H|]. reflexivity. Qed.

Lemma pow2_lt_inv (a b : Z) : 2 ^ a < 2 ^ b → (a < b)%Z.
Proof. intros H. apply (Qpower_lt_compat_l_inv 2); [exact H|]. reflexivity. Qed.

Lemma pow2_inject (n : Z) : (0 <= n)%Z → inject_Z (2 ^ n) == 2 ^ n.
Proof. intros H. now rewrite Zpower_Qpower. Qed.

Lemma pow2_half (e : Z) : 2 ^ (e - 1) == 2 ^ e * (1 # 2).
Proof. rewrite pow2_minus. change (2 ^ 1) with 2. field. Qed.

(** *** The binary logarithm *)

Lemma ilog2_spec (x : Q) : 0 < x → 2 ^ ilog2 x <= x ∧ x < 2 ^ (ilog2 x + 1).
Proof.
  intros Hx. unfold ilog2.
  destruct x as [n d]. simpl Qnum. simpl Qden.
  assert (0 < n)%Z as Hn by (unfold Qlt in Hx; simpl in Hx; lia).
  set (a := Z.log2 n). set (b := Z.log2 (Z.pos d)).
  destruct (Z.log2_spec n Hn) as [Ha1 Ha2]. fold a in Ha1, Ha2.
  destruct (Z.log2_spec (Z.pos d) eq_refl) as [Hb1 Hb2]. fold b in Hb1, Hb2.
  assert (0 <= a)%Z as Ha0 by apply Z.log2_nonneg.
  assert (0 <= b)%Z as Hb0 by apply Z.log2_nonneg.
  assert (n # d == inject_Z n / inject_Z (Z.pos d)) as Hq by apply Qmake_Qdiv.
  assert (0 < inject_Z (Z.pos d)) as Hd by reflexivity.
  assert (2 ^ a <= inject_Z n) as Ha1q
    by (rewrite <- pow2_inject by exact Ha0; now rewrite <- Zle_Qle).
  assert (inject_Z n < 2 ^ (a + 1)) as Ha2q.
  { rewrite <- pow2_inject by lia. rewrite <- Zlt_Qlt.
    now replace (a + 1)%Z with (Z.succ a) by lia. }
  assert (2 ^ b <= inject_Z (Z.pos d)) as Hb1q
    by (rewrite <- pow2_inject by exact Hb0; now rewrite <- Zle_Qle).
  assert (inject_Z (Z.pos d) < 2 ^ (b + 1)) as Hb2q.
  { rewrite <- pow2_inject by lia. rewrite <- Zlt_Qlt.
    now replace (b + 1)%Z with (Z.succ b) by lia. }
  assert (n # d < 2 ^ (a - b + 1)) as Hupper.
  { rewrite Hq. apply Qlt_shift_div_r; [exact Hd|].
    assert (2 ^ (a + 1) == 2 ^ (a - b + 1) * 2 ^ b) as Hsplit
      by (rewrite <- pow2_plus; now replace (a - b + 1 + b)%Z with (a + 1)%Z by lia).
    pose proof (pow2_pos (a - b + 1)) as Hp.
    rewrite Hsplit in Ha2q.
    apply Qlt_le_trans with (2 ^ (a - b + 1) * 2 ^ b); [exact Ha2q|].
    apply Qmult_le_l; assumption. }
  assert (2 ^ (a - b - 1) < n # d) as Hlower.
  { rewrite Hq. apply Qlt_shift_div_l; [exact Hd|].
    assert (2 ^ a == 2 ^ (a - b - 1) * 2 ^ (b + 1)) as Hsplit
      by (rewrite <- pow2_plus; now replace (a - b - 1 + (b + 1))%Z with a by lia).
    pose proof (pow2_pos (a - b - 1)) as Hp.
    rewrite Hsplit in Ha1q.
    apply Qlt_le_trans with (2 ^ (a - b - 1) * 2 ^ (b + 1)); [|exact Ha1q].
    apply Qmult_lt_l; assumption. }
  destruct (Qle_bool (2 ^ (a - b)) (n # d)) eqn:Hcmp.
  - apply Qle_bool_iff in Hcmp. split; assumption.
  - assert (n # d < 2 ^ (a - b)) as Hlt.
    { apply Qnot_le_lt. intros H. apply Qle_bool_iff in H. congruence. }
    replace (a - b - 1 + 1)%Z with (a - b)%Z by lia.
    split; [now apply Qlt_le_weak|exact Hlt].
Qed.

Lemma ilog2_unique (x : Q) (k : Z) :
  2 ^ k <= x → x < 2 ^ (k + 1) → ilog2 x = k.
Proof.
  intros H1 H2.
  assert (0 < x) as Hx by (pose proof (pow2_pos k); lra).
  destruct (ilog2_spec x Hx) as [H3 H4].
  assert (2 ^ k < 2 ^ (ilog2 x + 1)) as Ha by lra.
  assert (2 ^ ilog2 x < 2 ^ (k + 1)) as Hb by lra.
  apply pow2_lt_inv in Ha, Hb. lia.
Qed.

Lemma ilog2_mono (x y : Q) : 0 < x → x <= y → (ilog2 x <= ilog2 y)%Z.
Proof.
  intros Hx Hxy.
  destruct (ilog2_spec x Hx) as [H1 _].
  destruct (ilog2_spec y) as [_ H2]; [lra|].
  assert (2 ^ ilog2 x < 2 ^ (ilog2 y + 1)) as H by lra.
  apply pow2_lt_inv in H. lia.
Qed.

(** *** Rounding to an integer *)

Lemma round_half_even_bounds (q : Q) :
  q - (1 # 2) <= inject_Z (round_half_even q) ∧
  inject_Z (round_half_even q) <= q + (1 # 2).
Proof.
  unfold round_half_even.
  pose proof (Qfloor_le q) as Hf1. pose proof (Qlt_floor q) as Hf2.
  rewrite inject_Z_plus in Hf2. change (inject_Z 1) with 1 in Hf2.
  destruct (Qcompare_spec (q - inject_Z (Qfloor q)) (1 # 2)) as [H|H|H].
  - destruct (Z.even (Qfloor q)); [split; lra|].
    rewrite inject_Z_plus. change (inject_Z 1) with 1. split; lra.
  - split; lra.
  - rewrite inject_Z_plus. change (inject_Z 1) with 1. split; lra.
Qed.

Lemma round_half_even_comp (q q' : Q) :
  q == q' → round_half_even q = round_half_even q'.
Proof.
  intros H. unfold round_half_even. rewrite (Qfloor_comp _ _ H).
  assert (q - inject_Z (Qfloor q') == q' - inject_Z (Qfloor q')) as Hr
    by (rewrite H; reflexivity).
  now rewrite (Qcompare_comp _ _ Hr _ _ (Qeq_refl (1 # 2))).
Qed.

Lemma round_half_even_Z (n : Z) : round_half_even (inject_Z n) = n.
Proof.
  unfold round_half_even. rewrite Qfloor_Z.
  destruct (Qcompare_spec (inject_Z n - inject_Z n) (1 # 2)) as [H|H|H];
    [lra|reflexivity|lra].
Qed.

Lemma round_half_even_tie (n : Z) :
  Z.even n = true → round_half_even (inject_Z n + (1 # 2)) = n.
Proof.
  intros Hn. unfold round_half_even.
  assert (Qfloor (inject_Z n + (1 # 2)) = n) as ->.
  { pose proof (Qfloor_le (inject_Z n + (1 # 2))) as H1.
    pose proof (Qlt_floor (inject_Z n + (1 # 2))) as H2.
    assert (inject_Z (Qfloor (inject_Z n + (1 # 2))) < inject_Z (n + 1)) as Ha
      by (rewrite inject_Z_plus; change (inject_Z 1) with 1; lra).
    assert (inject_Z n < inject_Z (Qfloor (inject_Z n + (1 # 2)) + 1)) as Hb by lra.
    rewrite <- Zlt_Qlt in Ha, Hb. lia. }
  destruct (Qcompare_spec (inject_Z n + (1 # 2) - inject_Z n) (1 # 2)) as [H|H|H];
    [now rewrite Hn|lra|lra].
Qed.

Lemma round_half_even_mono (q q' : Q) :
  q <= q' → (round_half_even q <= round_half_even q')%Z.
Proof.
  intros H. pose proof (Qfloor_resp_le _ _ H) as Hf.
  unfold round_half_even.
  destruct (Z.eq_dec (Qfloor q) (Qfloor q')) as [Heq|Hne].
  - rewrite <- Heq.
    destruct (Qcompare_spec (q - inject_Z (Qfloor q)) (1 # 2)) as [H1|H1|H1];
      destruct (Qcompare_spec (q' - inject_Z (Qfloor q)) (1 # 2)) as [H2|H2|H2];
      try lra; destruct (Z.even (Qfloor q)); lia.
  - assert (Qfloor q + 1 <= Qfloor q')%Z by lia.
    destruct (Qcompare (q - inject_Z (Qfloor q)) (1 # 2));
      destruct (Qcompare (q' - inject_Z (Qfloor q')) (1 # 2));
      destruct (Z.even (Qfloor q)); destruct (Z.even (Qfloor q')); lia.
Qed.

(** *** Rounding to a double *)

Lemma double_exponent_spec (x : Q) :
  0 < x →
  (-1074 <= double_exponent x)%Z ∧
  0 <= x / 2 ^ double_exponent x ∧
  x / 2 ^ double_exponent x < 2 ^ 53 ∧
  ((-1074 < double_exponent x)%Z → 2 ^ 52 <= x / 2 ^ double_exponent x).
Proof.
  intros Hx. destruct (ilog2_spec x Hx) as [H1 H2].
  unfold double_exponent. set (k := ilog2 x) in *.
  set (e := Z.max (k - 52) (-1074)).
  pose proof (pow2_pos e) as He.
  split; [lia|]. split; [apply Qle_shift_div_l; [exact He|lra]|]. split.
  - apply Qlt_shift_div_r; [exact He|]. rewrite <- pow2_plus.
    apply Qlt_le_trans with (2 ^ (k + 1)); [exact H2|]. apply pow2_le. lia.
  - intros Hnormal. apply Qle_shift_div_l; [exact He|]. rewrite <- pow2_plus.
    apply Qle_trans with (2 ^ k); [|exact H1]. apply pow2_le. lia.
Qed.

Lemma double_above_zero_mantissa (x : Q) :
  0 < x →
  (0 <= round_half_even (x / 2 ^ double_exponent x) <= 2 ^ 53)%Z ∧
  ((-1074 < double_exponent x)%Z →
   (2 ^ 52 <= round_half_even (x / 2 ^ double_exponent x))%Z).
Proof.
  intros Hx. destruct (double_exponent_spec x Hx) as (_ & H0 & H53 & H52).
  split; [split|].
  - rewrite <- (round_half_even_Z 0). now apply round_half_even_mono.
  - rewrite <- (round_half_even_Z (2 ^ 53)). apply round_half_even_mono.
    rewrite pow2_inject by lia. now apply Qlt_le_weak.
  - intros Hn. rewrite <- (round_half_even_Z (2 ^ 52)). apply round_half_even_mono.
    rewrite pow2_inject by lia. now apply H52.
Qed.

Lemma double_above_zero_nonneg (x : Q) : 0 < x → 0 <= double_above_zero x.
Proof.
  intros Hx. destruct (double_above_zero_mantissa x Hx) as [[H0 _] _].
  unfold double_above_zero. pose proof (pow2_pos (double_exponent x)).
  apply Qmult_le_0_compat; [|lra]. now rewrite <- (Zle_Qle 0).
Qed.

Lemma double_above_zero_mono (x y : Q) :
  0 < x → x <= y → double_above_zero x <= double_above_zero y.
Proof.
  intros Hx Hxy. assert (0 < y) as Hy by lra.
  assert (double_exponent x <= double_exponent y)%Z as He.
  { unfold double_exponent. pose proof (ilog2_mono x y Hx Hxy). lia. }
  unfold double_above_zero.
  destruct (Z.eq_dec (double_exponent x) (double_exponent y)) as [Heq|Hne].
  - rewrite <- Heq. pose proof (pow2_pos (double_exponent x)) as Hp.
    apply Qmult_le_compat_r; [|lra]. rewrite <- Zle_Qle.
    apply round_half_even_mono. apply Qmult_le_compat_r; [exact Hxy|].
    apply Qlt_le_weak, Qinv_lt_0_compat, Hp.
  - destruct (double_above_zero_mantissa x Hx) as [[_ Hmx] _].
    destruct (double_above_zero_mantissa y Hy) as [_ Hmy].
    destruct (double_exponent_spec y Hy) as (Hge & _).
    destruct (double_exponent_spec x Hx) as (Hgex & _).
    specialize (Hmy ltac:(lia)).
    set (ex := double_exponent x) in *. set (ey := double_exponent y) in *.
    set (mx := round_half_even (x / 2 ^ ex)) in *.
    set (my := round_half_even (y / 2 ^ ey)) in *.
    apply Qle_trans with (2 ^ 53 * 2 ^ ex).
    + apply Qmult_le_compat_r; [|apply Qlt_le_weak, pow2_pos].
      rewrite <- pow2_inject by lia. now rewrite <- Zle_Qle.
    + apply Qle_trans with (2 ^ 52 * 2 ^ ey).
      * rewrite <- !pow2_plus. apply pow2_le. lia.
      * apply Qmult_le_compat_r; [|apply Qlt_le_weak, pow2_pos].
        rewrite <- pow2_inject by lia. now rewrite <- Zle_Qle.
Qed.

Lemma double_nonneg (x : Q) : 0 <= x → 0 <= double x.
Proof.
  intros Hx. unfold double.
  destruct (Qcompare_spec x 0) as [H|H|H]; [lra|lra|].
  now apply double_above_zero_nonneg.
Qed.

Lemma double_nonpos (x : Q) : x <= 0 → double x <= 0.
Proof.
  intros Hx. unfold double.
  destruct (Qcompare_spec x 0) as [H|H|H]; [lra| |lra].
  pose proof (double_above_zero_nonneg (- x)). lra.
Qed.

Lemma double_mono (x y : Q) : x <= y → double x <= double y.
Proof.
  intros Hxy. unfold double.
  destruct (Qcompare_spec x 0) as [Hx|Hx|Hx];
    destruct (Qcompare_spec y 0) as [Hy|Hy|Hy]; try lra.
  - now apply double_above_zero_nonneg.
  - pose proof (double_above_zero_nonneg (- x)). lra.
  - pose proof (double_above_zero_mono (- y) (- x)). lra.
  - pose proof (double_above_zero_nonneg (- x)).
    pose proof (double_above_zero_nonneg y). lra.
  - now apply double_above_zero_mono.
Qed.

Lemma double_comp (x y : Q) : x == y → double x == double y.
Proof.
  intros H. apply Qle_antisym; apply double_mono; lra.
Qed.

#[global] Instance double_Proper : Proper (Qeq ==> Qeq) double.
Proof. intros x y. apply double_comp. Qed.

(** The doubles: any [m * 2^e] with [m] below 2^53 and [e] from -1074. *)
Lemma double_fixed (m e : Z) :
  (0 <= m < 2 ^ 53)%Z → (-1074 <= e)%Z →
  is_double (inject_Z m * 2 ^ e).
Proof.
  intros [Hm0 Hm] He. unfold is_double.
  destruct (Z.eq_dec m 0%Z) as [->|Hne].
  - rewrite (double_comp (inject_Z 0 * 2 ^ e) 0) by ring. reflexivity.
  - assert (0 < m)%Z as Hpos by lia.
    set (y := inject_Z m * 2 ^ e).
    assert (0 < y) as Hy.
    { subst y. apply Qmult_lt_0_compat; [|apply pow2_pos].
      now rewrite <- (Zlt_Qlt 0). }
    set (L := Z.log2 m).
    destruct (Z.log2_spec m Hpos) as [HL1 HL2]. fold L in HL1, HL2.
    assert (0 <= L)%Z as HL0 by apply Z.log2_nonneg.
    assert (L < 53)%Z as HL53.
    { apply Z.log2_lt_pow2; [exact Hpos|exact Hm]. }
    assert (ilog2 y = (L + e)%Z) as Hil.
    { apply ilog2_unique; subst y.
      - rewrite pow2_plus. apply Qmult_le_compat_r; [|apply Qlt_le_weak, pow2_pos].
        rewrite <- pow2_inject by exact HL0. now rewrite <- Zle_Qle.
      - replace (L + e + 1)%Z with ((L + 1) + e)%Z by lia. rewrite pow2_plus.
        apply Qmult_lt_r; [apply pow2_pos|].
        rewrite <- pow2_inject by lia. rewrite <- Zlt_Qlt.
        now replace (L + 1)%Z with (Z.succ L) by lia. }
    unfold double. destruct (Qcompare_spec y 0) as [H|H|_]; [lra|lra|].
    unfold double_above_zero, double_exponent. rewrite Hil.
    set (ey := Z.max (L + e - 52) (-1074)).
    assert (ey <= e)%Z as Hey by lia.
    assert (y / 2 ^ ey == inject_Z (m * 2 ^ (e - ey))) as Hscaled.
    { subst y. rewrite inject_Z_mult, pow2_inject by lia.
      rewrite pow2_minus. field. pose proof (pow2_pos ey). lra. }
    rewrite (round_half_even_comp _ _ Hscaled), round_half_even_Z.
    subst y. rewrite inject_Z_mult, pow2_inject by lia.
    rewrite pow2_minus. field. pose proof (pow2_pos ey). lra.
Qed.

Lemma double_above_zero_comp (x y : Q) :
  0 < x → x == y → double_above_zero x == double_above_zero y.
Proof.
  intros Hx H. apply Qle_antisym; apply double_above_zero_mono; lra.
Qed.

Lemma double_opp (x : Q) : double (- x) == - double x.
Proof.
  unfold double.
  destruct (Qcompare_spec x 0) as [Hx|Hx|Hx];
    destruct (Qcompare_spec (- x) 0) as [Hy|Hy|Hy]; try lra.
  rewrite (double_above_zero_comp (- - x) x); [reflexivity|lra|ring].
Qed.

Lemma double_is_double (x : Q) : is_double (double x).
Proof.
  assert (∀ x, 0 < x → is_double (double_above_zero x)) as Hpos.
  { clear x. intros x Hx.
    destruct (double_above_zero_mantissa x Hx) as [[H0 H53] _].
    destruct (double_exponent_spec x Hx) as (He & _).
    unfold double_above_zero.
    set (m := round_half_even (x / 2 ^ double_exponent x)) in *.
    set (e := double_exponent x) in *.
    destruct (Z.eq_dec m (2 ^ 53)%Z) as [->|Hne].
    - unfold is_double.
      assert (inject_Z (2 ^ 53) * 2 ^ e == inject_Z (2 ^ 52) * 2 ^ (e + 1)) as Heq.
      { rewrite pow2_plus. change (2 ^ 1) with 2.
        change (inject_Z (2 ^ 53)) with (inject_Z (2 ^ 52) * 2). ring. }
      rewrite Heq. apply double_fixed; lia.
    - apply double_fixed; lia. }
  unfold double. destruct (Qcompare_spec x 0) as [H|H|H].
  - unfold is_double, double. reflexivity.
  - assert (0 < - x) as Hx by lra. specialize (Hpos _ Hx).
    unfold is_double in *. now rewrite double_opp, Hpos.
  - now apply Hpos.
Qed.

Lemma double_Z (n : Z) : (0 <= n < 2 ^ 53)%Z → is_double (inject_Z n).
Proof.
  intros Hn. unfold is_double.
  rewrite (double_comp _ (inject_Z n * 2 ^ 0)) by (change (2 ^ 0) with 1; ring).
  assert (is_double (inject_Z n * 2 ^ 0)) as H by (apply double_fixed; lia).
  unfold is_double in H. rewrite H. change (2 ^ 0) with 1. ring.
Qed.

Lemma double_0 : double 0 == 0.
Proof. reflexivity. Qed.

Lemma double_1 : double 1 == 1.
Proof. apply (double_Z 1). lia. Qed.

(** Rounding moves a value below [2^(k+1)] up by at most half a unit in the
    last place of that range. *)
Lemma double_error_above (x : Q) (k : Z) :
  0 < x → x < 2 ^ (k + 1) → (-1074 <= k - 52)%Z →
  double x <= x + 2 ^ (k - 53).
Proof.
  intros Hx Hk Hnormal.
  destruct (ilog2_spec x Hx) as [H1 _].
  assert (ilog2 x < k + 1)%Z as Hil by (apply pow2_lt_inv; lra).
  unfold double. destruct (Qcompare_spec x 0) as [H|H|_]; [lra|lra|].
  unfold double_above_zero.
  set (e := double_exponent x).
  assert (e <= k - 52)%Z as He by (subst e; unfold double_exponent; lia).
  pose proof (pow2_pos e) as Hp.
  destruct (round_half_even_bounds (x / 2 ^ e)) as [_ Hm].
  apply Qle_trans with ((x / 2 ^ e + (1 # 2)) * 2 ^ e).
  - apply Qmult_le_compat_r; [exact Hm|lra].
  - assert ((x / 2 ^ e + (1 # 2)) * 2 ^ e == x + 2 ^ (e - 1)) as ->
      by (rewrite pow2_half; field; lra).
    assert (2 ^ (e - 1) <= 2 ^ (k - 53)) by (apply pow2_le; lia). lra.
Qed.

(** Halfway between the integer [b] and the next double, the even one of
    the two is [b]. *)
Lemma double_tie (b : Z) :
  (0 < b < 2 ^ 52)%Z →
  double (inject_Z b + 2 ^ (Z.log2 b - 53)) == inject_Z b.
Proof.
  intros [Hb0 Hb].
  set (k := Z.log2 b).
  destruct (Z.log2_spec b Hb0) as [Hk1 Hk2]. fold k in Hk1, Hk2.
  assert (0 <= k)%Z as Hk0 by apply Z.log2_nonneg.
  assert (k < 52)%Z as Hk52 by (apply Z.log2_lt_pow2; assumption).
  set (M := inject_Z b + 2 ^ (k - 53)).
  pose proof (pow2_pos (k - 53)) as Hp.
  assert (2 ^ (k - 53) < 1) as Hsmall
    by (change 1 with (2 ^ 0); apply pow2_lt; lia).
  assert (0 < inject_Z b) as Hbq by now rewrite <- (Zlt_Qlt 0).
  assert (0 < M) as HM by (subst M; lra).
  assert (ilog2 M = k) as Hil.
  { apply ilog2_unique; subst M.
    - rewrite <- (pow2_inject k Hk0).
      assert (inject_Z (2 ^ k) <= inject_Z b) by now rewrite <- Zle_Qle. lra.
    - rewrite <- (pow2_inject (k + 1)) by lia.
      assert (inject_Z (b + 1) <= inject_Z (2 ^ (k + 1))) as H.
      { rewrite <- Zle_Qle. replace (k + 1)%Z with (Z.succ k) by lia. lia. }
      rewrite inject_Z_plus in H. change (inject_Z 1) with 1 in H. lra. }
  unfold double. destruct (Qcompare_spec M 0) as [H|H|_]; [lra|lra|].
  unfold double_above_zero, double_exponent. rewrite Hil.
  replace (Z.max (k - 52) (-1074)) with (k - 52)%Z by lia.
  pose proof (pow2_pos (k - 52)) as Hp2.
  assert (2 ^ (k - 53) == 2 ^ (k - 52) * (1 # 2)) as Hhalf
    by (rewrite <- pow2_half; now replace (k - 52 - 1)%Z with (k - 53)%Z by lia).
  assert (inject_Z (b * 2 ^ (52 - k)) == inject_Z b / 2 ^ (k - 52)) as Hint.
  { rewrite inject_Z_mult, pow2_inject by lia.
    assert (2 ^ (52 - k) * 2 ^ (k - 52) == 1) as Hinv.
    { rewrite <- pow2_plus. now replace (52 - k + (k - 52))%Z with 0%Z by lia. }
    apply (Qmult_inj_r _ _ (2 ^ (k - 52))); [lra|].
    rewrite <- Qmult_assoc, Hinv. field. lra. }
  assert (M / 2 ^ (k - 52) == inject_Z (b * 2 ^ (52 - k)) + (1 # 2)) as Hscaled.
  { subst M. rewrite Hint, Hhalf. field. lra. }
  rewrite (round_half_even_comp _ _ Hscaled).
  rewrite round_half_even_tie.
  - rewrite Hint. field. lra.
  - rewrite Z.even_mul. apply orb_true_iff. right.
    replace (52 - k)%Z with (Z.succ (52 - k - 1)) by lia.
    rewrite Z.pow_succ_r by lia. rewrite Z.even_mul. reflexivity.
Qed.

(** The step of the attack: [c + (T - c) * a] in doubles stays at or below
    any integer bound of [T]. *)
Lemma double_step_bound (c T a : Q) (b : Z) :
  0 <= c → c < T → T <= inject_Z b → (b < 2 ^ 52)%Z →
  0 <= a → a <= 1 →
  double (c + double (double (T - c) * a)) <= inject_Z b.
Proof.
  intros Hc HcT HT Hb Ha0 Ha1.
  assert (0 < inject_Z b) as Hbq by lra.
  assert (0 < b)%Z as Hb0 by now rewrite (Zlt_Qlt 0).
  set (k := Z.log2 b).
  destruct (Z.log2_spec b Hb0) as [Hk1 Hk2]. fold k in Hk1, Hk2.
  assert (0 <= k)%Z as Hk0 by apply Z.log2_nonneg.
  assert (inject_Z b < 2 ^ (k + 1)) as Hbk.
  { rewrite <- pow2_inject by lia. rewrite <- Zlt_Qlt.
    now replace (k + 1)%Z with (Z.succ k) by lia. }
  pose proof (double_error_above (T - c) k ltac:(lra) ltac:(lra) ltac:(lia)) as Herr.
  pose proof (double_nonneg (T - c) ltac:(lra)) as Hd0.
  set (d := double (T - c)) in *.
  assert (double (d * a) <= d) as Hp.
  { pose proof (double_is_double (T - c)) as Hfix. fold d in Hfix.
    unfold is_double in Hfix. rewrite <- Hfix at 2. apply double_mono. nra. }
  rewrite <- (double_tie b) by lia. fold k.
  apply double_mono. lra.
Qed.

(** A value above zero that rounds to zero is at most 2^-1075. *)
Lemma double_zero_inv (x : Q) : 0 < x → double x == 0 → x <= 2 ^ (-1075).
Proof.
  intros Hx H0. unfold double in H0.
  destruct (Qcompare_spec x 0) as [H|H|_]; [lra|lra|].
  unfold double_above_zero in H0.
  destruct (double_exponent_spec x Hx) as (He & _ & _ & Hnormal).
  set (e := double_exponent x) in *.
  pose proof (pow2_pos e) as Hp.
  destruct (round_half_even_bounds (x / 2 ^ e)) as [Hm _].
  assert (inject_Z (round_half_even (x / 2 ^ e)) == 0) as Hz.
  { apply Qmult_integral in H0 as [H0|H0]; [exact H0|lra]. }
  rewrite Hz in Hm.
  assert (x / 2 ^ e <= 1 # 2) as Hhalf by lra.
  destruct (Z.eq_dec e (-1074)%Z) as [Heq|Hne].
  - assert (x == x / 2 ^ e * 2 ^ e) as Hx' by (field; lra).
    assert (2 ^ (-1075) == 2 ^ e * (1 # 2)) as Hpow
      by (rewrite <- pow2_half, Heq; reflexivity).
    rewrite Hpow, Hx'. rewrite (Qmult_comm (2 ^ e)).
    apply Qmult_le_compat_r; [exact Hhalf|lra].
  - specialize (Hnormal ltac:(lia)).
    assert (1 <= 2 ^ 52) by discriminate. lra.
Qed.

(** For a double [t] below 1, [1 - t] does not round to zero. *)
Lemma double_one_minus (t : Q) : is_double t → t < 1 → 0 < double (1 - t).
Proof.
  intros Ht Hlt.
  pose proof (double_nonneg (1 - t) ltac:(lra)) as Hnn.
  destruct (Qlt_le_dec 0 (double (1 - t))) as [H|H]; [exact H|].
  assert (double (1 - t) == 0) as Hz by lra.
  apply double_zero_inv in Hz; [|lra].
  assert (double (1 - 2 ^ (-1075)) <= double t) as Hm by (apply double_mono; lra).
  unfold is_double in Ht. rewrite Ht in Hm.
  assert (double (1 - 2 ^ (-1075)) == 1) as Hone by (vm_compute; reflexivity).
  lra.
Qed.

End DoubleProperties.

(** ** Amplitude visualiser *)

Section VisualizerProperties.
Local Open Scope Q_scope.

Variable o : AudioVisualizationOptions.
Hypothesis Hoptions : options_in_range o.

Lemma bars_nonneg : 0 <= bars o.
Proof.
  unfold bars. change 0 with (inject_Z 0). rewrite <- Zle_Qle. lia.
Qed.

Lemma bars_is_double : is_double (bars o).
Proof.
  destruct Hoptions as (_ & _ & _ & _ & _ & _ & Hbars).
  apply double_Z. lia.
Qed.

(** The division of line 130 is by a double above zero. *)
Lemma threshold_divisor_positive : 0 < double (1 - threshold o).
Proof.
  destruct Hoptions as (Hdouble & Hth & _). now apply double_one_minus.
Qed.

Lemma rawVolume_range (average : Q) :
  0 <= rawVolume o average ∧ rawVolume o average <= 1 ∧
  is_double (rawVolume o average).
Proof.
  destruct Hoptions as (_ & Hth & _).
  pose proof threshold_divisor_positive as Hdiv.
  unfold rawVolume.
  set (raw := amplifiedVolume o average).
  assert (raw <= 1) as Hraw by apply Q.le_min_l.
  destruct (Qlt_le_dec raw (threshold o)) as [Hlow|Hhigh].
  - split; [lra|]. split; [lra|]. unfold is_double. reflexivity.
  - pose proof (double_nonneg (raw - threshold o) ltac:(lra)) as Hn0.
    pose proof (double_mono (raw - threshold o) (1 - threshold o) ltac:(lra))
      as Hn1.
    split; [|split; [|apply double_is_double]].
    + apply double_nonneg. apply Qle_shift_div_l; lra.
    + apply Qle_trans with (double 1); [|rewrite double_1; lra].
      apply double_mono. apply Qle_shift_div_r; lra.
Qed.

Lemma smooth_range (raw previous : Q) :
  0 <= raw → raw <= 1 → is_double raw →
  0 <= previous → previous <= 1 → is_double previous →
  0 <= smooth o raw previous ∧ smooth o raw previous <= 1 ∧
  is_double (smooth o raw previous).
Proof.
  destruct Hoptions as (_ & _ & Hd0 & Hd1 & _).
  intros Hr0 Hr1 Hr Hp0 Hp1 Hp. unfold smooth.
  destruct (Qlt_le_dec previous raw); [repeat split; assumption|].
  split; [apply double_nonneg; nra|]. split; [|apply double_is_double].
  unfold is_double in Hp.
  apply Qle_trans with (double previous); [apply double_mono; nra|lra].
Qed.

Lemma targetLitCount_range (smoothed : Q) :
  0 <= smoothed → smoothed <= 1 →
  0 <= targetLitCount o smoothed ∧ targetLitCount o smoothed <= bars o.
Proof.
  intros H0 H1. pose proof bars_nonneg as Hb. pose proof bars_is_double as Hfix.
  unfold targetLitCount. fold (bars o). split.
  - apply double_nonneg. nra.
  - unfold is_double in Hfix. rewrite <- Hfix at 2. apply double_mono. nra.
Qed.

(** The attack branch: the count does not fall, and stays within the
    bars.  (It can pass the target by the last bit of a double.) *)
Lemma newLitCount_attack (target current : Q) :
  is_double current → 0 <= current → current < target → target <= bars o →
  current <= newLitCount o target current ∧
  newLitCount o target current <= bars o.
Proof.
  destruct Hoptions as (_ & _ & _ & _ & Ha0 & Ha1 & Hbars).
  intros Hfix H0 Hlt Htarget. unfold newLitCount.
  destruct (Qlt_le_dec current target) as [_|Hle]; [|lra]. split.
  - unfold is_double in Hfix. rewrite <- Hfix at 1. apply double_mono.
    pose proof (double_nonneg (target - current) ltac:(lra)) as Hd.
    pose proof (double_nonneg (double (target - current) * attackRate o)
                  ltac:(nra)).
    lra.
  - apply double_step_bound; try assumption. lia.
Qed.

(** The decay branch, which is also taken when the target equals the
    count. *)
Lemma newLitCount_decay (target current : Q) :
  is_double current → target <= current → 0 <= current →
  0 <= newLitCount o target current ∧ newLitCount o target current <= current.
Proof.
  destruct Hoptions as (_ & _ & Hd0 & Hd1 & _).
  intros Hfix Hle H0. unfold newLitCount.
  destruct (Qlt_le_dec current target) as [Hlt|_]; [lra|]. split.
  - apply double_nonneg. nra.
  - unfold is_double in Hfix. rewrite <- Hfix at 2. apply double_mono. nra.
Qed.

Lemma newLitCount_is_double (target current : Q) :
  is_double (newLitCount o target current).
Proof.
  unfold newLitCount. destruct (Qlt_le_dec current target); apply double_is_double.
Qed.

Lemma updateData_in_range (dataArray : list N) (s : Levels) :
  levels_in_range o s → levels_are_doubles s →
  levels_in_range o (updateData o dataArray s) ∧
  levels_are_doubles (updateData o dataArray s).
Proof.
  intros (Hs0 & Hs1 & Hl0 & Hl1) (Hsd & Hld).
  destruct (rawVolume_range (averageVolume dataArray)) as (Hr0 & Hr1 & Hrd).
  destruct (smooth_range _ _ Hr0 Hr1 Hrd Hs0 Hs1 Hsd) as (Hm0 & Hm1 & Hmd).
  destruct (targetLitCount_range _ Hm0 Hm1) as [Ht0 Ht1].
  unfold levels_in_range, levels_are_doubles, updateData. simpl.
  split; [|split; [exact Hmd|apply newLitCount_is_double]].
  split; [exact Hm0|]. split; [exact Hm1|].
  destruct (Qlt_le_dec (currentLitCount s)
              (targetLitCount o
                 (smooth o (rawVolume o (averageVolume dataArray))
                    (smoothedVolume s)))) as [Hlt|Hle].
  - destruct (newLitCount_attack _ _ Hld Hl0 Hlt Ht1). split; lra.
  - destruct (newLitCount_decay _ _ Hld Hle Hl0). split; lra.
Qed.

Lemma updates_in_range (frames : list (list N)) (s : Levels) :
  levels_in_range o s → levels_are_doubles s →
  levels_in_range o (updates o frames s) ∧
  levels_are_doubles (updates o frames s).
Proof.
  revert s. induction frames as [|f frames IH]; intros s Hs Hd; [now split|].
  simpl. destruct (updateData_in_range f s Hs Hd). now apply IH.
Qed.

Lemma levels_init_in_range : levels_in_range o levels_init.
Proof.
  pose proof bars_nonneg.
  unfold levels_in_range, levels_init. simpl. repeat split; lra.
Qed.

Lemma levels_init_are_doubles : levels_are_doubles levels_init.
Proof. split; unfold is_double; reflexivity. Qed.

(** C6.  With the options in their documented ranges and frames of the
    analyser, after any number of ticks from the initial state the lit count
    lies in [0, barCount].  On a tick whose target is strictly above the
    current count (attack) the count does not decrease, and the target is at
    most [barCount]; on a tick whose target is at or below the current count
    (decay, which includes a target equal to the count) the count does not
    increase and does not drop below 0.  All of this is of the doubles the
    hook computes. *)
Theorem litBars_bounded_and_monotone (frames : list (list N)) (dataArray : list N) :
  Forall analyser_frame frames → analyser_frame dataArray →
  let s := updates o frames levels_init in
  let s' := updateData o dataArray s in
  let target := tick_target o dataArray s in
  (0 <= currentLitCount s' ∧ currentLitCount s' <= bars o) ∧
  (currentLitCount s < target →
   currentLitCount s <= currentLitCount s' ∧ target <= bars o) ∧
  (target <= currentLitCount s →
   currentLitCount s' <= currentLitCount s ∧ 0 <= currentLitCount s').
Proof.
  intros _ _ s s' target.
  destruct (updates_in_range frames levels_init levels_init_in_range
              levels_init_are_doubles) as [Hs Hd].
  fold s in Hs, Hd.
  destruct (updateData_in_range dataArray s Hs Hd) as [(_ & _ & Hl0 & Hl1) _].
  fold s' in Hl0, Hl1.
  destruct Hs as (Hs0 & Hs1 & Hc0 & Hc1). destruct Hd as [Hsd Hld].
  destruct (rawVolume_range (averageVolume dataArray)) as (Hr0 & Hr1 & Hrd).
  destruct (smooth_range _ _ Hr0 Hr1 Hrd Hs0 Hs1 Hsd) as (Hm0 & Hm1 & _).
  destruct (targetLitCount_range _ Hm0 Hm1) as [_ Ht1].
  split; [split; assumption|]. split.
  - intros Hlt. destruct (newLitCount_attack _ _ Hld Hc0 Hlt Ht1) as [H1 _].
    split; assumption.
  - intros Hle. destruct (newLitCount_decay _ _ Hld Hle Hc0) as [H1 H2].
    split; assumption.
Qed.

End VisualizerProperties.

(** ** Chunk reassembler: single calls *)

Lemma receive_parsed (c : Client) (t : N) (data : list Byte.byte) (ch : TextDataChunk) :
  parse_chunk data = Some ch → receive c (t, data) = state_of (ingest t ch c).
Proof.
  intros H. unfold receive, handleStreamMessage, handleStreamMessage_body.
  simpl. rewrite H. now destruct (ingest t ch c).
Qed.

Lemma receive_dropped (c : Client) (t : N) (data : list Byte.byte) :
  parse_chunk data = None → receive c (t, data) = c.
Proof.
  intros H. unfold receive, handleStreamMessage, handleStreamMessage_body.
  simpl. now rewrite H.
Qed.

Lemma receive_all_app (c : Client) (l1 l2 : list (N * list Byte.byte)) :
  receive_all c (l1 ++ l2) = receive_all (receive_all c l1) l2.
Proof. unfold receive_all. apply foldl_app. Qed.

Lemma cache_read_absent (cache : gmap string (list TextDataChunk)) (id : string) :
  cache_read cache id = Absent ↔ cache !! id = None ∧ id ∉ Object_prototype_keys.
Proof.
  unfold cache_read. destruct (cache !! id); [split; [discriminate|intros [? _]; discriminate]|].
  case_bool_decide; split; try discriminate; tauto.
Qed.

(** A chunk for an id that has a pending entry. *)
Lemma ingest_pending (now : N) (ch : TextDataChunk) (c : Client)
  (pending : list TextDataChunk) :
  messageCache c !! message_id ch = Some pending →
  ingest now ch c =
    Normal
      (if number_eqb (Num (Z.of_nat (length (pending ++ [ch])))) (total_parts ch)
       then {| messageCache := delete (message_id ch) (messageCache c);
               timers := timers c;
               dispatcher :=
                 try_dispatch (join_contents (sort (pending ++ [ch]))) (dispatcher c) |}
       else {| messageCache := <[message_id ch := pending ++ [ch]]> (messageCache c);
               timers := timers c;
               dispatcher := dispatcher c |}).
Proof.
  intros H. unfold ingest, cache_read. rewrite H. simpl. rewrite H.
  match goal with |- context [number_eqb ?a ?b] => destruct (number_eqb a b) end;
    reflexivity.
Qed.

(** A chunk whose id names a member of [Object.prototype]: [push] is not a
    function of that member, and nothing has changed when the call throws. *)
Lemma ingest_inherited (now : N) (ch : TextDataChunk) (c : Client) :
  cache_read (messageCache c) (message_id ch) = Inherited →
  ingest now ch c = Abrupt "TypeError" c.
Proof. intros H. unfold ingest. now rewrite H, H. Qed.

(** The first chunk of an unseen id: the entry is created, the timer is set,
    and the chunk is the entry's only one; a message of one part is complete
    at once. *)
Lemma ingest_unseen (now : N) (ch : TextDataChunk) (c : Client) :
  cache_read (messageCache c) (message_id ch) = Absent →
  ingest now ch c =
    Normal
      (if number_eqb (Num 1) (total_parts ch)
       then {| messageCache := messageCache c;
               timers := timers c ++
                 [eviction_timer now (message_id ch) (total_parts ch)];
               dispatcher := try_dispatch (join_contents [ch]) (dispatcher c) |}
       else {| messageCache := <[message_id ch := [ch]]> (messageCache c);
               timers := timers c ++
                 [eviction_timer now (message_id ch) (total_parts ch)];
               dispatcher := dispatcher c |}).
Proof.
  intros H. unfold ingest. rewrite H.
  apply cache_read_absent in H as [Hnone _].
  cbn [messageCache timers dispatcher].
  unfold cache_read at 1. rewrite lookup_insert_eq.
  cbn [app length Z.of_nat Pos.of_succ_nat sort sort_insert].
  rewrite insert_insert_eq, (delete_insert_id _ _ _ Hnone).
  change (Z.of_nat 1) with 1%Z.
  destruct (number_eqb (Num 1) (total_parts ch)); reflexivity.
Qed.

(** C9.  A payload whose third field is the token for an unknown number of
    parts leaves the whole state as it was: the cache, the timers and the
    dispatcher.  Hence removing such a payload from any sequence of stream
    messages changes nothing in what the sequence produces. *)
Theorem unknown_total_parts_dropped (now : N) (data : list Byte.byte) :
  split "|" (fromCharCode data) !! 2%nat = Some "???"%string →
  ∀ c : Client,
    handleStreamMessage now data c = Normal c ∧
    ∀ before after : list (N * list Byte.byte),
      receive_all c (before ++ (now, data) :: after) =
      receive_all c (before ++ after).
Proof.
  intros H.
  assert (parse_chunk data = None) as Hdrop.
  { unfold parse_chunk. rewrite H. reflexivity. }
  intros c. split.
  - unfold handleStreamMessage, handleStreamMessage_body. now rewrite Hdrop.
  - intros before after. rewrite !receive_all_app. simpl.
    now rewrite (receive_dropped _ _ _ Hdrop).
Qed.

(** C10.  Whatever bytes arrive, [handleStreamMessage] returns normally.
    And when the chunk completes its message (the entry then holds as many
    chunks as the chunk declares) while decoding, parsing or dispatching the
    reassembled text throws, the entry is removed all the same and the
    dispatcher is as before. *)
Theorem handler_returns_normally (now : N) (data : list Byte.byte) (c : Client) :
  (∃ c' : Client, handleStreamMessage now data c = Normal c') ∧
  ∀ (ch : TextDataChunk) (e : string),
    parse_chunk data = Some ch →
    let id := message_id ch in
    let chunks := default [] (messageCache c !! id) ++ [ch] in
    cache_read (messageCache c) id ≠ Inherited →
    number_eqb (Num (Z.of_nat (length chunks))) (total_parts ch) = true →
    decode_and_dispatch (join_contents (sort chunks)) (dispatcher c) = Throw e →
    ∃ c' : Client,
      handleStreamMessage now data c = Normal c' ∧
      messageCache c' !! id = None ∧
      messageCache c' = delete id (messageCache c) ∧
      dispatcher c' = dispatcher c.
Proof.
  split.
  - unfold handleStreamMessage.
    destruct (handleStreamMessage_body now data c); eauto.
  - intros ch e Hparse id chunks Hread Hfull Hthrow.
    unfold handleStreamMessage, handleStreamMessage_body. rewrite Hparse.
    assert (try_dispatch (join_contents (sort chunks)) (dispatcher c) = dispatcher c)
      as Htry by (unfold try_dispatch; now rewrite Hthrow).
    destruct (messageCache c !! id) as [pending|] eqn:Hlookup.
    + rewrite (ingest_pending now ch c pending Hlookup).
      subst chunks. simpl in Hfull, Htry. rewrite Hfull, Htry.
      eexists. split; [reflexivity|]. simpl.
      split; [apply lookup_delete_eq|]. split; reflexivity.
    + assert (cache_read (messageCache c) id = Absent) as Habs.
      { unfold cache_read in *. rewrite Hlookup in *.
        now case_bool_decide. }
      rewrite (ingest_unseen now ch c Habs).
      subst chunks.
      change (try_dispatch (join_contents [ch]) (dispatcher c) = dispatcher c) in Htry.
      change (number_eqb (Num 1) (total_parts ch) = true) in Hfull.
      rewrite Hfull, Htry.
      eexists. split; [reflexivity|]. simpl.
      split; [exact Hlookup|]. split; [|reflexivity].
      symmetry. now apply delete_id.
Qed.

(** ** Sorting by part index *)

Lemma sort_insert_Permutation (x : TextDataChunk) (l : list TextDataChunk) :
  sort_insert x l ≡ₚ x :: l.
Proof.
  induction l as [|y l IH]; simpl; [reflexivity|].
  destruct (compare_positive x y); [|reflexivity].
  rewrite IH. apply Permutation_swap.
Qed.

Lemma sort_Permutation (l : list TextDataChunk) : sort l ≡ₚ l.
Proof.
  induction l as [|x l IH]; simpl; [reflexivity|].
  now rewrite sort_insert_Permutation, IH.
Qed.

Lemma index_lt_trans (a b c : TextDataChunk) :
  index_lt a b → index_lt b c → index_lt a c.
Proof.
  intros (x & y & Ha & Hb & Hxy) (y' & z & Hb' & Hc & Hyz).
  rewrite Hb in Hb'. injection Hb' as <-.
  exists x, z. repeat split; try assumption. lia.
Qed.

Lemma index_lt_asym (a b : TextDataChunk) : index_lt a b → index_lt b a → a = b.
Proof.
  intros (x & y & Ha & Hb & Hxy) (y' & x' & Hb' & Ha' & Hyx).
  rewrite Hb in Hb'. rewrite Ha in Ha'. injection Hb' as <-. injection Ha' as <-.
  lia.
Qed.

(** Inserting a chunk whose integer index differs from all those of a
    sorted list keeps the list sorted. *)
Lemma sort_insert_sorted (x : TextDataChunk) (l : list TextDataChunk) (p : Z) :
  part_index x = Num p →
  Forall (fun y => ∃ q : Z, part_index y = Num q ∧ q ≠ p) l →
  StronglySorted index_lt l →
  StronglySorted index_lt (sort_insert x l).
Proof.
  intros Hx Hl Hsorted.
  induction l as [|y l IH]; simpl; [repeat constructor|].
  apply Forall_cons in Hl as [(q & Hy & Hne) Hl].
  apply StronglySorted_cons in Hsorted as [Hyl Hsorted].
  unfold compare_positive. rewrite Hx, Hy.
  destruct (0 <? p - q)%Z eqn:Hcmp.
  - apply Z.ltb_lt in Hcmp. apply StronglySorted_cons. split; [|now apply IH].
    rewrite sort_insert_Permutation. apply Forall_cons. split; [|exact Hyl].
    exists q, p. repeat split; try assumption. lia.
  - apply Z.ltb_ge in Hcmp.
    assert (index_lt x y) as Hxy by (exists p, q; repeat split; try assumption; lia).
    apply StronglySorted_cons. split.
    + apply Forall_cons. split; [exact Hxy|].
      eapply Forall_impl; [exact Hyl|]. intros z Hz.
      now apply (index_lt_trans x y z).
    + apply StronglySorted_cons. now split.
Qed.

Lemma sort_sorted (l : list TextDataChunk) :
  Forall (fun ch => ∃ p : Z, part_index ch = Num p) l →
  NoDup (map part_index l) →
  StronglySorted index_lt (sort l).
Proof.
  induction l as [|x l IH]; simpl; intros Hnum Hnodup; [constructor|].
  apply Forall_cons in Hnum as [[p Hx] Hnum].
  apply NoDup_cons in Hnodup as [Hnotin Hnodup].
  apply (sort_insert_sorted x (sort l) p Hx); [|now apply IH].
  rewrite sort_Permutation.
  rewrite Forall_forall in Hnum |- *. intros y Hy.
  destruct (Hnum y Hy) as [q Hq]. exists q. split; [exact Hq|].
  intros ->. apply Hnotin. rewrite Hx, <- Hq.
  apply list_elem_of_fmap. now exists y.
Qed.

(** The sorted list depends on the set of chunks only, not on the order in
    which they arrived. *)
Lemma sort_canonical (arrived chunks : list TextDataChunk) :
  arrived ≡ₚ chunks →
  Forall (fun ch => ∃ p : Z, part_index ch = Num p) chunks →
  NoDup (map part_index chunks) →
  sort arrived = sort chunks.
Proof.
  intros Hperm Hnum Hnodup.
  apply (StronglySorted_unique_strong index_lt).
  - intros a b _ _. apply index_lt_asym.
  - apply sort_sorted; [now rewrite Hperm|].
    now rewrite Hperm.
  - now apply sort_sorted.
  - now rewrite !sort_Permutation.
Qed.

(** ** Chunk reassembler: sequences of chunks of one message *)

(** Chunks that do not yet complete their message pile up in the entry. *)
Lemma receive_all_pending (id : string) (n : Z)
  (arrivals : list (N * list Byte.byte)) (rest : list TextDataChunk) :
  Forall2 parses_to arrivals rest →
  Forall (fun ch => message_id ch = id ∧ total_parts ch = Num n) rest →
  ∀ (pre : list TextDataChunk) (cache : gmap string (list TextDataChunk))
    (tms : list Timer) (d : Dispatcher),
    (Z.of_nat (length pre + length rest) < n)%Z →
    receive_all {| messageCache := <[id := pre]> cache; timers := tms;
                   dispatcher := d |} arrivals =
    {| messageCache := <[id := pre ++ rest]> cache; timers := tms;
       dispatcher := d |}.
Proof.
  induction 1 as [|a ch arrivals rest Hparse _ IH]; intros Hall pre cache tms d Hlen.
  - now rewrite app_nil_r.
  - apply Forall_cons in Hall as [[Hid Htotal] Hall].
    destruct a as [t data]. simpl.
    rewrite (receive_parsed _ t data ch Hparse).
    rewrite (ingest_pending t ch _ pre)
      by (simpl; rewrite Hid; apply lookup_insert_eq).
    rewrite Htotal.
    assert (number_eqb (Num (Z.of_nat (length (pre ++ [ch])))) (Num n) = false) as ->.
    { unfold number_eqb. apply Z.eqb_neq. rewrite length_app. simpl in *. lia. }
    simpl. rewrite Hid, insert_insert_eq.
    rewrite (IH Hall (pre ++ [ch]) cache tms d).
    + now rewrite <- app_assoc.
    + rewrite length_app. simpl in *. lia.
Qed.

(** The chunk that completes the message: the chunks are sorted, joined,
    decoded and dispatched, and the entry is deleted. *)
Lemma receive_completing (id : string) (t : N) (data : list Byte.byte)
  (ch : TextDataChunk) (pre : list TextDataChunk)
  (cache : gmap string (list TextDataChunk)) (tms : list Timer) (d : Dispatcher) :
  parse_chunk data = Some ch →
  message_id ch = id →
  total_parts ch = Num (Z.of_nat (length (pre ++ [ch]))) →
  receive {| messageCache := <[id := pre]> cache; timers := tms; dispatcher := d |}
          (t, data) =
  {| messageCache := delete id cache; timers := tms;
     dispatcher := try_dispatch (join_contents (sort (pre ++ [ch]))) d |}.
Proof.
  intros Hparse Hid Htotal.
  rewrite (receive_parsed _ t data ch Hparse).
  rewrite (ingest_pending t ch _ pre)
    by (simpl; rewrite Hid; apply lookup_insert_eq).
  rewrite Htotal. unfold number_eqb. rewrite Z.eqb_refl. simpl.
  now rewrite Hid, delete_insert_eq.
Qed.

(** For the first chunk of an unseen id, the call does what it would do had
    the empty entry and the timer been there already. *)
Lemma receive_unseen (c : Client) (t : N) (data : list Byte.byte) (ch : TextDataChunk) :
  parse_chunk data = Some ch →
  cache_read (messageCache c) (message_id ch) = Absent →
  receive c (t, data) =
  receive {| messageCache := <[message_id ch := []]> (messageCache c);
             timers := timers c ++ [eviction_timer t (message_id ch) (total_parts ch)];
             dispatcher := dispatcher c |} (t, data).
Proof.
  intros Hparse Habs.
  rewrite !(receive_parsed _ t data ch Hparse).
  rewrite (ingest_unseen t ch c Habs).
  apply cache_read_absent in Habs as [Hnone _].
  rewrite (ingest_pending t ch _ []) by (simpl; apply lookup_insert_eq).
  simpl. rewrite insert_insert_eq, (delete_insert_id _ _ _ Hnone).
  change (Z.of_nat 1) with 1%Z.
  destruct (number_eqb (Num 1) (total_parts ch)); reflexivity.
Qed.

(** The run of a whole message through the handler, chunk by chunk, from a
    state in which its id is unseen: before the last chunk the chunks wait in
    the entry in their order of arrival and nothing is dispatched; the last
    chunk has the sorted, joined text dispatched and the entry removed. *)
Lemma reassembly_run (c : Client) (id : string) (arrived : list TextDataChunk)
  (t1 : N) (d1 : list Byte.byte) (arrivals : list (N * list Byte.byte)) :
  cache_read (messageCache c) id = Absent →
  Forall (fun ch => message_id ch = id ∧
                    total_parts ch = Num (Z.of_nat (length arrived))) arrived →
  Forall2 parses_to ((t1, d1) :: arrivals) arrived →
  let tm := eviction_timer t1 id (Num (Z.of_nat (length arrived))) in
  (∀ k : nat, (0 < k < length arrived)%nat →
     receive_all c (take k ((t1, d1) :: arrivals)) =
     {| messageCache := <[id := take k arrived]> (messageCache c);
        timers := timers c ++ [tm];
        dispatcher := dispatcher c |}) ∧
  receive_all c ((t1, d1) :: arrivals) =
  {| messageCache := messageCache c;
     timers := timers c ++ [tm];
     dispatcher := try_dispatch (join_contents (sort arrived)) (dispatcher c) |}.
Proof.
  intros Habs Hall Hparse tm.
  set (c0 := {| messageCache := <[id := []]> (messageCache c);
                timers := timers c ++ [tm];
                dispatcher := dispatcher c |}).
  assert (∀ l, receive_all c ((t1, d1) :: l) = receive_all c0 ((t1, d1) :: l))
    as Hfirst.
  { intros l. destruct arrived as [|ch1 rest]; [inversion Hparse|].
    apply Forall2_cons in Hparse as [Hp1 _].
    apply Forall_cons in Hall as [[Hid1 Htot1] _].
    simpl. f_equal. subst c0 tm. rewrite <- Hid1 in Habs |- *.
    rewrite <- Htot1. now apply receive_unseen. }
  split.
  - intros k [Hk0 Hkn].
    destruct k as [|k]; [lia|]. simpl take. rewrite Hfirst.
    change ((t1, d1) :: take k arrivals) with (take (S k) ((t1, d1) :: arrivals)).
    subst c0.
    rewrite (receive_all_pending id (Z.of_nat (length arrived)) _ (take (S k) arrived)).
    + reflexivity.
    + now apply Forall2_take.
    + now apply Forall_take.
    + rewrite length_take. change (length (@nil TextDataChunk)) with 0%nat. lia.
  - rewrite Hfirst.
    destruct (exists_last (l := arrived)) as (init & last & Hsplit).
    { intros ->. inversion Hparse. }
    subst arrived.
    apply Forall2_app_inv_r in Hparse as (l1 & l2 & Hp1 & Hp2 & ->).
    destruct l2 as [|[t data] l2]; [inversion Hp2|].
    apply Forall2_cons in Hp2 as [Hplast Hnil].
    apply Forall2_nil_inv_r in Hnil as ->.
    apply Forall_app in Hall as [Hinit Hlast].
    apply Forall_cons in Hlast as [[Hidl Htotl] _].
    rewrite receive_all_app. subst c0.
    rewrite (receive_all_pending id (Z.of_nat (length (init ++ [last]))) l1 init Hp1).
    + simpl.
      rewrite (receive_completing id t data last init) by assumption.
      apply cache_read_absent in Habs as [Hnone _].
      now rewrite (delete_id _ _ Hnone).
    + exact Hinit.
    + rewrite length_app. simpl. lia.
Qed.

(** C1.  Let [chunks] be a complete chunk set for [id], and let the chunks
    arrive in any order [arrived], one stream message each and no timer
    running in between, in a state in which [id] is unseen.  Then
    - before the last chunk nothing is dispatched and the chunks received
      so far wait in the entry;
    - the sorted list is the same for every order of arrival, holds the same
      chunks and is in ascending order of part index;
    - after the last chunk the state is the one given: the text joined in
      that order has gone through decoding, parsing and dispatch, the entry
      is gone, and the only new timer is the one set by the first arrival.
    The final state depends on the order of arrival in nothing. *)
Theorem reassembly_order_independent
  (c : Client) (id : string) (chunks arrived : list TextDataChunk)
  (t1 : N) (d1 : list Byte.byte) (arrivals : list (N * list Byte.byte)) :
  cache_read (messageCache c) id = Absent →
  complete_chunk_set id chunks →
  arrived ≡ₚ chunks →
  Forall2 parses_to ((t1, d1) :: arrivals) arrived →
  let all := (t1, d1) :: arrivals in
  (∀ k : nat, (k < length chunks)%nat →
     dispatcher (receive_all c (take k all)) = dispatcher c ∧
     messageCache (receive_all c (take k all)) !! id =
       match k with O => None | S _ => Some (take k arrived) end) ∧
  sort arrived = sort chunks ∧
  sort chunks ≡ₚ chunks ∧
  StronglySorted index_lt (sort chunks) ∧
  receive_all c all =
    {| messageCache := messageCache c;
       timers := timers c ++
         [eviction_timer t1 id (Num (Z.of_nat (length chunks)))];
       dispatcher :=
         try_dispatch (join_contents (sort chunks)) (dispatcher c) |}.
Proof.
  intros Habs (Hne & Hall & Hnodup) Hperm Hparse all. subst all.
  assert (length arrived = length chunks) as Hlen by now rewrite Hperm.
  assert (Forall (fun ch => ∃ p : Z, part_index ch = Num p) chunks) as Hnum.
  { eapply Forall_impl; [exact Hall|]. now intros ch (_ & _ & Hp). }
  assert (Forall (fun ch => message_id ch = id ∧
                            total_parts ch = Num (Z.of_nat (length arrived)))
                 arrived) as Hall'.
  { rewrite Hperm, Hlen. eapply Forall_impl; [exact Hall|].
    now intros ch (Hid & Htot & _). }
  destruct (reassembly_run c id arrived t1 d1 arrivals Habs Hall' Hparse)
    as [Hprefix Hfinal].
  pose proof (sort_canonical arrived chunks Hperm Hnum Hnodup) as Hsort.
  split; [|split; [exact Hsort|split; [apply sort_Permutation|split]]].
  - intros [|k] Hk.
    + simpl. split; [reflexivity|]. now apply cache_read_absent in Habs as [? _].
    + rewrite (Hprefix (S k)) by lia. simpl. split; [reflexivity|].
      apply lookup_insert_eq.
  - now apply sort_sorted.
  - rewrite Hfinal, Hsort, Hlen. reflexivity.
Qed.

(** ** Eviction *)

Lemma evict_timers (id : string) (total : number) (c : Client) :
  timers (evict id total c) = timers c.
Proof.
  unfold evict. destruct (messageCache c !! id); [|reflexivity].
  now destruct (number_eqb _ total).
Qed.

Lemma evict_dispatcher (id : string) (total : number) (c : Client) :
  dispatcher (evict id total c) = dispatcher c.
Proof.
  unfold evict. destruct (messageCache c !! id); [|reflexivity].
  now destruct (number_eqb _ total).
Qed.

(** A timer deletes at most the entry of its own id, and creates none. *)
Lemma evict_lookup (id' id : string) (total : number) (c : Client) :
  messageCache (evict id' total c) !! id = messageCache c !! id ∨
  (id' = id ∧ messageCache (evict id' total c) !! id = None).
Proof.
  unfold evict. destruct (messageCache c !! id') as [chunks|] eqn:H; [|now left].
  destruct (number_eqb _ total); [now left|]. simpl.
  destruct (decide (id' = id)) as [->|Hne].
  - right. split; [reflexivity|apply lookup_delete_eq].
  - left. now apply lookup_delete_ne.
Qed.

Lemma evict_incomplete (id : string) (total : number) (c : Client)
  (chunks : list TextDataChunk) :
  messageCache c !! id = Some chunks →
  number_eqb (Num (Z.of_nat (length chunks))) total = false →
  messageCache (evict id total c) !! id = None.
Proof.
  intros H Hne. unfold evict. rewrite H, Hne. simpl. apply lookup_delete_eq.
Qed.

(** The entry of [id] after timer [tm] has run in [c]: as before, or gone. *)
Ltac timer_cases tm id c :=
  unfold fire;
  destruct (evict_lookup (timer_message_id tm) id (timer_total_parts tm) c)
    as [->|[_ ->]].

Lemma fire_all_dispatcher (l : list Timer) (c : Client) :
  dispatcher (foldl fire c l) = dispatcher c.
Proof.
  revert c. induction l as [|tm l IH]; intros c; simpl; [reflexivity|].
  rewrite IH. apply evict_dispatcher.
Qed.

Lemma fire_all_timers (l : list Timer) (c : Client) :
  timers (foldl fire c l) = timers c.
Proof.
  revert c. induction l as [|tm l IH]; intros c; simpl; [reflexivity|].
  rewrite IH. apply evict_timers.
Qed.

Lemma fire_all_absent (id : string) (l : list Timer) (c : Client) :
  messageCache c !! id = None → messageCache (foldl fire c l) !! id = None.
Proof.
  revert c. induction l as [|tm l IH]; intros c Hnone; simpl; [exact Hnone|].
  apply IH. timer_cases tm id c; [exact Hnone|reflexivity].
Qed.

(** Once the timer of an incomplete entry is among those that run, the
    entry is gone when they have run, whatever the other timers are. *)
Lemma fire_all_evicts (id : string) (total : number) (chunks : list TextDataChunk)
  (tm : Timer) (l : list Timer) (c : Client) :
  timer_message_id tm = id → timer_total_parts tm = total →
  number_eqb (Num (Z.of_nat (length chunks))) total = false →
  tm ∈ l →
  messageCache c !! id = Some chunks ∨ messageCache c !! id = None →
  messageCache (foldl fire c l) !! id = None.
Proof.
  intros Hid Htotal Hne Hin. revert c.
  induction l as [|tm' l IH]; intros c Hc; [inversion Hin|].
  simpl. apply elem_of_cons in Hin as [<-|Hin].
  - apply fire_all_absent. unfold fire. rewrite Hid, Htotal.
    destruct Hc as [Hc|Hc].
    + now apply (evict_incomplete id total c chunks).
    + destruct (evict_lookup id id total c) as [->|[_ ->]]; [exact Hc|reflexivity].
  - apply (IH Hin). timer_cases tm' id c; [exact Hc|now right].
Qed.

Lemma advance_dispatcher (t : N) (c : Client) :
  dispatcher (advance t c) = dispatcher c.
Proof. unfold advance. now rewrite fire_all_dispatcher. Qed.

Lemma advance_timers (t : N) (c : Client) :
  timers (advance t c) = filter (fun tm => (due tm <=? t)%N = false) (timers c).
Proof. unfold advance. now rewrite fire_all_timers. Qed.

Lemma advance_evicts (t : N) (c : Client) (tm : Timer) (chunks : list TextDataChunk) :
  tm ∈ timers c → (due tm <= t)%N →
  messageCache c !! timer_message_id tm = Some chunks →
  number_eqb (Num (Z.of_nat (length chunks))) (timer_total_parts tm) = false →
  messageCache (advance t c) !! timer_message_id tm = None.
Proof.
  intros Hin Hdue Hlookup Hne. unfold advance.
  apply (fire_all_evicts _ (timer_total_parts tm) chunks tm); try reflexivity.
  - exact Hne.
  - apply list_elem_of_filter. split; [|exact Hin]. now apply N.leb_le.
  - now left.
Qed.

(** While an entry exists, no stream message sets a timer of its id. *)
Lemma receive_timers_of_id (id : string) (c : Client) (t : N)
  (data : list Byte.byte) (tm : Timer) :
  is_Some (messageCache c !! id) →
  timer_message_id tm = id →
  tm ∈ timers (receive c (t, data)) ↔ tm ∈ timers c.
Proof.
  intros [pending Hlookup] Hid.
  destruct (parse_chunk data) as [ch|] eqn:Hparse;
    [|now rewrite (receive_dropped _ _ _ Hparse)].
  rewrite (receive_parsed _ t data ch Hparse).
  destruct (cache_read (messageCache c) (message_id ch)) as [other| |] eqn:Hread.
  - assert (messageCache c !! message_id ch = Some other) as Hother.
    { unfold cache_read in Hread.
      destruct (messageCache c !! message_id ch); [congruence|].
      now case_bool_decide. }
    rewrite (ingest_pending t ch c other Hother). simpl.
    now destruct (number_eqb _ (total_parts ch)).
  - now rewrite (ingest_inherited t ch c Hread).
  - rewrite (ingest_unseen t ch c Hread).
    assert (message_id ch ≠ id) as Hne.
    { intros Heq. apply cache_read_absent in Hread as [Hnone _]. congruence. }
    assert (tm ∈ timers c ++ [eviction_timer t (message_id ch) (total_parts ch)]
            ↔ tm ∈ timers c) as Happ.
    { rewrite elem_of_app, list_elem_of_singleton. split; [|now left].
      intros [Hin | ->]; [exact Hin|]. simpl in Hid. congruence. }
    now destruct (number_eqb (Num 1) (total_parts ch)).
Qed.

(** While the entry of [id] persists and the clock stays before [deadline],
    the timers of [id] are those there were at the start, except those that
    were due before [deadline] and have run. *)
Lemma persists_timers (id : string) (deadline : N) (c c' : Client) (tm : Timer) :
  persists id deadline c c' →
  timer_message_id tm = id →
  (tm ∈ timers c' → tm ∈ timers c) ∧
  ((deadline <= due tm)%N → tm ∈ timers c → tm ∈ timers c').
Proof.
  intros Hrun Hid.
  induction Hrun as [|c' t data _ [IH1 IH2] Hsome|c' t _ [IH1 IH2] Ht].
  - tauto.
  - rewrite (receive_timers_of_id id c' t data tm Hsome Hid). tauto.
  - rewrite advance_timers, list_elem_of_filter. split.
    + intros [_ Hin]. auto.
    + intros Hdue Hin. split; [|auto]. apply N.leb_gt. lia.
Qed.

(** So the conditions under which C4 speaks of the state at the deadline
    are met by every state reached while the entry set up by the first chunk
    persists: its timer is pending, and no timer of its id is due later,
    when none was at the start. *)
Lemma persisting_entry_timers
  (c c2 : Client) (now : N) (data : list Byte.byte) (first : TextDataChunk) :
  parse_chunk data = Some first →
  cache_read (messageCache c) (message_id first) = Absent →
  (∀ old : Timer, old ∈ timers c → timer_message_id old = message_id first →
                  (due old <= now + 5000)%N) →
  persists (message_id first) (now + 5000) (receive c (now, data)) c2 →
  eviction_timer now (message_id first) (total_parts first) ∈ timers c2 ∧
  ∀ old : Timer, old ∈ timers c2 → timer_message_id old = message_id first →
                 (due old <= now + 5000)%N.
Proof.
  intros Hparse Habs Hold Hrun.
  assert (timers (receive c (now, data)) =
          timers c ++ [eviction_timer now (message_id first) (total_parts first)])
    as Htimers.
  { rewrite (receive_parsed _ now data first Hparse).
    rewrite (ingest_unseen now first c Habs).
    now destruct (number_eqb (Num 1) (total_parts first)). }
  split.
  - apply (persists_timers _ _ _ _
             (eviction_timer now (message_id first) (total_parts first))
             Hrun eq_refl); [simpl; lia|].
    rewrite Htimers, elem_of_app, list_elem_of_singleton. now right.
  - intros old Hin Hid.
    apply (persists_timers _ _ _ _ _ Hrun Hid) in Hin.
    rewrite Htimers, elem_of_app, list_elem_of_singleton in Hin.
    destruct Hin as [Hin| ->]; [now apply Hold|simpl; lia].
Qed.


(** ** Chunks for finished messages *)

(** A chunk of another id leaves the entry of [id] alone. *)
Lemma ingest_other_lookup (id : string) (t : N) (ch : TextDataChunk) (c : Client) :
  message_id ch ≠ id →
  messageCache (state_of (ingest t ch c)) !! id = messageCache c !! id.
Proof.
  intros Hne.
  destruct (cache_read (messageCache c) (message_id ch)) as [pending| |] eqn:Hread.
  - assert (messageCache c !! message_id ch = Some pending) as Hlookup.
    { unfold cache_read in Hread.
      destruct (messageCache c !! message_id ch); [congruence|].
      now case_bool_decide. }
    rewrite (ingest_pending t ch c pending Hlookup). simpl.
    destruct (number_eqb _ (total_parts ch)); simpl.
    + now apply lookup_delete_ne.
    + now apply lookup_insert_ne.
  - now rewrite (ingest_inherited t ch c Hread).
  - rewrite (ingest_unseen t ch c Hread). simpl.
    destruct (number_eqb (Num 1) (total_parts ch)); simpl; [reflexivity|].
    now apply lookup_insert_ne.
Qed.

(** The id of a finished message is unseen again. *)
Lemma finished_unseen (id : string) (c : Client) :
  finished id c → cache_read (messageCache c) id = Absent.
Proof.
  induction 1 as [c0 t data last Hparse Hid Hproto Hfull
                 |c0 total chunks Hproto Hlookup Hne
                 |c t data _ IH Hdrop
                 |c t data ch _ IH Hparse Hother
                 |c tm _ IH].
  - rewrite (receive_parsed _ t data last Hparse).
    apply cache_read_absent. split; [|exact Hproto].
    unfold with_chunk in Hfull. rewrite Hid in Hfull.
    destruct (messageCache c0 !! id) as [pending|] eqn:Hlookup.
    + rewrite (ingest_pending t last c0 pending) by now rewrite Hid.
      simpl in Hfull. rewrite Hfull. simpl. rewrite Hid.
      apply lookup_delete_eq.
    + assert (cache_read (messageCache c0) (message_id last) = Absent) as Habs.
      { rewrite Hid. now apply cache_read_absent. }
      rewrite (ingest_unseen t last c0 Habs).
      change (number_eqb (Num 1) (total_parts last) = true) in Hfull.
      rewrite Hfull. exact Hlookup.
  - apply cache_read_absent. split; [|exact Hproto].
    now apply (evict_incomplete id total c0 chunks).
  - now rewrite (receive_dropped _ _ _ Hdrop).
  - apply cache_read_absent in IH as [Hnone Hproto].
    apply cache_read_absent. split; [|exact Hproto].
    rewrite (receive_parsed _ t data ch Hparse).
    now rewrite (ingest_other_lookup id t ch c Hother).
  - apply cache_read_absent in IH as [Hnone Hproto].
    apply cache_read_absent. split; [|exact Hproto].
    timer_cases tm id c; [exact Hnone|reflexivity].
Qed.

(** C5.  A chunk for a message that has been completed or evicted is not
    ignored.  Its id is unseen again, so the chunk is the first chunk of a
    new message: a timer due 5000 after its arrival is set, and the entry
    created for it holds that chunk alone; a chunk that declares one part is
    reassembled at once from that chunk alone.  In every case the state
    changes. *)
Theorem late_chunk_starts_afresh
  (id : string) (c : Client) (t : N) (data : list Byte.byte) (ch : TextDataChunk) :
  finished id c →
  parse_chunk data = Some ch →
  message_id ch = id →
  let c' := receive c (t, data) in
  timers c' = timers c ++ [eviction_timer t id (total_parts ch)] ∧
  (if number_eqb (Num 1) (total_parts ch)
   then messageCache c' = messageCache c ∧
        dispatcher c' = try_dispatch (join_contents [ch]) (dispatcher c)
   else messageCache c' = <[id := [ch]]> (messageCache c) ∧
        messageCache c' !! id = Some [ch] ∧
        dispatcher c' = dispatcher c) ∧
  c' ≠ c.
Proof.
  intros Hfin Hparse Hid c'.
  apply finished_unseen in Hfin as Habs. rewrite <- Hid in Habs.
  subst c'. rewrite (receive_parsed _ t data ch Hparse).
  rewrite (ingest_unseen t ch c Habs). rewrite Hid.
  assert (∀ x : Client, timers x = timers c ++ [eviction_timer t id (total_parts ch)] →
                        x ≠ c) as Hdiff.
  { intros x Hx ->. apply (f_equal length) in Hx.
    rewrite length_app in Hx. simpl in Hx. lia. }
  destruct (number_eqb (Num 1) (total_parts ch)); simpl.
  - repeat split; try reflexivity. now apply Hdiff.
  - repeat split; try reflexivity; [apply lookup_insert_eq|now apply Hdiff].
Qed.

(** ** The scenario for message [m1] *)

(** Payloads that arrive in some order parse to the chunks in that order. *)
Lemma parse_arrivals (arrivals : list (N * list Byte.byte))
  (payloads : list (list Byte.byte)) (chunks : list TextDataChunk) :
  Forall2 (fun p ch => parse_chunk p = Some ch) payloads chunks →
  map snd arrivals ≡ₚ payloads →
  ∃ arrived : list TextDataChunk,
    Forall2 parses_to arrivals arrived ∧ arrived ≡ₚ chunks.
Proof.
  intros Hparse Hperm.
  exists (omap parse_chunk (map snd arrivals)). split.
  - assert (Forall (fun p => is_Some (parse_chunk p)) (map snd arrivals)) as Hsome.
    { rewrite Hperm. clear Hperm.
      induction Hparse as [|p ch ps chs Hp _ IH]; constructor; [eauto|exact IH]. }
    clear Hperm Hparse.
    induction arrivals as [|[t data] arrivals IH]; simpl in *; [constructor|].
    apply Forall_cons in Hsome as [[ch Hch] Hsome].
    rewrite Hch. constructor; [exact Hch|now apply IH].
  - rewrite Hperm. clear Hperm.
    induction Hparse as [|p ch ps chs Hp _ IH]; simpl; [reflexivity|].
    rewrite Hp. simpl. now rewrite IH.
Qed.

(** C3.  The three chunks of [m1], in whatever order they arrive: after the
    third the chunks are sorted to index order 0, 1, 2 and joined with part 0
    first.  The joined text has padding in its middle, so [atob] throws and
    no record is parsed; nothing is dispatched, and the entry of [m1] is
    removed.  The outcome is the same for every order of arrival. *)
Theorem scenario_m1_any_order (arrivals : list (N * list Byte.byte)) :
  map snd arrivals ≡ₚ [m1_part1; m1_part0; m1_part2] →
  ∃ arrived : list TextDataChunk,
    Forall2 parses_to arrivals arrived ∧
    sort arrived = m1_chunks ∧
    join_contents (sort arrived) = m1_joined ∧
    base64ToUtf8 m1_joined = Throw "InvalidCharacterError" ∧
    dispatcher (receive_all client_init arrivals) = dispatcher_init ∧
    messageCache (receive_all client_init arrivals) = ∅.
Proof.
  intros Hperm.
  destruct (parse_arrivals arrivals [m1_part1; m1_part0; m1_part2]
              [m1_chunk 1 "Qg=="; m1_chunk 0 "SGVsbG8s"; m1_chunk 2 "d29ybGQh"])
    as (arrived & Hparse & Harrived); [|exact Hperm|].
  { repeat constructor. }
  assert (arrived ≡ₚ m1_chunks) as Hset.
  { rewrite Harrived. apply Permutation_swap. }
  assert (Forall (fun ch => ∃ p : Z, part_index ch = Num p) m1_chunks) as Hnum.
  { repeat constructor; eexists; reflexivity. }
  assert (NoDup (map part_index m1_chunks)) as Hnodup.
  { apply (bool_decide_unpack _). vm_compute. exact I. }
  assert (sort arrived = m1_chunks) as Hsort.
  { rewrite (sort_canonical arrived m1_chunks Hset Hnum Hnodup). reflexivity. }
  exists arrived. split; [exact Hparse|]. split; [exact Hsort|].
  split; [now rewrite Hsort|]. split; [reflexivity|].
  assert (length arrived = 3%nat) as Hlen by now rewrite Hset.
  destruct arrivals as [|[t1 d1] rest]; [inversion Hparse; subst; discriminate|].
  destruct (reassembly_run client_init "m1" arrived t1 d1 rest) as [_ Hfinal].
  - reflexivity.
  - rewrite Hset, Hlen. repeat constructor.
  - exact Hparse.
  - rewrite Hfinal, Hsort. simpl. split; reflexivity.
Qed.

(** * Concrete runs *)

(** C1 at a record sent as three chunks that arrive in the order 2, 0, 1:
    the record is dispatched when the third chunk has arrived. *)
Lemma reassembly_order_independent_witness :
  cache_read (messageCache client_init) "t7" = Absent ∧
  receive_all client_init
    [(0%N, hi_payload "2" hi_part2); (10%N, hi_payload "0" hi_part0);
     (20%N, hi_payload "1" hi_part1)] =
  {| messageCache := ∅;
     timers := [eviction_timer 0 "t7" (Num 3)];
     dispatcher := {| messageList := [hi_message];
                      currentInProgressMessage := None;
                      turnIdCounter := 1 |} |}.
Proof.
  split; [reflexivity|].
  pose proof (reassembly_order_independent client_init "t7"
    [hi_chunk 0 hi_part0; hi_chunk 1 hi_part1; hi_chunk 2 hi_part2]
    [hi_chunk 2 hi_part2; hi_chunk 0 hi_part0; hi_chunk 1 hi_part1]
    0%N (hi_payload "2" hi_part2)
    [(10%N, hi_payload "0" hi_part0); (20%N, hi_payload "1" hi_part1)]) as H.
  destruct H as (_ & _ & _ & _ & ->).
  - reflexivity.
  - split; [discriminate|]. split.
    + repeat constructor; eexists; reflexivity.
    + apply (bool_decide_unpack _). vm_compute. exact I.
  - etransitivity; [apply Permutation_swap|]. apply Permutation_skip, Permutation_swap.
  - repeat constructor.
  - vm_compute. reflexivity.
Defined.

(** C1 as worded fails in two places.  A complete chunk set whose id names
    a member of [Object.prototype] is never reassembled: its one chunk
    leaves the state as it was, while the same chunk under the id [t7] has
    its record dispatched.  And indices that are different integers on the
    wire can be one and the same double: for 2^53 and 2^53 + 1 the chunks
    are joined in their order of arrival, so that one order has the record
    dispatched and the other has nothing dispatched. *)
Lemma reassembly_depends_on_id_and_order :
  (∃ ch : TextDataChunk,
     parse_chunk hi_constructor = Some ch ∧
     complete_chunk_set "constructor" [ch] ∧
     receive_all client_init [(0%N, hi_constructor)] = client_init) ∧
  messageList (dispatcher (receive_all client_init [(0%N, hi_single)])) =
    [hi_message] ∧
  read_digits "9007199254740992" None ≠ read_digits "9007199254740993" None ∧
  parseInt (Some "9007199254740992"%string) =
    parseInt (Some "9007199254740993"%string) ∧
  messageList
    (dispatcher (receive_all client_init [(0%N, hi_head); (1%N, hi_tail)])) =
    [hi_message] ∧
  dispatcher (receive_all client_init [(0%N, hi_tail); (1%N, hi_head)]) =
    dispatcher_init.
Proof.
  split.
  { eexists. split; [reflexivity|]. split; [|reflexivity].
    split; [discriminate|]. split.
    - repeat constructor. now exists 0%Z.
    - repeat constructor. intros H. inversion H. }
  split; [vm_compute; reflexivity|]. split; [discriminate|].
  split; [reflexivity|]. split; vm_compute; reflexivity.
Qed.

(** C2 as worded fails where it says that a single reading above zero with
    zeros around it does not start speaking, and that two zeros in a row end
    speaking.  From the initial state the readings 0, 1/2, 0 give speaking
    at the second reading, which the third does not undo; and after 1, 1 has
    started speaking, the readings 1, 0, 0 leave the state speaking, the
    window still holding the 1. *)
Lemma isolated_sound_starts_speaking :
  isAgentSpeaking (volume_checks [0%Q] voice_init) = false ∧
  isAgentSpeaking (volume_checks [0%Q; (1 # 2)%Q] voice_init) = true ∧
  isAgentSpeaking (volume_checks [0%Q; (1 # 2)%Q; 0%Q] voice_init) = true ∧
  volume_checks [1%Q; 1%Q; 1%Q; 0%Q; 0%Q] voice_init =
    {| volumes := [1%Q; 0%Q; 0%Q]; isAgentSpeaking := true |}.
Proof. repeat split; reflexivity. Qed.

(** C2 at the state that listens with one zero in the window: the reading
    1/2 starts speaking. *)
Lemma hysteresis_transitions_witness :
  isAgentSpeaking
    (volume_check (1 # 2)%Q {| volumes := [0%Q]; isAgentSpeaking := false |}) = true.
Proof.
  destruct (hysteresis_transitions
              {| volumes := [0%Q]; isAgentSpeaking := false |} (1 # 2)%Q)
    as (_ & _ & _ & H).
  apply H; [reflexivity|discriminate|reflexivity].
Defined.

(** C3 as worded fails: for the arrival order 1, 0, 2 the chunks are sorted
    and joined with part 0 first, but [atob] rejects the joined text, so no
    record comes out of decoding and nothing is dispatched.  (The three parts
    decoded one by one spell a text that is no JSON value either.) *)
Lemma scenario_m1_yields_no_record :
  join_contents
    (sort [m1_chunk 1 "Qg=="; m1_chunk 0 "SGVsbG8s"; m1_chunk 2 "d29ybGQh"]) =
    m1_joined ∧
  atob m1_joined = Throw "InvalidCharacterError" ∧
  (¬ ∃ record : JSON, decode_record m1_joined = Ok record) ∧
  JSON_parse (js "Hello,Bworld!") = Throw "SyntaxError" ∧
  receive_all client_init [(0%N, m1_part1); (1%N, m1_part0); (2%N, m1_part2)] =
    {| messageCache := ∅;
       timers := [eviction_timer 0 "m1" (Num 3)];
       dispatcher := dispatcher_init |}.
Proof.
  split; [reflexivity|]. split; [reflexivity|]. split.
  - intros [record H]. vm_compute in H. discriminate H.
  - split; vm_compute; reflexivity.
Qed.

(** C3 at the arrival order 1, 0, 2. *)
Lemma scenario_m1_any_order_witness :
  dispatcher
    (receive_all client_init [(0%N, m1_part1); (1%N, m1_part0); (2%N, m1_part2)]) =
    dispatcher_init ∧
  messageCache
    (receive_all client_init [(0%N, m1_part1); (1%N, m1_part0); (2%N, m1_part2)]) = ∅.
Proof.
  destruct (scenario_m1_any_order
              [(0%N, m1_part1); (1%N, m1_part0); (2%N, m1_part2)])
    as (arrived & _ & _ & _ & _ & Hd & Hc).
  - reflexivity.
  - split; assumption.
Defined.



Lemma t7_finished_after_single_chunk :
  finished "t7" (receive client_init (0%N, hi_single)).
Proof.
  apply (finished_completed "t7" client_init 0 hi_single
           {| message_id := "t7"; part_index := Num 0; total_parts := Num 1;
              content := Some (hi_part0 +:+ hi_part1 +:+ hi_part2) |}).
  - reflexivity.
  - reflexivity.
  - apply (bool_decide_unpack _). vm_compute. exact I.
  - reflexivity.
Qed.

(** C5 as worded fails: the record of [t7] arrives in one chunk and is
    dispatched; a later chunk with the same id is not ignored but opens a
    new entry and sets a new timer. *)
Lemma late_chunk_not_ignored : ¬ late_chunks_ignored.
Proof.
  intros Hclaim.
  specialize (Hclaim "t7" (receive client_init (0%N, hi_single)) 10%N hi_late
                (hi_chunk 0 hi_part0) t7_finished_after_single_chunk
                eq_refl eq_refl).
  apply (f_equal (fun c => length (timers c))) in Hclaim.
  vm_compute in Hclaim. discriminate Hclaim.
Qed.

(** C5 at that run: the late chunk waits alone in a new entry. *)
Lemma late_chunk_starts_afresh_witness :
  messageList (dispatcher (receive client_init (0%N, hi_single))) = [hi_message] ∧
  messageCache (receive client_init (0%N, hi_single)) !! "t7" = None ∧
  messageCache (receive (receive client_init (0%N, hi_single)) (10%N, hi_late))
    !! "t7" = Some [hi_chunk 0 hi_part0].
Proof.
  split; [vm_compute; reflexivity|]. split; [vm_compute; reflexivity|].
  destruct (late_chunk_starts_afresh "t7" (receive client_init (0%N, hi_single))
              10%N hi_late (hi_chunk 0 hi_part0)
              t7_finished_after_single_chunk eq_refl eq_refl)
    as (_ & (_ & H & _) & _).
  exact H.
Defined.

(** C6 as worded fails at a tick whose target equals the current count: the
    count then decays.  With the options [halving_options], one loud frame
    brings the count to 2; the silent frame after it has target 2, and the
    count drops to 1. *)
Lemma equal_target_decays :
  let s := updates halving_options [loud_frame] levels_init in
  options_in_range halving_options ∧
  (currentLitCount s == 2)%Q ∧
  (tick_target halving_options silent_frame s == 2)%Q ∧
  (currentLitCount s <= tick_target halving_options silent_frame s)%Q ∧
  (currentLitCount (updateData halving_options silent_frame s) == 1)%Q ∧
  (currentLitCount (updateData halving_options silent_frame s) < currentLitCount s)%Q.
Proof.
  vm_compute. repeat split; discriminate.
Qed.

(** The attack can pass the target by the last bit of a double: with an
    attack rate of 1, after a frame whose bytes sum to 4435 a frame whose
    bytes sum to 19004 has the target 13.973529411764707 and brings the
    count to 13.973529411764709. *)
Example attack_passes_target :
  let s := updates full_attack_options [frame_of 17 100] levels_init in
  options_in_range full_attack_options ∧
  analyser_frame (frame_of 17 100) ∧ analyser_frame (frame_of 74 134) ∧
  (currentLitCount s < tick_target full_attack_options (frame_of 74 134) s)%Q ∧
  (tick_target full_attack_options (frame_of 74 134) s ==
   7866397731484275 # 562949953421312)%Q ∧
  (currentLitCount (updateData full_attack_options (frame_of 74 134) s) ==
   1966599432871069 # 140737488355328)%Q ∧
  (tick_target full_attack_options (frame_of 74 134) s <
   currentLitCount (updateData full_attack_options (frame_of 74 134) s))%Q.
Proof.
  split; [vm_compute; repeat split; discriminate|].
  split; [split; [reflexivity|repeat constructor; discriminate]|].
  split; [split; [reflexivity|repeat constructor; discriminate]|].
  vm_compute. repeat split.
Qed.

Lemma default_options_in_range : options_in_range default_options.
Proof. vm_compute. repeat split; discriminate. Qed.

(** C6 at the default options, for a silent frame after a loud one. *)
Lemma litBars_bounded_and_monotone_witness :
  let s := updateData default_options silent_frame
             (updates default_options [loud_frame] levels_init) in
  (0 <= currentLitCount s)%Q ∧ (currentLitCount s <= 24)%Q.
Proof.
  destruct (litBars_bounded_and_monotone default_options default_options_in_range
              [loud_frame] silent_frame) as (H & _).
  - repeat constructor; discriminate.
  - split; [reflexivity|]. repeat constructor; discriminate.
  - exact H.
Defined.

Lemma dispatcher_init_ids_below : ids_below dispatcher_init.
Proof. intros m [Hin|Hslot]; [inversion Hin|discriminate Hslot]. Qed.

(** C7 at the record [hi_record], dispatched after an interim record: it
    is appended with turn id 1, the interim record having taken 0. *)
Lemma final_record_appends_next_turn_witness :
  ∃ m : IMessageListItem,
    handleTenMessage hi_record
      (dispatch_all [JObj [(js "text", JStr (js "h"))]] dispatcher_init) =
      Ok {| messageList := [m]; currentInProgressMessage := None;
            turnIdCounter := 2 |} ∧
    turn_id m = 1%N ∧ text m = js "hi".
Proof.
  destruct (final_record_appends_next_turn dispatcher_init
              [JObj [(js "text", JStr (js "h"))]] hi_record (js "hi")
              dispatcher_init_ids_below eq_refl eq_refl eq_refl)
    as (m & Heq & Hid & Htext & _).
  exists m. split; [exact Heq|]. split; [exact Hid|exact Htext].
Defined.

(** C8 at a record whose text is two spaces. *)
Lemma blank_text_is_noop_witness :
  handleTenMessage (JObj [(js "text", JStr (js "  ")); (js "is_final", JBool true)])
    dispatcher_init = Ok dispatcher_init.
Proof.
  apply (blank_text_is_noop _ (js "  ")); reflexivity.
Defined.

(** C9 at a payload with the token in its third field, in a state that
    already holds a chunk. *)
Lemma unknown_total_parts_dropped_witness :
  handleStreamMessage 7 (bytes "m1|2|???|d29ybGQh")
    (receive client_init (0%N, m1_part0)) =
  Normal (receive client_init (0%N, m1_part0)).
Proof.
  apply (unknown_total_parts_dropped 7 (bytes "m1|2|???|d29ybGQh") eq_refl).
Defined.

(** C10 at a one-part message whose content is no base64 text: the handler
    returns, the entry is gone and nothing is dispatched. *)
Lemma handler_returns_normally_witness :
  ∃ c' : Client,
    handleStreamMessage 0 (bytes "m9|0|1|!!!!") client_init = Normal c' ∧
    messageCache c' !! "m9" = None ∧
    dispatcher c' = dispatcher_init.
Proof.
  destruct (handler_returns_normally 0 (bytes "m9|0|1|!!!!") client_init)
    as (_ & H).
  destruct (H {| message_id := "m9"; part_index := Num 0; total_parts := Num 1;
                 content := Some "!!!!" |} "InvalidCharacterError")
    as (c' & Hc' & Hnone & _ & Hd).
  - reflexivity.
  - discriminate.
  - reflexivity.
  - reflexivity.
  - exists c'. split; [exact Hc'|]. split; [exact Hnone|exact Hd].
Defined.

(** A number literal too small for a double is zero after [JSON.parse] and
    counts as false: a record whose text is [1e-400] is taken as one without
    text and the call returns, while for the text [1e-300] it throws. *)
Example underflowing_text_counts_as_false :
  JSON_parse ([123; 34]%N ++ js "text" ++ [34; 58]%N ++ js "1e-400" ++ [125]%N) =
    Ok (JObj [(js "text", JNum 1 (-400))]) ∧
  handleTenMessage (JObj [(js "text", JNum 1 (-400))]) dispatcher_init =
    Ok dispatcher_init ∧
  handleTenMessage (JObj [(js "text", JNum 1 (-300))]) dispatcher_init =
    Throw "TypeError".
Proof. repeat split; vm_compute; reflexivity. Qed.

(** A message id that names a member of [Object.prototype] is never
    buffered: the push throws, the outer [catch] swallows the error, and the
    state is as before. *)
Example prototype_key_never_buffered :
  handleStreamMessage_body 0 (bytes "constructor|0|1|e30=") client_init =
    Abrupt "TypeError" client_init ∧
  handleStreamMessage 0 (bytes "constructor|0|1|e30=") client_init =
    Normal client_init.
Proof. split; reflexivity. Qed.

(** * Further properties *)

(** ** The dispatcher over a run of records *)

Lemma trim_length_zero (s : jsstring) :
  (length (trim s) =? 0)%nat = forallb is_WhiteSpace s.
Proof.
  destruct (forallb is_WhiteSpace s) eqn:Hs.
  - now rewrite (trim_whitespace_only s Hs).
  - apply trim_not_whitespace_only in Hs. now destruct (trim s).
Qed.

Lemma new_message_turn_id (parsedMsg : JSON) (id : N) (m : IMessageListItem) :
  new_message parsedMsg id = Some m → turn_id m = id.
Proof.
  unfold new_message. destruct parsedMsg as [| | | | |props]; try discriminate.
  destruct (own_property props (js "text")) as [[| | |s| |]|]; try discriminate.
  destruct (forallb is_WhiteSpace s); [discriminate|]. now intros [= <-].
Qed.

(** The message built does not depend on the counter but for its turn id. *)
Lemma new_message_shift (parsedMsg : JSON) (id id' : N) :
  new_message parsedMsg id' =
  (fun m => {| turn_id := id'; uid := uid m; text := text m;
               status := status m; timestamp := timestamp m |})
    <$> new_message parsedMsg id.
Proof.
  unfold new_message. destruct parsedMsg as [| | | | |props]; try reflexivity.
  destruct (own_property props (js "text")) as [[| | |s| |]|]; try reflexivity.
  now destruct (forallb is_WhiteSpace s).
Qed.

(** [handleTenMessage] under the inner [try], in one equation. *)
Lemma dispatch_new_message (d : Dispatcher) (parsedMsg : JSON) :
  dispatch d parsedMsg =
  match new_message parsedMsg (turnIdCounter d) with
  | None => d
  | Some m =>
      if (status m =? 1)%N
      then {| messageList := messageList d ++ [m];
              currentInProgressMessage := None;
              turnIdCounter := (turnIdCounter d + 1)%N |}
      else {| messageList := messageList d;
              currentInProgressMessage := Some m;
              turnIdCounter := (turnIdCounter d + 1)%N |}
  end.
Proof.
  unfold dispatch, handleTenMessage, new_message.
  destruct parsedMsg as [| | | | |props]; try reflexivity. simpl.
  destruct (own_property props (js "text")) as [[|b|m e|s|l|l]|]; simpl;
    try reflexivity.
  - now destruct b.
  - now destruct (negb (rounds_to_zero m e)).
  - rewrite trim_length_zero.
    destruct (bool_decide (s = [])) eqn:Hnil; simpl.
    + apply bool_decide_eq_true in Hnil as ->. reflexivity.
    + destruct (forallb is_WhiteSpace s); [reflexivity|].
      destruct (truthy (own_property props (js "is_final"))); reflexivity.
Qed.

Lemma dispatch_texts (d : Dispatcher) (r : JSON) :
  map text (messageList (dispatch d r)) =
  map text (messageList d) ++ option_list (final_text r).
Proof.
  rewrite dispatch_new_message. unfold final_text.
  rewrite (new_message_shift r (turnIdCounter d) 0).
  destruct (new_message r (turnIdCounter d)) as [m|]; simpl;
    [|now rewrite app_nil_r].
  destruct (status m =? 1)%N; simpl; [apply map_app|now rewrite app_nil_r].
Qed.

Lemma dispatch_counter (d : Dispatcher) (r : JSON) :
  turnIdCounter (dispatch d r) =
  (turnIdCounter d + if accepted r then 1 else 0)%N.
Proof.
  rewrite dispatch_new_message. unfold accepted.
  rewrite (new_message_shift r (turnIdCounter d) 0).
  destruct (new_message r (turnIdCounter d)) as [m|]; simpl.
  - now destruct (status m =? 1)%N.
  - lia.
Qed.

(** X1.  Over any run of records, the finalized list grows by exactly the
    accepted final records, in their order of arrival and with their texts;
    interim records, blank records and records on which the call throws add
    nothing to it.  The counter moves on once for every accepted record,
    interim or final. *)
Theorem finalized_texts_in_order (history : list JSON) (d : Dispatcher) :
  map text (messageList (dispatch_all history d)) =
    map text (messageList d) ++ omap final_text history ∧
  turnIdCounter (dispatch_all history d) =
    (turnIdCounter d + N.of_nat (length (filter (fun r => accepted r = true) history)))%N.
Proof.
  revert d. induction history as [|r history IH]; intros d.
  - simpl. rewrite app_nil_r. split; [reflexivity|lia].
  - change (dispatch_all (r :: history) d) with (dispatch_all history (dispatch d r)).
    destruct (IH (dispatch d r)) as [-> ->].
    rewrite dispatch_texts, dispatch_counter, <- app_assoc, filter_cons.
    split.
    + f_equal. change (omap final_text (r :: history)) with
        (match final_text r with Some y => y :: omap final_text history
                               | None => omap final_text history end).
      now destruct (final_text r).
    + destruct (accepted r) eqn:Hacc.
      * rewrite decide_True by reflexivity. simpl length. lia.
      * rewrite decide_False by discriminate. lia.
Qed.

Lemma dispatch_not_accepted (d : Dispatcher) (r : JSON) :
  accepted r = false → dispatch d r = d.
Proof.
  intros Hacc. rewrite dispatch_new_message.
  rewrite (new_message_shift r 0 (turnIdCounter d)).
  unfold accepted in Hacc. apply bool_decide_eq_false in Hacc.
  destruct (new_message r 0); [|reflexivity].
  exfalso. apply Hacc. eauto.
Qed.

Lemma dispatch_all_not_accepted (ignored : list JSON) (d : Dispatcher) :
  Forall (fun x => accepted x = false) ignored → dispatch_all ignored d = d.
Proof.
  induction 1 as [|x ignored Hx _ IH]; [reflexivity|].
  simpl. now rewrite (dispatch_not_accepted d x Hx).
Qed.

(** X2.  The in-progress slot is decided by the last accepted record alone:
    it holds that record's message when the record is interim, whatever the
    slot held before, and it is empty when the record is final.  Records that
    are not accepted (blank text, no text, a call that throws) leave the slot
    as it is. *)
Theorem slot_follows_last_accepted
  (history ignored : list JSON) (r : JSON) (d : Dispatcher) (m : IMessageListItem) :
  new_message r (turnIdCounter (dispatch_all history d)) = Some m →
  Forall (fun x => accepted x = false) ignored →
  currentInProgressMessage (dispatch_all (history ++ r :: ignored) d) =
    if (status m =? 1)%N then None else Some m.
Proof.
  intros Hm Hignored.
  rewrite dispatch_all_app.
  change (dispatch_all (r :: ignored) (dispatch_all history d))
    with (dispatch_all ignored (dispatch (dispatch_all history d) r)).
  rewrite (dispatch_all_not_accepted ignored _ Hignored).
  rewrite dispatch_new_message, Hm.
  now destruct (status m =? 1)%N.
Qed.

Lemma new_message_well_formed (r : JSON) (id : N) (m : IMessageListItem) :
  new_message r id = Some m →
  well_formed_message m ∧ (status m = 0%N ∨ status m = 1%N).
Proof.
  unfold new_message. destruct r as [| | | | |props]; try discriminate.
  destruct (own_property props (js "text")) as [[| | |s| |]|]; try discriminate.
  destruct (forallb is_WhiteSpace s) eqn:Hs; [discriminate|]. intros [= <-].
  unfold well_formed_message. simpl. split; [split; [|exact Hs]|].
  - destruct (strict_equal_string _ _); auto.
  - destruct (truthy _); auto.
Qed.

(** X3.  In every state reached from the initial one, whatever records were
    dispatched: each message of the finalized list has status 1, each message
    in the slot has status 0, and every message held has a uid that is 0
    or 1 and a text with a character that is not white space. *)
Theorem held_messages_well_formed (history : list JSON) :
  let d := dispatch_all history dispatcher_init in
  Forall (fun m => status m = 1%N ∧ well_formed_message m) (messageList d) ∧
  ∀ m, currentInProgressMessage d = Some m →
       status m = 0%N ∧ well_formed_message m.
Proof.
  assert (∀ h d,
    (Forall (fun m => status m = 1%N ∧ well_formed_message m) (messageList d) ∧
     ∀ m, currentInProgressMessage d = Some m →
          status m = 0%N ∧ well_formed_message m) →
    Forall (fun m => status m = 1%N ∧ well_formed_message m)
           (messageList (dispatch_all h d)) ∧
    ∀ m, currentInProgressMessage (dispatch_all h d) = Some m →
         status m = 0%N ∧ well_formed_message m) as Hrun.
  { induction h as [|r h IH]; intros d Hd; [exact Hd|].
    simpl. apply IH. rewrite dispatch_new_message.
    destruct (new_message r (turnIdCounter d)) as [m|] eqn:Hm; [|exact Hd].
    destruct (new_message_well_formed r _ m Hm) as [Hwf Hstatus].
    destruct Hd as [Hlist Hslot].
    destruct (status m =? 1)%N eqn:Hs; simpl.
    - split; [|discriminate]. apply Forall_app. split; [exact Hlist|].
      apply Forall_singleton. split; [now apply N.eqb_eq|exact Hwf].
    - split; [exact Hlist|]. intros m' [= <-]. split; [|exact Hwf].
      apply N.eqb_neq in Hs. destruct Hstatus; [assumption|contradiction]. }
  intros d. apply Hrun. simpl. split; [constructor|discriminate].
Qed.

(** X4.  In every state reached from the initial one the turn ids of the
    finalized list are strictly ascending, hence pairwise different; a
    message in the slot is the newest one, its turn id being the counter
    less one and above every id of the list; and the list is never longer
    than the counter. *)
Theorem turn_ids_ascending (history : list JSON) :
  let d := dispatch_all history dispatcher_init in
  StronglySorted (fun a b => (turn_id a < turn_id b)%N) (messageList d) ∧
  NoDup (map turn_id (messageList d)) ∧
  (∀ m, currentInProgressMessage d = Some m →
        (turn_id m + 1 = turnIdCounter d)%N ∧
        Forall (fun a => (turn_id a < turn_id m)%N) (messageList d)) ∧
  (N.of_nat (length (messageList d)) <= turnIdCounter d)%N.
Proof.
  set (inv := fun d : Dispatcher =>
    StronglySorted (fun a b => (turn_id a < turn_id b)%N) (messageList d) ∧
    Forall (fun a => (turn_id a < turnIdCounter d)%N) (messageList d) ∧
    (∀ m, currentInProgressMessage d = Some m →
          (turn_id m + 1 = turnIdCounter d)%N ∧
          Forall (fun a => (turn_id a < turn_id m)%N) (messageList d)) ∧
    (N.of_nat (length (messageList d)) <= turnIdCounter d)%N).
  assert (∀ h d, inv d → inv (dispatch_all h d)) as Hrun.
  { induction h as [|r h IH]; intros d Hd; [exact Hd|].
    simpl. apply IH. rewrite dispatch_new_message.
    destruct (new_message r (turnIdCounter d)) as [m|] eqn:Hm; [|exact Hd].
    apply new_message_turn_id in Hm.
    destruct Hd as (Hsorted & Hbelow & Hslot & Hlen).
    destruct (status m =? 1)%N; unfold inv; simpl.
    - split; [|split; [|split]].
      + apply StronglySorted_app_2; [|exact Hsorted|repeat constructor].
        intros a b Ha Hb. apply list_elem_of_singleton in Hb as ->.
        rewrite Forall_forall in Hbelow. rewrite Hm. now apply Hbelow.
      + apply Forall_app. split.
        * eapply Forall_impl; [exact Hbelow|]. intros a Ha. simpl in Ha. lia.
        * apply Forall_singleton. lia.
      + discriminate.
      + rewrite length_app. simpl. lia.
    - split; [exact Hsorted|]. split; [|split].
      + eapply Forall_impl; [exact Hbelow|]. intros a Ha. simpl in Ha. lia.
      + intros m' [= <-]. split; [lia|]. now rewrite Hm.
      + lia. }
  intros d.
  destruct (Hrun history dispatcher_init) as (Hsorted & Hbelow & Hslot & Hlen).
  { unfold inv. simpl. repeat split; try constructor; discriminate. }
  fold d in Hsorted, Hbelow, Hslot, Hlen.
  split; [exact Hsorted|]. split; [|split; assumption].
  clear -Hsorted. induction Hsorted as [|a l _ IH Ha]; simpl; [constructor|].
  apply NoDup_cons. split; [|exact IH].
  intros Hin. apply list_elem_of_fmap in Hin as (b & Heq & Hb).
  rewrite Forall_forall in Ha. specialize (Ha b Hb). lia.
Qed.

(** X5.  [handleTenMessage] throws in exactly two cases: the parsed value is
    [null], or its [text] is a value other than a string that counts as true
    (a number whose double is not zero, [true], an array, an object), on
    which [trim] is no function.  On every other value, be it a number, a
    string, an array or an object without text, or an object whose text is a
    number literal so small that its double is zero, the call returns. *)
Theorem handleTenMessage_throws_iff (parsedMsg : JSON) (d : Dispatcher) :
  (∃ e, handleTenMessage parsedMsg d = Throw e) ↔
  parsedMsg = JNull ∨
  ∃ v, get parsedMsg "text" = Ok (Some v) ∧ truthy (Some v) = true ∧
       ∀ s, v ≠ JStr s.
Proof.
  unfold handleTenMessage.
  assert (∀ (A : Type) (a : A) (P : Prop),
            (P → False) → (∃ e : string, @Ok A a = Throw e) ↔ P) as Hreturns.
  { intros A a P HP. split; [intros [x He]; discriminate He|]. intros H.
    destruct (HP H). }
  destruct parsedMsg as [|b|m ex|str|l|props]; simpl;
    try (apply Hreturns; intros [H|(v & H & _)]; discriminate H).
  - split; [now left|]. intros _. eexists. reflexivity.
  - destruct (own_property props (js "text")) as [v|] eqn:Htext; simpl;
      [|apply Hreturns; intros [H|(w & Hw & _)]; discriminate].
    destruct v as [|b|m ex|str|l|l]; simpl.
    + apply Hreturns. intros [H|(w & [= <-] & Hw & _)]; discriminate.
    + destruct b; simpl.
      * split; [|intros _; eexists; reflexivity]. intros _. right.
        exists (JBool true). repeat split. discriminate.
      * apply Hreturns. intros [H|(w & [= <-] & Hw & _)]; discriminate.
    + destruct (rounds_to_zero m ex) eqn:Hm; simpl.
      * apply Hreturns. intros [H|(w & [= <-] & Hw & _)]; [discriminate|].
        simpl in Hw. rewrite Hm in Hw. discriminate.
      * split; [|intros _; eexists; reflexivity]. intros _. right.
        exists (JNum m ex). simpl. rewrite Hm. repeat split. discriminate.
    + assert (¬ (JObj props = JNull ∨
                 ∃ v, Ok (Some (JStr str)) = Ok (Some v) ∧
                      truthy (Some v) = true ∧ ∀ s, v ≠ JStr s)) as Hno.
      { intros [H|(w & [= <-] & _ & Hw)]; [discriminate|]. now destruct (Hw str). }
      destruct (negb (negb (bool_decide (str = [])))); [now apply Hreturns|].
      destruct (length (trim str) =? 0)%nat; [now apply Hreturns|].
      destruct (truthy (own_property props (js "is_final"))); now apply Hreturns.
    + split; [|intros _; eexists; reflexivity]. intros _. right.
      exists (JArr l). repeat split. discriminate.
    + split; [|intros _; eexists; reflexivity]. intros _. right.
      exists (JObj l). repeat split. discriminate.
Qed.

(** ** The fields of a payload *)

Lemma split_bar_free (s : string) : bar_free s = true → split "|" s = [s].
Proof.
  induction s as [|c s IH]; simpl; [reflexivity|].
  intros H. apply andb_true_iff in H as [Hc Hs].
  apply negb_true_iff in Hc. rewrite Hc, (IH Hs). reflexivity.
Qed.

Lemma split_field (a rest : string) :
  bar_free a = true → split "|" (a +:+ "|" +:+ rest) = a :: split "|" rest.
Proof.
  induction a as [|c a IH]; simpl; intros H; [reflexivity|].
  apply andb_true_iff in H as [Hc Ha].
  apply negb_true_iff in Hc. rewrite Hc, (IH Ha). reflexivity.
Qed.

Lemma split_nonempty (s : string) : ∃ f fs, split "|" s = f :: fs.
Proof.
  induction s as [|c s (f & fs & IH)]; simpl; [eauto|].
  destruct (Ascii.eqb c "|"); [eauto|]. rewrite IH. eauto.
Qed.

Lemma parse_chunk_fields (id index total : string) (rest : string) :
  bar_free id = true → bar_free index = true → bar_free total = true →
  parse_chunk (payload id index total rest) =
    if bool_decide (total = "???"%string) ||
       number_eqb (parseInt (Some total)) (Num (-1))
    then None
    else Some {| message_id := id;
                 part_index := parseInt (Some index);
                 total_parts := parseInt (Some total);
                 content := head (split "|" rest) |}.
Proof.
  intros Hid Hindex Htotal.
  unfold parse_chunk, payload, bytes, fromCharCode.
  rewrite string_of_list_byte_of_string.
  rewrite (split_field id _ Hid), (split_field index _ Hindex),
    (split_field total _ Htotal).
  destruct (split_nonempty rest) as (f & fs & ->). simpl.
  case_bool_decide as Hunknown.
  - injection Hunknown as ->. reflexivity.
  - rewrite bool_decide_eq_false_2 by congruence. simpl.
    now destruct (number_eqb (parseInt (Some total)) (Num (-1))).
Qed.

(** X6.  A payload in the documented format whose four fields hold no
    separator is taken apart into exactly those fields: the id and the
    content as they are, the index and the number of parts as [parseInt]
    reads them.  It is dropped exactly when the number of parts is the token
    for unknown or reads as -1. *)
Theorem payload_fields_recovered (id index total part : string) :
  bar_free id = true → bar_free index = true → bar_free total = true →
  bar_free part = true →
  parse_chunk (payload id index total part) =
    if bool_decide (total = "???"%string) ||
       number_eqb (parseInt (Some total)) (Num (-1))
    then None
    else Some {| message_id := id;
                 part_index := parseInt (Some index);
                 total_parts := parseInt (Some total);
                 content := Some part |}.
Proof.
  intros Hid Hindex Htotal Hpart.
  rewrite (parse_chunk_fields id index total part Hid Hindex Htotal).
  now rewrite (split_bar_free part Hpart).
Qed.

(** X7.  Only the first four fields count: whatever follows a further
    separator is dropped, so a content with a separator in it is cut off
    there. *)
Theorem payload_extra_fields_ignored (id index total part more : string) :
  bar_free id = true → bar_free index = true → bar_free total = true →
  bar_free part = true →
  parse_chunk (payload id index total (part +:+ "|" +:+ more)) =
  parse_chunk (payload id index total part).
Proof.
  intros Hid Hindex Htotal Hpart.
  rewrite !(parse_chunk_fields id index total _ Hid Hindex Htotal).
  now rewrite (split_field part more Hpart), (split_bar_free part Hpart).
Qed.

(** ** Numbers of parts that cannot be reached *)

Lemma unreachable_total_never_equal (total : number) (k : nat) :
  unreachable_total total →
  number_eqb (Num (Z.of_nat (S k))) total = false.
Proof.
  destruct total as [|n]; [reflexivity|]. simpl. intros Hn.
  unfold number_eqb. apply Z.eqb_neq. lia.
Qed.

Lemma ingest_unreachable (t : N) (ch : TextDataChunk) (c : Client) :
  unreachable_total (total_parts ch) →
  dispatcher (state_of (ingest t ch c)) = dispatcher c.
Proof.
  intros Htotal.
  destruct (cache_read (messageCache c) (message_id ch)) as [pending| |] eqn:Hread.
  - assert (messageCache c !! message_id ch = Some pending) as Hlookup.
    { unfold cache_read in Hread.
      destruct (messageCache c !! message_id ch); [congruence|].
      now case_bool_decide. }
    rewrite (ingest_pending t ch c pending Hlookup).
    rewrite length_app, Nat.add_1_r.
    now rewrite (unreachable_total_never_equal _ _ Htotal).
  - now rewrite (ingest_inherited t ch c Hread).
  - rewrite (ingest_unseen t ch c Hread).
    change (Num 1) with (Num (Z.of_nat 1)).
    now rewrite (unreachable_total_never_equal _ _ Htotal).
Qed.

(** X8.  Chunks whose number of parts is not a number (the field is missing
    or has no digits), is zero or is negative never complete a message:
    however many of them arrive, nothing is dispatched.  And the timer of
    such an entry, which holds at least the chunk that created it, always
    finds it incomplete and removes it. *)
Theorem unreachable_total_never_completes
  (arrivals : list (N * list Byte.byte)) (chunks : list TextDataChunk) (c : Client) :
  Forall2 parses_to arrivals chunks →
  Forall (fun ch => unreachable_total (total_parts ch)) chunks →
  dispatcher (receive_all c arrivals) = dispatcher c ∧
  ∀ (id : string) (total : number) (c' : Client),
    unreachable_total total → messageCache c' !! id ≠ Some [] →
    messageCache (evict id total c') !! id = None.
Proof.
  intros Hparse Hall. split.
  - revert c. induction Hparse as [|[t data] ch arrivals chunks Hp _ IH]; intros c;
      [reflexivity|].
    apply Forall_cons in Hall as [Hch Hall]. simpl.
    rewrite (IH Hall). rewrite (receive_parsed c t data ch Hp).
    now apply ingest_unreachable.
  - intros id total c' Htotal Hnonempty. unfold evict.
    destruct (messageCache c' !! id) as [pending|] eqn:Hlookup; [|exact Hlookup].
    destruct pending as [|x pending]; [congruence|].
    simpl length. rewrite (unreachable_total_never_equal _ _ Htotal). simpl.
    apply lookup_delete_eq.
Qed.

(** ** The order of the sorted chunks *)

Lemma sort_insert_stable (x : TextDataChunk) (l : list TextDataChunk) (p : Z) :
  filter (has_index p) (sort_insert x l) = filter (has_index p) (x :: l).
Proof.
  induction l as [|y l IH]; simpl; [reflexivity|].
  destruct (compare_positive x y) eqn:Hcmp; [|reflexivity].
  rewrite filter_cons, IH, !filter_cons.
  unfold compare_positive in Hcmp.
  destruct (part_index x) as [|px] eqn:Hx; [discriminate|].
  destruct (part_index y) as [|py] eqn:Hy; [discriminate|].
  apply Z.ltb_lt in Hcmp.
  destruct (decide (has_index p y)) as [Hpy|Hpy]; [|reflexivity].
  destruct (decide (has_index p x)) as [Hpx|Hpx]; [|reflexivity].
  unfold has_index in Hpy, Hpx. rewrite Hx in Hpx. rewrite Hy in Hpy.
  injection Hpx as ->. injection Hpy as ->. lia.
Qed.

Lemma index_le_trans (a b c : TextDataChunk) :
  index_le a b → index_le b c → index_le a c.
Proof.
  intros (x & y & Ha & Hb & Hxy) (y' & z & Hb' & Hc & Hyz).
  rewrite Hb in Hb'. injection Hb' as <-.
  exists x, z. repeat split; try assumption. lia.
Qed.

Lemma sort_insert_ascending (x : TextDataChunk) (l : list TextDataChunk) :
  (∃ p : Z, part_index x = Num p) →
  Forall (fun y => ∃ q : Z, part_index y = Num q) l →
  StronglySorted index_le l →
  StronglySorted index_le (sort_insert x l).
Proof.
  intros [p Hx] Hl Hsorted.
  induction l as [|y l IH]; simpl; [repeat constructor|].
  apply Forall_cons in Hl as [[q Hy] Hl].
  apply StronglySorted_cons in Hsorted as [Hyl Hsorted].
  unfold compare_positive. rewrite Hx, Hy.
  destruct (0 <? p - q)%Z eqn:Hcmp.
  - apply Z.ltb_lt in Hcmp. apply StronglySorted_cons. split; [|now apply IH].
    rewrite sort_insert_Permutation. apply Forall_cons. split; [|exact Hyl].
    exists q, p. repeat split; try assumption. lia.
  - apply Z.ltb_ge in Hcmp.
    assert (index_le x y) as Hxy by (exists p, q; repeat split; try assumption; lia).
    apply StronglySorted_cons. split.
    + apply Forall_cons. split; [exact Hxy|].
      eapply Forall_impl; [exact Hyl|]. intros z Hz.
      now apply (index_le_trans x y z).
    + apply StronglySorted_cons. now split.
Qed.

Lemma sort_stable (l : list TextDataChunk) (p : Z) :
  filter (has_index p) (sort l) = filter (has_index p) l.
Proof.
  induction l as [|x l IH]; [reflexivity|].
  simpl sort. rewrite sort_insert_stable, !filter_cons, IH. reflexivity.
Qed.

Lemma sort_ascending (l : list TextDataChunk) :
  Forall (fun ch => ∃ p : Z, part_index ch = Num p) l →
  StronglySorted index_le (sort l).
Proof.
  induction l as [|x l IH]; intros Hnum; simpl; [constructor|].
  apply Forall_cons in Hnum as [Hx Hnum].
  apply sort_insert_ascending; [exact Hx| |now apply IH].
  now rewrite sort_Permutation.
Qed.

(** Two lists in ascending order of index that hold, for every index, the
    same chunks in the same order are the same list. *)
Lemma ascending_stable_unique (l1 l2 : list TextDataChunk) :
  StronglySorted index_le l1 → StronglySorted index_le l2 →
  Forall (fun ch => ∃ p : Z, part_index ch = Num p) l1 →
  Forall (fun ch => ∃ p : Z, part_index ch = Num p) l2 →
  (∀ p : Z, filter (has_index p) l1 = filter (has_index p) l2) →
  l1 = l2.
Proof.
  intros Hs1. revert l2.
  induction Hs1 as [|a t1 Hs1 IH Ha]; intros l2 Hs2 Hn1 Hn2 Hfilter.
  - destruct l2 as [|b t2]; [reflexivity|]. exfalso.
    apply Forall_cons in Hn2 as [[q Hb] _].
    specialize (Hfilter q). simpl in Hfilter.
    rewrite filter_cons, decide_True in Hfilter by exact Hb. discriminate.
  - apply Forall_cons in Hn1 as [[p Hp] Hn1].
    destruct l2 as [|b t2].
    { exfalso. specialize (Hfilter p).
      rewrite filter_cons, decide_True in Hfilter by exact Hp. discriminate. }
    apply Forall_cons in Hn2 as [[q Hq] Hn2].
    apply StronglySorted_cons in Hs2 as [Hb Hs2].
    assert (q <= p)%Z as Hqp.
    { pose proof (Hfilter p) as Hf.
      rewrite filter_cons, decide_True in Hf by exact Hp.
      assert (a ∈ filter (has_index p) (b :: t2)) as Hin by (rewrite <- Hf; left).
      apply list_elem_of_filter in Hin as [_ Hin].
      apply elem_of_cons in Hin as [->|Hin]; [rewrite Hp in Hq; injection Hq; lia|].
      rewrite Forall_forall in Hb. destruct (Hb a Hin) as (x & y & Hx & Hy & Hxy).
      rewrite Hq in Hx. rewrite Hp in Hy. injection Hx as <-. injection Hy as <-.
      exact Hxy. }
    assert (p <= q)%Z as Hpq.
    { pose proof (Hfilter q) as Hf.
      rewrite (filter_cons _ b), decide_True in Hf by exact Hq.
      assert (b ∈ filter (has_index q) (a :: t1)) as Hin by (rewrite Hf; left).
      apply list_elem_of_filter in Hin as [_ Hin].
      apply elem_of_cons in Hin as [->|Hin]; [rewrite Hp in Hq; injection Hq; lia|].
      rewrite Forall_forall in Ha. destruct (Ha b Hin) as (x & y & Hx & Hy & Hxy).
      rewrite Hp in Hx. rewrite Hq in Hy. injection Hx as <-. injection Hy as <-.
      exact Hxy. }
    assert (q = p) as -> by lia.
    pose proof (Hfilter p) as Hhead.
    rewrite !filter_cons, !decide_True in Hhead by assumption.
    injection Hhead as <- Htail. f_equal.
    apply IH; try assumption.
    intros r. destruct (decide (r = p)) as [->|Hne]; [exact Htail|].
    specialize (Hfilter r).
    rewrite !filter_cons, !decide_False in Hfilter; [exact Hfilter| |];
      unfold has_index; rewrite Hp; congruence.
Qed.

(** The result of the sort is determined by what the language asks of it:
    for chunks whose indices are numbers, every list that holds the same
    chunks, in ascending order of index and with the chunks of each index
    in the order they had, is the list this function gives. *)
Lemma sort_determined (l l' : list TextDataChunk) :
  Forall (fun ch => ∃ p : Z, part_index ch = Num p) l →
  l' ≡ₚ l → StronglySorted index_le l' →
  (∀ p : Z, filter (has_index p) l' = filter (has_index p) l) →
  l' = sort l.
Proof.
  intros Hnum Hperm Hsorted Hstable.
  apply ascending_stable_unique.
  - exact Hsorted.
  - now apply sort_ascending.
  - now rewrite Hperm.
  - now rewrite sort_Permutation.
  - intros p. now rewrite sort_stable.
Qed.

(** X13.  For chunks whose indices are numbers, the sort keeps every chunk,
    puts the indices in ascending order and leaves the chunks of each index
    in their order of arrival; and it is the only list that does, so that
    every engine joins the chunks in this order. *)
Theorem sort_ascending_and_stable (l : list TextDataChunk) :
  Forall (fun ch => ∃ p : Z, part_index ch = Num p) l →
  sort l ≡ₚ l ∧
  StronglySorted index_le (sort l) ∧
  (∀ p : Z, filter (has_index p) (sort l) = filter (has_index p) l) ∧
  ∀ l' : list TextDataChunk,
    l' ≡ₚ l → StronglySorted index_le l' →
    (∀ p : Z, filter (has_index p) l' = filter (has_index p) l) →
    l' = sort l.
Proof.
  intros Hnum.
  split; [apply sort_Permutation|]. split; [now apply sort_ascending|].
  split; [intros p; apply sort_stable|].
  intros l'. now apply sort_determined.
Qed.

(** ** Completion counts arrivals *)


(** ** Messages in mixed traffic *)

Lemma receive_other_lookup (id : string) (c : Client) (t : N)
  (data : list Byte.byte) :
  (∀ ch, parse_chunk data = Some ch → message_id ch ≠ id) →
  messageCache (receive c (t, data)) !! id = messageCache c !! id.
Proof.
  intros Hother.
  destruct (parse_chunk data) as [ch|] eqn:Hparse.
  - rewrite (receive_parsed c t data ch Hparse).
    apply ingest_other_lookup. now apply Hother.
  - now rewrite (receive_dropped c t data Hparse).
Qed.

(** X10.  Messages are buffered independently of each other.  Whatever else
    arrives in between (chunks of other ids, complete or not, dropped
    payloads, payloads the handler throws on), the chunks of [id] pile up in
    its entry in their order of arrival, as long as they do not complete
    it. *)
Theorem entry_unaffected_by_other_traffic
  (id : string) (n : Z) (arrivals : list (N * list Byte.byte))
  (c : Client) (pre : list TextDataChunk) :
  messageCache c !! id = Some pre →
  Forall (fun ch => total_parts ch = Num n) (chunks_of id arrivals) →
  (Z.of_nat (length pre + length (chunks_of id arrivals)) < n)%Z →
  messageCache (receive_all c arrivals) !! id = Some (pre ++ chunks_of id arrivals).
Proof.
  revert c pre. induction arrivals as [|[t data] arrivals IH]; intros c pre Hpre Hall Hlen.
  - unfold chunks_of. simpl. now rewrite app_nil_r.
  - simpl receive_all.
    destruct (parse_chunk data) as [ch|] eqn:Hparse.
    + destruct (decide (message_id ch = id)) as [Hid|Hne].
      * assert (chunks_of id ((t, data) :: arrivals) = ch :: chunks_of id arrivals)
          as Hmine.
        { unfold chunks_of. simpl. rewrite Hparse. simpl.
          now rewrite filter_cons, decide_True by exact Hid. }
        rewrite Hmine in *. apply Forall_cons in Hall as [Htotal Hall].
        simpl in Hlen.
        change (foldl receive (receive c (t, data)) arrivals)
          with (receive_all (receive c (t, data)) arrivals).
        rewrite (IH (receive c (t, data)) (pre ++ [ch])).
        -- now rewrite <- app_assoc.
        -- rewrite (receive_parsed c t data ch Hparse).
           rewrite (ingest_pending t ch c pre) by now rewrite Hid.
           rewrite Htotal.
           assert (number_eqb (Num (Z.of_nat (length (pre ++ [ch])))) (Num n) = false)
             as ->.
           { unfold number_eqb. apply Z.eqb_neq. rewrite length_app. simpl. lia. }
           simpl. rewrite Hid. apply lookup_insert_eq.
        -- exact Hall.
        -- rewrite length_app. simpl. lia.
      * assert (chunks_of id ((t, data) :: arrivals) = chunks_of id arrivals) as Hmine.
        { unfold chunks_of. simpl. rewrite Hparse. simpl.
          now rewrite filter_cons, decide_False by exact Hne. }
        rewrite Hmine in *.
        change (foldl receive (receive c (t, data)) arrivals)
          with (receive_all (receive c (t, data)) arrivals).
        apply IH; try assumption.
        rewrite receive_other_lookup; [exact Hpre|].
        intros ch' Hch'. congruence.
    + assert (chunks_of id ((t, data) :: arrivals) = chunks_of id arrivals) as Hmine.
      { unfold chunks_of. simpl. now rewrite Hparse. }
      rewrite Hmine in *.
      change (foldl receive (receive c (t, data)) arrivals)
        with (receive_all (receive c (t, data)) arrivals).
      rewrite (receive_dropped c t data Hparse). now apply IH.
Qed.

(** ** Timers that outlive their message *)

(** X11.  No timer is ever cleared, so the timer of a message that was
    completed stays pending.  When a new message with the same id starts
    before that timer is due, the old timer runs against the new entry: with
    the first message in [n] parts, [n] not 1, the new entry, holding one
    chunk, is deleted at the old deadline [t1 + 5000], before its own
    deadline [t2 + 5000], and its own timer is still pending then. *)
Theorem stale_timer_evicts_early
  (c : Client) (id : string) (arrived : list TextDataChunk)
  (t1 : N) (d1 : list Byte.byte) (arrivals : list (N * list Byte.byte))
  (t2 : N) (d2 : list Byte.byte) (again : TextDataChunk) :
  cache_read (messageCache c) id = Absent →
  Forall (fun ch => message_id ch = id ∧
                    total_parts ch = Num (Z.of_nat (length arrived))) arrived →
  Forall2 parses_to ((t1, d1) :: arrivals) arrived →
  length arrived ≠ 1%nat →
  parse_chunk d2 = Some again → message_id again = id →
  total_parts again ≠ Num 1 →
  (t1 < t2)%N →
  let c2 := receive (receive_all c ((t1, d1) :: arrivals)) (t2, d2) in
  messageCache c2 !! id = Some [again] ∧
  messageCache (advance (t1 + 5000) c2) !! id = None ∧
  eviction_timer t2 id (total_parts again) ∈ timers (advance (t1 + 5000) c2).
Proof.
  intros Habs Hall Hparse Hlen Hp2 Hid2 Htot2 Ht c2.
  destruct (reassembly_run c id arrived t1 d1 arrivals Habs Hall Hparse)
    as [_ Hrun].
  assert (number_eqb (Num 1) (total_parts again) = false) as Hone.
  { destruct (total_parts again) as [|z]; [reflexivity|].
    unfold number_eqb. apply Z.eqb_neq. intros <-. now apply Htot2. }
  assert (c2 =
    {| messageCache := <[id := [again]]> (messageCache c);
       timers := (timers c ++
                   [eviction_timer t1 id (Num (Z.of_nat (length arrived)))]) ++
                 [eviction_timer t2 id (total_parts again)];
       dispatcher :=
         try_dispatch (join_contents (sort arrived)) (dispatcher c) |}) as Hc2.
  { subst c2. rewrite Hrun, (receive_parsed _ t2 d2 again Hp2).
    rewrite ingest_unseen by (simpl; now rewrite Hid2).
    rewrite Hone, Hid2. reflexivity. }
  split; [rewrite Hc2; simpl; apply lookup_insert_eq|]. split.
  - apply (advance_evicts (t1 + 5000) c2
             (eviction_timer t1 id (Num (Z.of_nat (length arrived)))) [again]).
    + rewrite Hc2. simpl. rewrite !elem_of_app, !list_elem_of_singleton. auto.
    + simpl. lia.
    + rewrite Hc2. simpl. apply lookup_insert_eq.
    + simpl. unfold number_eqb. apply Z.eqb_neq. lia.
  - rewrite advance_timers, list_elem_of_filter. split.
    + simpl. apply N.leb_gt. lia.
    + rewrite Hc2. simpl. rewrite !elem_of_app, !list_elem_of_singleton. auto.
Qed.

(** ** The clock *)

Lemma evict_cache (id : string) (total : number) (c : Client) :
  messageCache (evict id total c) =
  match messageCache c !! id with
  | Some chunks =>
      if number_eqb (Num (Z.of_nat (length chunks))) total then messageCache c
      else delete id (messageCache c)
  | None => messageCache c
  end.
Proof.
  unfold evict. destruct (messageCache c !! id); [|reflexivity].
  now destruct (number_eqb _ total).
Qed.

Lemma client_eq (c c' : Client) :
  messageCache c = messageCache c' → timers c = timers c' →
  dispatcher c = dispatcher c' → c = c'.
Proof. destruct c, c'. simpl. now intros -> -> ->. Qed.

(** Two timer callbacks commute: a callback only deletes, and what it
    compares the entry's length with is not changed by another deletion. *)
Lemma fire_commute (c : Client) (a b : Timer) :
  fire (fire c a) b = fire (fire c b) a.
Proof.
  unfold fire. apply client_eq.
  - rewrite !evict_cache.
    destruct (decide (timer_message_id a = timer_message_id b)) as [Heq|Hne].
    + rewrite Heq.
      destruct (messageCache c !! timer_message_id b) as [chunks|] eqn:Hl;
        [|now rewrite !Hl].
      destruct (number_eqb _ (timer_total_parts a)) eqn:Ha;
        destruct (number_eqb _ (timer_total_parts b)) eqn:Hb;
        rewrite ?Hl, ?Ha, ?Hb, ?lookup_delete_eq; reflexivity.
    + assert (∀ m : gmap string (list TextDataChunk),
                delete (timer_message_id a) m !! timer_message_id b =
                m !! timer_message_id b) as Hab
        by (intros m; now apply lookup_delete_ne).
      assert (∀ m : gmap string (list TextDataChunk),
                delete (timer_message_id b) m !! timer_message_id a =
                m !! timer_message_id a) as Hba
        by (intros m; apply lookup_delete_ne; congruence).
      destruct (messageCache c !! timer_message_id a) as [ca|] eqn:Hla;
        destruct (messageCache c !! timer_message_id b) as [cb|] eqn:Hlb;
        try destruct (number_eqb (Num (Z.of_nat (length ca))) (timer_total_parts a))
          eqn:Ha;
        try destruct (number_eqb (Num (Z.of_nat (length cb))) (timer_total_parts b))
          eqn:Hb;
        rewrite ?Hab, ?Hba, ?Hla, ?Hlb, ?Ha, ?Hb; try reflexivity.
      apply delete_delete.
  - now rewrite !evict_timers.
  - now rewrite !evict_dispatcher.
Qed.

Lemma fire_all_Permutation (l l' : list Timer) :
  l ≡ₚ l' → ∀ c, foldl fire c l = foldl fire c l'.
Proof.
  induction 1 as [|x l l' _ IH|x y l|l l' l'' _ IH1 _ IH2]; intros c; simpl.
  - reflexivity.
  - apply IH.
  - now rewrite fire_commute.
  - now rewrite IH1, IH2.
Qed.

Lemma fire_all_cache (l : list Timer) (c c' : Client) :
  messageCache c = messageCache c' →
  messageCache (foldl fire c l) = messageCache (foldl fire c' l).
Proof.
  revert c c'. induction l as [|tm l IH]; intros c c' H; simpl; [exact H|].
  apply IH. unfold fire. rewrite !evict_cache, H. reflexivity.
Qed.

Lemma due_split (t t' : N) (l : list Timer) :
  (t <= t')%N →
  filter (fun tm => (due tm <=? t')%N = true) l ≡ₚ
  filter (fun tm => (due tm <=? t)%N = true) l ++
  filter (fun tm => (due tm <=? t')%N = true)
         (filter (fun tm => (due tm <=? t)%N = false) l).
Proof.
  intros Ht. induction l as [|tm l IH]; [reflexivity|].
  rewrite !filter_cons.
  destruct (due tm <=? t)%N eqn:H1; destruct (due tm <=? t')%N eqn:H2.
  - rewrite !decide_True by reflexivity. rewrite decide_False by discriminate.
    simpl. now rewrite IH.
  - apply N.leb_le in H1. apply N.leb_gt in H2. lia.
  - rewrite (decide_False (P := false = true)) by discriminate.
    rewrite !decide_True by reflexivity.
    rewrite filter_cons, decide_True by exact H2.
    rewrite IH. now rewrite Permutation_middle.
  - rewrite !(decide_False (P := false = true)) by discriminate.
    rewrite decide_True by reflexivity.
    rewrite filter_cons, decide_False by (rewrite H2; discriminate).
    exact IH.
Qed.

Lemma later_later (t t' : N) (l : list Timer) :
  (t <= t')%N →
  filter (fun tm => (due tm <=? t')%N = false)
         (filter (fun tm => (due tm <=? t)%N = false) l) =
  filter (fun tm => (due tm <=? t')%N = false) l.
Proof.
  intros Ht. induction l as [|tm l IH]; [reflexivity|].
  rewrite !filter_cons.
  destruct (due tm <=? t)%N eqn:H1; destruct (due tm <=? t')%N eqn:H2.
  - rewrite !(decide_False (P := true = false)) by discriminate. exact IH.
  - apply N.leb_le in H1. apply N.leb_gt in H2. lia.
  - rewrite decide_True by reflexivity.
    rewrite (decide_False (P := true = false)) by discriminate.
    rewrite filter_cons, decide_False by (rewrite H2; discriminate). exact IH.
  - rewrite !decide_True by reflexivity.
    rewrite filter_cons, decide_True by exact H2. now rewrite IH.
Qed.

(** X12.  A step of the clock fires callbacks that only delete: the entries
    afterwards are among those before, the dispatcher is untouched, and the
    timers left are those due later.  The callbacks commute, so the state at
    time [t'] does not depend on the times at which the clock was looked at
    on the way: going to [t] and then on to [t'] is going to [t'] at once. *)
Theorem clock_steps_compose (t t' : N) (c : Client) :
  (t <= t')%N →
  advance t' (advance t c) = advance t' c ∧
  messageCache (advance t c) ⊆ messageCache c ∧
  dispatcher (advance t c) = dispatcher c ∧
  ∀ tm, tm ∈ timers (advance t c) ↔ tm ∈ timers c ∧ (t < due tm)%N.
Proof.
  intros Ht. split; [|split; [|split]].
  - apply client_eq.
    + unfold advance at 1 3.
      rewrite advance_timers.
      rewrite (fire_all_Permutation _ _ (due_split t t' (timers c) Ht)).
      rewrite foldl_app.
      apply fire_all_cache.
      unfold advance. apply fire_all_cache. reflexivity.
    + rewrite !advance_timers. now apply later_later.
    + now rewrite !advance_dispatcher.
  - unfold advance.
    generalize (filter (fun tm => (due tm <=? t)%N = true) (timers c)).
    generalize (filter (fun tm => (due tm <=? t)%N = false) (timers c)).
    intros later l.
    change (messageCache c) with
      (messageCache {| messageCache := messageCache c; timers := later;
                       dispatcher := dispatcher c |}) at 2.
    generalize ({| messageCache := messageCache c; timers := later;
                   dispatcher := dispatcher c |}).
    induction l as [|tm l IH] using rev_ind; intros c0; [reflexivity|].
    rewrite foldl_app. simpl. unfold fire at 1. rewrite evict_cache.
    destruct (messageCache (foldl fire c0 l) !! timer_message_id tm);
      [|apply IH].
    destruct (number_eqb _ _); [apply IH|].
    etransitivity; [apply delete_subseteq|apply IH].
  - apply advance_dispatcher.
  - intros tm. rewrite advance_timers, list_elem_of_filter.
    rewrite N.leb_gt. tauto.
Qed.

(** ** What the cache holds *)

Lemma parse_chunk_total (data : list Byte.byte) (ch : TextDataChunk) :
  parse_chunk data = Some ch → total_parts ch ≠ Num (-1).
Proof.
  unfold parse_chunk.
  match goal with |- context [number_eqb ?a ?b] => destruct (number_eqb a b) eqn:H end;
    [discriminate|].
  intros [= <-]. simpl. intros Heq. rewrite Heq in H. discriminate.
Qed.

Lemma cache_read_chunks (cache : gmap string (list TextDataChunk)) (id : string)
  (chunks : list TextDataChunk) :
  cache_read cache id = Chunks chunks → cache !! id = Some chunks.
Proof.
  unfold cache_read. destruct (cache !! id); [congruence|]. now case_bool_decide.
Qed.

Lemma cache_invariant_insert (cache : gmap string (list TextDataChunk))
  (id : string) (chunks : list TextDataChunk) :
  cache_invariant cache → entry_invariant id chunks →
  cache_invariant (<[id := chunks]> cache).
Proof.
  intros Hc He id' chunks'. destruct (decide (id = id')) as [<-|Hne].
  - rewrite lookup_insert_eq. now intros [= <-].
  - rewrite lookup_insert_ne by exact Hne. apply Hc.
Qed.

Lemma cache_invariant_delete (cache : gmap string (list TextDataChunk)) (id : string) :
  cache_invariant cache → cache_invariant (delete id cache).
Proof.
  intros Hc id' chunks'. destruct (decide (id = id')) as [<-|Hne].
  - now rewrite lookup_delete_eq.
  - rewrite lookup_delete_ne by exact Hne. apply Hc.
Qed.

Lemma number_eqb_false (k : nat) (total : number) :
  number_eqb (Num (Z.of_nat k)) total = false → total ≠ Num (Z.of_nat k).
Proof.
  intros H ->. unfold number_eqb in H. now rewrite Z.eqb_refl in H.
Qed.

Lemma receive_cache_invariant (c : Client) (t : N) (data : list Byte.byte) :
  cache_invariant (messageCache c) →
  cache_invariant (messageCache (receive c (t, data))).
Proof.
  intros Hc.
  destruct (parse_chunk data) as [ch|] eqn:Hparse;
    [|now rewrite (receive_dropped c t data Hparse)].
  rewrite (receive_parsed c t data ch Hparse).
  pose proof (parse_chunk_total data ch Hparse) as Htotal.
  destruct (cache_read (messageCache c) (message_id ch)) as [pending| |] eqn:Hread.
  - apply cache_read_chunks in Hread.
    rewrite (ingest_pending t ch c pending Hread).
    destruct (number_eqb _ (total_parts ch)) eqn:Heq; simpl.
    + now apply cache_invariant_delete.
    + apply cache_invariant_insert; [exact Hc|].
      destruct (Hc _ _ Hread) as (Hkey & _ & Hall & _).
      split; [exact Hkey|]. split; [now destruct pending|]. split.
      * apply Forall_app. split; [exact Hall|]. now apply Forall_singleton.
      * intros ch'. rewrite last_snoc. intros [= <-].
        now apply number_eqb_false.
  - now rewrite (ingest_inherited t ch c Hread).
  - rewrite (ingest_unseen t ch c Hread).
    destruct (number_eqb (Num 1) (total_parts ch)) eqn:Heq; simpl; [exact Hc|].
    apply cache_invariant_insert; [exact Hc|].
    apply cache_read_absent in Hread as [_ Hkey].
    split; [exact Hkey|]. split; [discriminate|]. split.
    + now apply Forall_singleton.
    + intros ch' [= <-]. now apply (number_eqb_false 1).
Qed.

Lemma fire_cache_invariant (c : Client) (tm : Timer) :
  cache_invariant (messageCache c) → cache_invariant (messageCache (fire c tm)).
Proof.
  intros Hc. unfold fire. rewrite evict_cache.
  destruct (messageCache c !! timer_message_id tm); [|exact Hc].
  destruct (number_eqb _ _); [exact Hc|]. now apply cache_invariant_delete.
Qed.

Lemma fire_all_cache_invariant (l : list Timer) (c : Client) :
  cache_invariant (messageCache c) →
  cache_invariant (messageCache (foldl fire c l)).
Proof.
  revert c. induction l as [|tm l IH]; intros c Hc; simpl; [exact Hc|].
  apply IH. now apply fire_cache_invariant.
Qed.

(** X14.  In every state reached from the initial one by stream messages,
    timers and leaving the channel, each entry of the cache is under a key
    that is no member of [Object.prototype], holds at least one chunk, holds
    only chunks that carry its key and a number of parts other than -1, and
    is not complete by the count of the chunk pushed last. *)
Theorem reachable_cache_invariant (c : Client) :
  reachable c → cache_invariant (messageCache c).
Proof.
  induction 1 as [|c t data _ IH|c tm _ IH|c t _ IH|c left _ IH].
  - intros id chunks. simpl. now rewrite lookup_empty.
  - now apply receive_cache_invariant.
  - now apply fire_cache_invariant.
  - unfold advance. now apply fire_all_cache_invariant.
  - destruct left as [[]|e]; [|exact IH].
    intros id chunks. simpl. now rewrite lookup_empty.
Qed.

(** ** Entries no timer removes *)



(** ** Voice activity over a run of readings *)

Section VoiceActivityRuns.
Local Open Scope Q_scope.

Lemma push_volume_length (vs : list Q) (v : Q) :
  (length vs <= 3)%nat →
  (1 <= length (push_volume vs v))%nat ∧ (length (push_volume vs v) <= 3)%nat.
Proof.
  intros Hlen. unfold push_volume.
  destruct (3 <? length (vs ++ [v]))%nat eqn:Hfull.
  - apply Nat.ltb_lt in Hfull. rewrite length_app in Hfull. simpl in Hfull.
    destruct vs as [|a vs]; [simpl in Hfull; lia|].
    simpl in *. rewrite length_app. simpl. lia.
  - apply Nat.ltb_ge in Hfull. rewrite length_app in *. simpl in *. lia.
Qed.

(** X16.  After any readings from the initial state the window holds at
    most three readings, and the state agrees with the window: while
    speaking, a window of two or more readings is not all zero; while
    listening, a window of two or more readings has no positive reading. *)
Theorem window_agrees_with_state (samples : list Q) :
  let s := volume_checks samples voice_init in
  (length (volumes s) <= 3)%nat ∧
  (isAgentSpeaking s = true →
   ¬ ((2 <= length (volumes s))%nat ∧ Forall (fun x => x == 0) (volumes s))) ∧
  (isAgentSpeaking s = false →
   ¬ ((2 <= length (volumes s))%nat ∧ Exists (fun x => 0 < x) (volumes s))).
Proof.
  set (inv := fun s : VoiceActivity =>
    (length (volumes s) <= 3)%nat ∧
    (isAgentSpeaking s = true →
     ¬ ((2 <= length (volumes s))%nat ∧ Forall (fun x => x == 0) (volumes s))) ∧
    (isAgentSpeaking s = false →
     ¬ ((2 <= length (volumes s))%nat ∧ Exists (fun x => 0 < x) (volumes s)))).
  assert (∀ l s, inv s → inv (volume_checks l s)) as Hrun.
  { induction l as [|v l IH]; intros s Hs; [exact Hs|].
    simpl. apply IH. destruct Hs as (Hlen & _ & _).
    destruct (push_volume_length (volumes s) v Hlen) as [_ Hw].
    assert (inv {| volumes := []; isAgentSpeaking := true |}) as Hup
      by (unfold inv; simpl; repeat split; try lia; intros _ [? _]; lia).
    assert (inv {| volumes := []; isAgentSpeaking := false |}) as Hdown
      by (unfold inv; simpl; repeat split; try lia; intros _ [? _]; lia).
    destruct (isAgentSpeaking s) eqn:Hstate.
    - rewrite (volume_check_speaking v s Hstate).
      destruct ((2 <=? length (push_volume (volumes s) v))%nat &&
                forallb is_zero (push_volume (volumes s) v)) eqn:Hzero;
        [exact Hdown|].
      unfold inv. simpl. split; [exact Hw|]. split; [|discriminate].
      intros _ [H2 Hall]. apply Nat.leb_le in H2. apply forallb_is_zero in Hall.
      rewrite H2, Hall in Hzero. discriminate.
    - rewrite (volume_check_listening v s Hstate).
      destruct ((2 <=? length (push_volume (volumes s) v))%nat &&
                existsb is_positive (push_volume (volumes s) v)) eqn:Hsound;
        [exact Hup|].
      unfold inv. simpl. split; [exact Hw|]. split; [discriminate|].
      intros _ [H2 Hex]. apply Nat.leb_le in H2. apply existsb_is_positive in Hex.
      rewrite H2, Hex in Hsound. discriminate. }
  apply Hrun. unfold inv, voice_init. simpl.
  repeat split; try lia; intros _ [? _]; lia.
Qed.

Lemma zero_not_positive (v : Q) : v == 0 → is_positive v = false.
Proof.
  intros Hv. apply not_true_iff_false. rewrite is_positive_spec. lra.
Qed.

Lemma no_positive_among_zeros (w : list Q) :
  Forall (fun x => x == 0) w → existsb is_positive w = false.
Proof.
  induction 1 as [|x w Hx _ IH]; simpl; [reflexivity|].
  now rewrite (zero_not_positive x Hx), IH.
Qed.

Lemma push_volume_Forall (P : Q → Prop) (vs : list Q) (v : Q) :
  Forall P vs → P v → Forall P (push_volume vs v).
Proof.
  intros Hvs Hv. unfold push_volume.
  assert (Forall P (vs ++ [v])) as Hall
    by (apply Forall_app; split; [exact Hvs|now apply Forall_singleton]).
  destruct (3 <? length (vs ++ [v]))%nat; [|exact Hall].
  destruct (vs ++ [v]); [constructor|]. simpl. now apply Forall_cons in Hall as [_ ?].
Qed.

(** The window after three readings pushed onto a window of at most three
    holds those three readings alone. *)
Lemma push_three (vs : list Q) (a b c : Q) :
  (length vs <= 3)%nat →
  push_volume (push_volume (push_volume vs a) b) c = [a; b; c].
Proof.
  intros Hlen.
  destruct vs as [|x [|y [|z [|u l]]]]; try reflexivity. simpl in Hlen. lia.
Qed.

(** Listening with a window of zeros only is kept by a zero reading. *)
Lemma silence_kept (z : Q) (s : VoiceActivity) :
  isAgentSpeaking s = false → Forall (fun x => x == 0) (volumes s) → z == 0 →
  volume_check z s =
    {| volumes := push_volume (volumes s) z; isAgentSpeaking := false |}.
Proof.
  intros Hs Hall Hz. rewrite (volume_check_listening z s Hs).
  rewrite (no_positive_among_zeros (push_volume (volumes s) z))
    by now apply push_volume_Forall.
  now rewrite andb_false_r.
Qed.

(** X17.  Three or more zero readings in a row always end in the listening
    state, whatever the state and the window of at most three readings they
    start from, and the window then holds zeros only. *)
Theorem sustained_silence_stops_speaking (zeros : list Q) (s : VoiceActivity) :
  (length (volumes s) <= 3)%nat →
  Forall (fun z => z == 0) zeros → (3 <= length zeros)%nat →
  isAgentSpeaking (volume_checks zeros s) = false ∧
  Forall (fun x => x == 0) (volumes (volume_checks zeros s)).
Proof.
  intros Hlen Hzeros H3.
  set (quiet := fun s : VoiceActivity =>
    isAgentSpeaking s = false ∧ Forall (fun x => x == 0) (volumes s)).
  assert (∀ l s, Forall (fun z => z == 0) l → quiet s → quiet (volume_checks l s))
    as Hrun.
  { induction l as [|z l IH]; intros s0 Hl Hs0; [exact Hs0|].
    apply Forall_cons in Hl as [Hz Hl]. simpl. apply IH; [exact Hl|].
    destruct Hs0 as [Hstate Hall].
    rewrite (silence_kept z s0 Hstate Hall Hz). split; [reflexivity|].
    simpl. now apply push_volume_Forall. }
  destruct zeros as [|z1 [|z2 [|z3 rest]]]; simpl in H3; try lia.
  apply Forall_cons in Hzeros as [Hz1 Hzeros].
  apply Forall_cons in Hzeros as [Hz2 Hzeros].
  apply Forall_cons in Hzeros as [Hz3 Hzeros].
  change (volume_checks (z1 :: z2 :: z3 :: rest) s) with
    (volume_checks rest (volume_check z3 (volume_check z2 (volume_check z1 s)))).
  apply Hrun; [exact Hzeros|].
  assert (∀ z s0, z == 0 → quiet s0 → quiet (volume_check z s0)) as Hstep.
  { intros z s0 Hz [Hstate Hall]. rewrite (silence_kept z s0 Hstate Hall Hz).
    split; [reflexivity|]. simpl. now apply push_volume_Forall. }
  assert (quiet {| volumes := []; isAgentSpeaking := false |}) as Hfresh
    by (split; [reflexivity|constructor]).
  assert (∀ z s0, z == 0 → isAgentSpeaking s0 = true → volumes s0 = [] →
            volume_check z s0 = {| volumes := [z]; isAgentSpeaking := true |})
    as Hfirst.
  { intros z s0 Hz Hstate Hnil. rewrite (volume_check_speaking z s0 Hstate).
    now rewrite Hnil. }
  assert (∀ z z', z == 0 → z' == 0 →
            volume_check z' {| volumes := [z]; isAgentSpeaking := true |} =
            {| volumes := []; isAgentSpeaking := false |}) as Hsecond.
  { intros z z' Hz Hz'.
    rewrite (volume_check_speaking z' {| volumes := [z]; isAgentSpeaking := true |}
               eq_refl).
    simpl.
    apply is_zero_spec in Hz, Hz'. now rewrite Hz, Hz'. }
  (* the state after the first zero *)
  destruct (isAgentSpeaking s) eqn:Hstate.
  - (* speaking *)
    rewrite (volume_check_speaking z1 s Hstate).
    destruct ((2 <=? length (push_volume (volumes s) z1))%nat &&
              forallb is_zero (push_volume (volumes s) z1)) eqn:H1.
    { apply Hstep; [exact Hz3|]. apply Hstep; [exact Hz2|exact Hfresh]. }
    rewrite (volume_check_speaking z2 {| volumes := _; isAgentSpeaking := true |}
               eq_refl).
    simpl volumes.
    destruct ((2 <=? length (push_volume (push_volume (volumes s) z1) z2))%nat &&
              forallb is_zero (push_volume (push_volume (volumes s) z1) z2)) eqn:H2.
    { apply Hstep; [exact Hz3|exact Hfresh]. }
    rewrite (volume_check_speaking z3 {| volumes := _; isAgentSpeaking := true |}
               eq_refl).
    simpl volumes.
    rewrite (push_three (volumes s) z1 z2 z3 Hlen). simpl.
    apply is_zero_spec in Hz1, Hz2, Hz3. rewrite Hz1, Hz2, Hz3. exact Hfresh.
  - (* listening *)
    rewrite (volume_check_listening z1 s Hstate).
    destruct ((2 <=? length (push_volume (volumes s) z1))%nat &&
              existsb is_positive (push_volume (volumes s) z1)) eqn:H1.
    { rewrite (Hfirst z2) by (try reflexivity; exact Hz2).
      rewrite (Hsecond z2 z3 Hz2 Hz3). exact Hfresh. }
    rewrite (volume_check_listening z2 {| volumes := _; isAgentSpeaking := false |}
               eq_refl).
    simpl volumes.
    destruct ((2 <=? length (push_volume (push_volume (volumes s) z1) z2))%nat &&
              existsb is_positive (push_volume (push_volume (volumes s) z1) z2)) eqn:H2.
    { rewrite (Hfirst z3) by (try reflexivity; exact Hz3).
      exfalso.
      (* a positive reading in the second window was in the first already *)
      apply andb_true_iff in H2 as [_ H2]. apply existsb_is_positive in H2.
      apply andb_false_iff in H1.
      destruct (volumes s) as [|x [|y [|u [|w l]]]]; simpl in Hlen; try lia;
        cbn in H1, H2;
        repeat match goal with
               | H : Exists _ (_ :: _) |- _ => apply Exists_cons in H as [H|H]
               | H : Exists _ [] |- _ => inversion H
               end; try lra;
        destruct H1 as [H1|H1]; try discriminate;
        apply is_positive_spec in H2;
        rewrite ?H2, ?orb_true_r in H1; simpl in H1; discriminate. }
    rewrite (volume_check_listening z3 {| volumes := _; isAgentSpeaking := false |}
               eq_refl).
    simpl volumes.
    rewrite (push_three (volumes s) z1 z2 z3 Hlen). simpl.
    rewrite (zero_not_positive z1 Hz1), (zero_not_positive z2 Hz2),
      (zero_not_positive z3 Hz3). simpl.
    split; [reflexivity|]. repeat constructor; assumption.
Qed.

(** While speaking, a positive reading keeps the state. *)
Lemma sound_kept (p : Q) (s : VoiceActivity) :
  isAgentSpeaking s = true → 0 < p →
  isAgentSpeaking (volume_check p s) = true.
Proof.
  intros Hs Hp.
  rewrite (speaking_kept p p s Hs); [reflexivity| |lra].
  apply last_Some_elem_of, push_volume_last.
Qed.

(** While listening, a positive reading after any reading starts speaking. *)
Lemma sound_after_reading (p : Q) (s : VoiceActivity) :
  isAgentSpeaking s = false → volumes s ≠ [] → 0 < p →
  isAgentSpeaking (volume_check p s) = true.
Proof.
  intros Hs Hne Hp. rewrite (volume_check_listening p s Hs).
  assert ((2 <=? length (push_volume (volumes s) p))%nat = true) as ->.
  { apply Nat.leb_le. unfold push_volume.
    destruct (volumes s) as [|a [|b l]]; [congruence|simpl; lia|].
    destruct (3 <? length ((a :: b :: l) ++ [p]))%nat; simpl;
      rewrite ?length_app; simpl; lia. }
  assert (existsb is_positive (push_volume (volumes s) p) = true) as ->;
    [|reflexivity].
  apply existsb_is_positive, Exists_exists. exists p. split; [|exact Hp].
  apply last_Some_elem_of, push_volume_last.
Qed.

(** X18.  Two or more positive readings in a row always end in the speaking
    state, whatever the state and the window they start from. *)
Theorem sustained_sound_starts_speaking (sounds : list Q) (s : VoiceActivity) :
  Forall (fun p => 0 < p) sounds → (2 <= length sounds)%nat →
  isAgentSpeaking (volume_checks sounds s) = true.
Proof.
  intros Hsounds H2.
  assert (∀ l s, Forall (fun p => 0 < p) l → isAgentSpeaking s = true →
            isAgentSpeaking (volume_checks l s) = true) as Hrun.
  { induction l as [|p l IH]; intros s0 Hl Hs0; [exact Hs0|].
    apply Forall_cons in Hl as [Hp Hl]. simpl. apply IH; [exact Hl|].
    now apply sound_kept. }
  destruct sounds as [|p1 [|p2 rest]]; simpl in H2; try lia.
  apply Forall_cons in Hsounds as [Hp1 Hsounds].
  apply Forall_cons in Hsounds as [Hp2 Hsounds].
  change (volume_checks (p1 :: p2 :: rest) s) with
    (volume_checks rest (volume_check p2 (volume_check p1 s))).
  apply Hrun; [exact Hsounds|].
  destruct (isAgentSpeaking (volume_check p1 s)) eqn:Hafter;
    [now apply sound_kept|].
  apply sound_after_reading; [exact Hafter| |exact Hp2].
  (* no change of state: the window holds the reading *)
  destruct (isAgentSpeaking s) eqn:Hs.
  - rewrite (sound_kept p1 s Hs Hp1) in Hafter. discriminate.
  - rewrite (volume_check_listening p1 s Hs) in Hafter |- *.
    destruct ((2 <=? length (push_volume (volumes s) p1))%nat &&
              existsb is_positive (push_volume (volumes s) p1));
      [discriminate|].
    simpl. intros Hnil.
    pose proof (push_volume_last (volumes s) p1) as Hlast.
    rewrite Hnil in Hlast. discriminate.
Qed.

End VoiceActivityRuns.

(** ** The bars shown *)

Lemma bars_from (d : Z) (a n : nat) :
  map (fun i => if (Z.of_nat i <? d)%Z then 1%N else 0%N) (seq a n) =
  repeat 1%N (Nat.min (Z.to_nat d - a) n) ++
  repeat 0%N (n - Nat.min (Z.to_nat d - a) n).
Proof.
  revert a. induction n as [|n IH]; intros a.
  - now rewrite Nat.min_0_r.
  - simpl seq. simpl map. rewrite IH.
    destruct (Z.of_nat a <? d)%Z eqn:Ha.
    + apply Z.ltb_lt in Ha.
      replace (Nat.min (Z.to_nat d - a) (S n))
        with (S (Nat.min (Z.to_nat d - S a) n)) by lia.
      reflexivity.
    + apply Z.ltb_ge in Ha.
      replace (Z.to_nat d - S a)%nat with 0%nat by lia.
      replace (Z.to_nat d - a)%nat with 0%nat by lia.
      simpl. now rewrite Nat.sub_0_r.
Qed.

Lemma Math_round_range (x : Q) (n : nat) :
  (0 <= x)%Q → (x <= inject_Z (Z.of_nat n))%Q →
  (0 <= Math_round x <= Z.of_nat n)%Z.
Proof.
  intros H0 Hn. unfold Math_round. split.
  - change 0%Z with (Qfloor 0). apply Qfloor_resp_le. lra.
  - pose proof (Qfloor_le (x + (1 # 2))) as Hfloor.
    assert (inject_Z (Qfloor (x + (1 # 2))) < inject_Z (Z.of_nat n + 1))%Q as Hlt.
    { rewrite inject_Z_plus. change (inject_Z 1) with 1%Q. lra. }
    rewrite <- Zlt_Qlt in Hlt. lia.
Qed.

(** X19.  The bars are lit from the left without a gap: the array has
    [barCount] entries, ones first and zeros after them, and the number of
    ones is the rounded lit count cut to the range of the bars.  For a state
    in range no cutting is needed: the rounded count is itself between 0 and
    [barCount]. *)
Theorem bars_lit_from_the_left (o : AudioVisualizationOptions) (s : Levels) :
  visualizationData o s =
    repeat 1%N (displayLitCount o s) ++
    repeat 0%N (barCount o - displayLitCount o s) ∧
  length (visualizationData o s) = barCount o ∧
  (levels_in_range o s →
   (0 <= Math_round (currentLitCount s) <= Z.of_nat (barCount o))%Z).
Proof.
  assert (visualizationData o s =
          repeat 1%N (displayLitCount o s) ++
          repeat 0%N (barCount o - displayLitCount o s)) as Hshape.
  { unfold visualizationData, displayLitCount. rewrite bars_from.
    now rewrite Nat.sub_0_r. }
  split; [exact Hshape|]. split.
  - unfold visualizationData. now rewrite length_map, length_seq.
  - intros (_ & _ & H0 & Hn). now apply Math_round_range.
Qed.

(** ** Silence *)

Section Silence.
Local Open Scope Q_scope.

Variable o : AudioVisualizationOptions.

Lemma rawVolume_below_threshold (dataArray : list N) :
  below_threshold o dataArray → rawVolume o (averageVolume dataArray) = 0.
Proof.
  intros [_ Hlow]. unfold rawVolume.
  destruct (Qlt_le_dec _ (threshold o)) as [_|Hhigh]; [reflexivity|lra].
Qed.

Lemma double_of_zero (x : Q) : x == 0 → double x == 0.
Proof. intros H. now rewrite (double_comp x 0 H). Qed.

(** X20.  While every frame stays below the threshold, nothing is shown:
    from the initial state both levels stay at zero and every bar stays
    dark, whatever the options are. *)
Theorem below_threshold_stays_dark (frames : list (list N)) :
  Forall (below_threshold o) frames →
  smoothedVolume (updates o frames levels_init) == 0 ∧
  currentLitCount (updates o frames levels_init) == 0 ∧
  visualizationData o (updates o frames levels_init) = repeat 0%N (barCount o).
Proof.
  intros Hframes.
  assert (∀ s, smoothedVolume s == 0 → currentLitCount s == 0 →
            smoothedVolume (updates o frames s) == 0 ∧
            currentLitCount (updates o frames s) == 0) as Hrun.
  { induction Hframes as [|f frames Hf _ IH]; intros s Hs Hl; [now split|].
    simpl.
    assert (smooth o 0 (smoothedVolume s) == 0) as Hsmooth.
    { unfold smooth. destruct (Qlt_le_dec (smoothedVolume s) 0); [lra|].
      apply double_of_zero. rewrite Hs. ring. }
    apply IH.
    - unfold updateData. simpl. now rewrite (rawVolume_below_threshold f Hf).
    - unfold updateData. simpl. rewrite (rawVolume_below_threshold f Hf).
      assert (targetLitCount o (smooth o 0 (smoothedVolume s)) == 0) as Htarget.
      { unfold targetLitCount. apply double_of_zero. rewrite Hsmooth. ring. }
      unfold newLitCount.
      destruct (Qlt_le_dec _ _) as [Hlt|_].
      + rewrite Htarget, Hl in Hlt. lra.
      + apply double_of_zero. rewrite Hl. ring. }
  destruct (Hrun levels_init) as [Hs Hl]; try reflexivity.
  split; [exact Hs|]. split; [exact Hl|].
  unfold visualizationData, Math_round.
  rewrite (Qfloor_comp _ (1 # 2)) by (rewrite Hl; ring).
  rewrite bars_from. simpl. now rewrite Nat.sub_0_r.
Qed.

End Silence.

(** ** Turn ids across sessions *)

Lemma dispatch_all_ids_from (k : N) (history : list JSON) (d : Dispatcher) :
  (k <= turnIdCounter d)%N →
  (∀ m, held d m → (k <= turn_id m)%N) →
  ∀ m, held (dispatch_all history d) m → (k <= turn_id m)%N.
Proof.
  revert d. induction history as [|r history IH]; intros d Hk Hd; [exact Hd|].
  simpl. apply IH.
  - rewrite dispatch_counter. lia.
  - rewrite dispatch_new_message.
    destruct (new_message r (turnIdCounter d)) as [m0|] eqn:Hm0; [|exact Hd].
    apply new_message_turn_id in Hm0.
    destruct (status m0 =? 1)%N; intros m [Hin|Hslot]; simpl in *.
    + apply elem_of_app in Hin as [Hin|Hin]; [apply Hd; now left|].
      apply list_elem_of_singleton in Hin as ->. lia.
    + discriminate.
    + apply Hd. now left.
    + injection Hslot as <-. lia.
Qed.

(** X21.  Leaving the channel empties the cache, the finalized list and the
    slot but keeps the turn counter and the pending timers.  So the turn ids
    of a later session go on from where the earlier one stopped: every
    message held after leaving has a turn id above those of all messages
    held before. *)
Theorem turn_ids_continue_after_leaving
  (c : Client) (history : list JSON) (old new : IMessageListItem) :
  ids_below (dispatcher c) →
  held (dispatcher c) old →
  held (dispatch_all history (dispatcher (leaveChannel (Ok tt) c))) new →
  (turn_id old < turn_id new)%N ∧
  messageCache (leaveChannel (Ok tt) c) = ∅ ∧
  timers (leaveChannel (Ok tt) c) = timers c.
Proof.
  intros Hbelow Hold Hnew. split; [|split; reflexivity].
  specialize (Hbelow old Hold).
  enough (turnIdCounter (dispatcher c) <= turn_id new)%N by lia.
  apply (dispatch_all_ids_from _ history
           (dispatcher (leaveChannel (Ok tt) c))); [simpl; lia| |exact Hnew].
  intros m [Hin|Hslot]; simpl in *; [inversion Hin|discriminate].
Qed.

(** ** Padding inside the joined text *)

Lemma strip_padding_cases (cs : list ascii) :
  strip_padding cs = cs ∨
  cs = strip_padding cs ++ ["="%char] ∨
  cs = strip_padding cs ++ ["="%char; "="%char].
Proof.
  unfold strip_padding. destruct (length cs mod 4 =? 0)%nat; [|now left].
  assert (cs = rev (rev cs)) as Hcs by (symmetry; apply rev_involutive).
  destruct (rev cs) as [|x r]; [now left|].
  destruct (Ascii.eqb_spec x "="%char) as [->|Hx].
  - destruct r as [|y r]; [right; left; exact Hcs|].
    destruct (Ascii.eqb_spec y "="%char) as [->|Hy].
    + right. right. rewrite Hcs at 1. simpl. now rewrite <- app_assoc.
    + right. left.
      destruct y as [[] [] [] [] [] [] [] []]; try exact Hcs.
      now destruct Hy.
  - left. destruct x as [[] [] [] [] [] [] [] []]; try reflexivity.
    now destruct Hx.
Qed.

Lemma sextets_invalid (c : ascii) (cs : list ascii) :
  c ∈ cs → base64_value c = None → sextets cs = None.
Proof.
  intros Hin Hc. induction cs as [|x cs IH]; [inversion Hin|].
  simpl. apply elem_of_cons in Hin as [<-|Hin]; [now rewrite Hc|].
  rewrite (IH Hin). now destruct (base64_value x).
Qed.

Lemma atob_invalid (s : string) :
  "="%char ∈ strip_padding
               (filter (fun c => negb (is_ascii_whitespace c))
                       (list_ascii_of_string s)) →
  atob s = Throw "InvalidCharacterError".
Proof.
  intros Hin. unfold atob.
  destruct (length _ mod 4 =? 1)%nat; [reflexivity|].
  now rewrite (sextets_invalid "="%char _ Hin).
Qed.

Lemma list_ascii_of_string_app (a b : string) :
  list_ascii_of_string (a +:+ b) = list_ascii_of_string a ++ list_ascii_of_string b.
Proof. induction a as [|c a IH]; simpl; [reflexivity|now rewrite IH]. Qed.

(** X22.  A padding character is accepted at the very end of the joined
    text only.  When a [=] is followed by a character that is neither [=]
    nor white space, as happens when parts that were encoded one by one are
    joined, [atob] throws; the inner [catch] takes it and the dispatcher is
    left as it was. *)
Theorem inner_padding_rejected (before after : string) (c : ascii) (d : Dispatcher) :
  c ≠ "="%char → is_ascii_whitespace c = false →
  atob (before +:+ "=" +:+ String c after) = Throw "InvalidCharacterError" ∧
  try_dispatch (before +:+ "=" +:+ String c after) d = d.
Proof.
  intros Hc Hws.
  assert (atob (before +:+ "=" +:+ String c after) = Throw "InvalidCharacterError")
    as Hthrow.
  { apply atob_invalid.
    rewrite list_ascii_of_string_app. simpl list_ascii_of_string.
    rewrite filter_app, !filter_cons.
    rewrite decide_True by reflexivity.
    rewrite decide_True by now rewrite Hws.
    set (fa := filter _ (list_ascii_of_string before)).
    set (fb := filter _ (list_ascii_of_string after)).
    set (X := fa ++ "="%char :: c :: fb).
    assert (rev X = rev fb ++ c :: "="%char :: rev fa) as Hrev.
    { subst X. rewrite rev_app_distr. simpl. now rewrite <- !app_assoc. }
    destruct (strip_padding_cases X) as [->|[HX|HX]].
    - subst X. rewrite elem_of_app, elem_of_cons. auto.
    - rewrite HX, rev_app_distr in Hrev. simpl in Hrev.
      destruct (rev fb) as [|x t] eqn:Hfb; simpl in Hrev.
      + injection Hrev as Heq _. now destruct Hc.
      + injection Hrev as _ Hrev.
        apply list_elem_of_In, in_rev. rewrite Hrev.
        apply in_or_app. right. right. now left.
    - rewrite HX, rev_app_distr in Hrev. simpl in Hrev.
      destruct (rev fb) as [|x [|y t]] eqn:Hfb; simpl in Hrev.
      + injection Hrev as Heq _. now destruct Hc.
      + injection Hrev as _ Heq _. now destruct Hc.
      + injection Hrev as _ _ Hrev.
        apply list_elem_of_In, in_rev. rewrite Hrev.
        apply in_or_app. right. right. now left. }
  split; [exact Hthrow|].
  unfold try_dispatch, decode_and_dispatch, base64ToUtf8. now rewrite Hthrow.
Qed.

(** ** Decoding *)

Lemma strip_BOM_ascii (bytes : list N) :
  Forall (fun b => (b <= 127)%N) bytes → strip_BOM bytes = bytes.
Proof.
  intros H. destruct H as [|b rest Hb _]; [reflexivity|].
  destruct b as [|p]; [reflexivity|]. unfold strip_BOM.
  repeat (destruct p as [p|p|]; try reflexivity; try lia).
Qed.

Lemma utf8_run_ascii (bytes : list N) :
  Forall (fun b => (b <= 127)%N) bytes → utf8_run bytes None = bytes.
Proof.
  induction 1 as [|b rest Hb _ IH]; [reflexivity|].
  simpl. unfold utf8_lead. apply N.leb_le in Hb. now rewrite Hb, IH.
Qed.

Lemma utf16_units_ascii (bytes : list N) :
  Forall (fun b => (b <= 127)%N) bytes → concat (map utf16_units bytes) = bytes.
Proof.
  induction 1 as [|b rest Hb _ IH]; [reflexivity|].
  simpl. rewrite IH. unfold utf16_units.
  assert ((b <? 65536)%N = true) as -> by (apply N.ltb_lt; lia). reflexivity.
Qed.

(** X23.  When the bytes that [atob] gives are all ASCII, [base64ToUtf8]
    returns them as they are, one code unit for each byte: the UTF-8
    decoder changes nothing in such a text. *)
Theorem ascii_text_decoded_bytewise (base64 : string) (binaryString : list N) :
  atob base64 = Ok binaryString →
  Forall (fun b => (b <= 127)%N) binaryString →
  base64ToUtf8 base64 = Ok binaryString.
Proof.
  intros Hatob Hascii. unfold base64ToUtf8, TextDecoder_decode. rewrite Hatob.
  now rewrite (strip_BOM_ascii _ Hascii), (utf8_run_ascii _ Hascii),
    (utf16_units_ascii _ Hascii).
Qed.

(** ** The transcript of a reachable state *)

Lemma try_dispatch_cases (completeBase64 : string) (d : Dispatcher) :
  try_dispatch completeBase64 d = d ∨
  ∃ parsedMsg : JSON, try_dispatch completeBase64 d = dispatch d parsedMsg.
Proof.
  unfold try_dispatch, decode_and_dispatch, dispatch.
  destruct (base64ToUtf8 completeBase64) as [jsonStr|e]; [|now left]. simpl.
  destruct (JSON_parse jsonStr) as [parsedMsg|e]; [|now left]. simpl.
  right. now exists parsedMsg.
Qed.

Lemma receive_dispatcher_cases (c : Client) (t : N) (data : list Byte.byte) :
  dispatcher (receive c (t, data)) = dispatcher c ∨
  ∃ parsedMsg : JSON,
    dispatcher (receive c (t, data)) = dispatch (dispatcher c) parsedMsg.
Proof.
  destruct (parse_chunk data) as [ch|] eqn:Hparse;
    [|left; now rewrite (receive_dropped c t data Hparse)].
  rewrite (receive_parsed c t data ch Hparse).
  destruct (cache_read (messageCache c) (message_id ch)) as [pending| |] eqn:Hread.
  - apply cache_read_chunks in Hread.
    rewrite (ingest_pending t ch c pending Hread).
    destruct (number_eqb _ (total_parts ch)); simpl; [|now left].
    apply try_dispatch_cases.
  - left. now rewrite (ingest_inherited t ch c Hread).
  - rewrite (ingest_unseen t ch c Hread).
    destruct (number_eqb (Num 1) (total_parts ch)); simpl; [|now left].
    apply try_dispatch_cases.
Qed.

Lemma session_from_reachable (start : N) (c : Client) :
  session_from start c → reachable c.
Proof. induction 1; now constructor. Qed.

(** X24.  The stream handler and the timers change the transcript through
    [handleTenMessage] alone.  Every reachable state is reached in a
    session, and in a session that began with the counter at [start] (where
    it stood when the channel was last left, 0 when it never was) the list,
    the slot and the counter are what a run of records through
    [handleTenMessage] gives, started with an empty list, an empty slot and
    the counter at [start]: so the counter is never below [start], and every
    message held has a turn id from [start] on. *)
Theorem reachable_transcript_is_a_run (c : Client) :
  (reachable c → ∃ start : N, session_from start c) ∧
  ∀ start : N, session_from start c →
    (∃ history : list JSON,
       dispatcher c =
       dispatch_all history
         {| messageList := []; currentInProgressMessage := None;
            turnIdCounter := start |}) ∧
    (start <= turnIdCounter (dispatcher c))%N ∧
    ∀ m, held (dispatcher c) m → (start <= turn_id m)%N.
Proof.
  split.
  - induction 1 as [|c t data _ [start IH]|c tm _ [start IH]|c t _ [start IH]
                    |c left _ [start IH]].
    + exists 0%N. constructor.
    + exists start. now constructor.
    + exists start. now constructor.
    + exists start. now constructor.
    + destruct left as [[]|e].
      * exists (turnIdCounter (dispatcher c)). now apply (session_left start).
      * exists start. now constructor.
  - intros start Hsession.
    assert (∃ history : list JSON,
              dispatcher c =
              dispatch_all history
                {| messageList := []; currentInProgressMessage := None;
                   turnIdCounter := start |}) as Hrun.
    { induction Hsession as [|start c t data _ IH|start c tm _ IH|start c t _ IH
                             |start c _ _|start c e _ IH].
      - now exists [].
      - destruct IH as (history & IH).
        destruct (receive_dispatcher_cases c t data) as [->|[r ->]].
        + now exists history.
        + exists (history ++ [r]). now rewrite dispatch_all_app, IH.
      - unfold fire. now rewrite evict_dispatcher.
      - now rewrite advance_dispatcher.
      - now exists [].
      - exact IH. }
    split; [exact Hrun|]. destruct Hrun as (history & ->). split.
    + pose proof (dispatch_all_counter_mono history
                    {| messageList := []; currentInProgressMessage := None;
                       turnIdCounter := start |}) as H.
      exact H.
    + apply dispatch_all_ids_from; [simpl; lia|].
      intros m [Hin|Hslot]; simpl in *; [inversion Hin|discriminate].
Qed.

(** * Concrete runs of the further properties *)

(** X2 after an interim record: a second interim record takes the slot,
    and the [null] and the blank record after it leave it there. *)
Lemma slot_follows_last_accepted_witness :
  currentInProgressMessage
    (dispatch_all
       ([JObj [(js "text", JStr (js "h"))]] ++
        JObj [(js "text", JStr (js "hel"))] ::
        [JNull; JObj [(js "text", JStr (js "  "))]])
       dispatcher_init) =
  Some {| turn_id := 1; uid := 1; text := js "hel"; status := 0;
          timestamp := None |}.
Proof.
  apply (slot_follows_last_accepted
           [JObj [(js "text", JStr (js "h"))]]
           [JNull; JObj [(js "text", JStr (js "  "))]]
           (JObj [(js "text", JStr (js "hel"))]) dispatcher_init
           {| turn_id := 1; uid := 1; text := js "hel"; status := 0;
              timestamp := None |}).
  - reflexivity.
  - repeat constructor.
Defined.

(** X6 at the first payload of [m1]. *)
Lemma payload_fields_recovered_witness :
  parse_chunk (payload "m1" "0" "3" "SGVsbG8s") =
  Some {| message_id := "m1"; part_index := Num 0; total_parts := Num 3;
          content := Some "SGVsbG8s" |}.
Proof.
  apply (payload_fields_recovered "m1" "0" "3" "SGVsbG8s"); reflexivity.
Defined.

(** X7 at a content with a separator in it. *)
Lemma payload_extra_fields_ignored_witness :
  parse_chunk (payload "m1" "0" "3" ("SGVs" +:+ "|" +:+ "bG8s")) =
  parse_chunk (payload "m1" "0" "3" "SGVs").
Proof.
  apply (payload_extra_fields_ignored "m1" "0" "3" "SGVs" "bG8s"); reflexivity.
Defined.

(** X8 at two chunks of [m2], the first declaring 0 parts and the second
    none: nothing is dispatched, and the timer removes the entry. *)
Lemma unreachable_total_never_completes_witness :
  let c := receive_all client_init
             [(0%N, bytes "m2|0|0|AAAA"); (1%N, bytes "m2|1||BBBB")] in
  dispatcher c = dispatcher_init ∧
  messageCache (evict "m2" (Num 0) c) !! "m2" = None.
Proof.
  intros c.
  destruct (unreachable_total_never_completes
              [(0%N, bytes "m2|0|0|AAAA"); (1%N, bytes "m2|1||BBBB")]
              [{| message_id := "m2"; part_index := Num 0; total_parts := Num 0;
                  content := Some "AAAA" |};
               {| message_id := "m2"; part_index := Num 1; total_parts := NaN;
                  content := Some "BBBB" |}]
              client_init) as [Hd Hevict].
  - repeat constructor.
  - repeat constructor.
  - split; [exact Hd|]. apply Hevict; [simpl; lia|].
    vm_compute. discriminate.
Defined.


(** X13 at two chunks of index 1 around one of index 0: the chunk of index
    0 comes first, the other two keep their order. *)
Lemma sort_ascending_and_stable_witness :
  sort [hi_chunk 1 hi_part1; hi_chunk 0 hi_part0; hi_chunk 1 hi_part2] ≡ₚ
       [hi_chunk 1 hi_part1; hi_chunk 0 hi_part0; hi_chunk 1 hi_part2] ∧
  sort [hi_chunk 1 hi_part1; hi_chunk 0 hi_part0; hi_chunk 1 hi_part2] =
       [hi_chunk 0 hi_part0; hi_chunk 1 hi_part1; hi_chunk 1 hi_part2].
Proof.
  destruct (sort_ascending_and_stable
              [hi_chunk 1 hi_part1; hi_chunk 0 hi_part0; hi_chunk 1 hi_part2])
    as (Hperm & _).
  - repeat constructor; eexists; reflexivity.
  - split; [exact Hperm|reflexivity].
Defined.

(** X10 at the second chunk of [t7] arriving between a chunk of [m1] and a
    dropped payload. *)
Lemma entry_unaffected_by_other_traffic_witness :
  messageCache
    (receive_all (receive client_init (0%N, hi_payload "0" hi_part0))
       [(1%N, m1_part0); (2%N, hi_payload "1" hi_part1);
        (3%N, bytes "m1|2|???|d29ybGQh")]) !! "t7" =
  Some [hi_chunk 0 hi_part0; hi_chunk 1 hi_part1].
Proof.
  apply (entry_unaffected_by_other_traffic "t7" 3
           [(1%N, m1_part0); (2%N, hi_payload "1" hi_part1);
            (3%N, bytes "m1|2|???|d29ybGQh")]
           (receive client_init (0%N, hi_payload "0" hi_part0))
           [hi_chunk 0 hi_part0]).
  - vm_compute. reflexivity.
  - repeat constructor.
  - vm_compute. reflexivity.
Defined.

(** X11 at the record of [t7]: complete at time 20, its first chunk sent
    again at 4000; the entry of the second sending is gone at 5000. *)
Lemma stale_timer_evicts_early_witness :
  let c2 := receive
              (receive_all client_init
                 [(0%N, hi_payload "0" hi_part0); (10%N, hi_payload "1" hi_part1);
                  (20%N, hi_payload "2" hi_part2)])
              (4000%N, hi_payload "0" hi_part0) in
  messageCache c2 !! "t7" = Some [hi_chunk 0 hi_part0] ∧
  messageCache (advance 5000 c2) !! "t7" = None ∧
  eviction_timer 4000 "t7" (Num 3) ∈ timers (advance 5000 c2).
Proof.
  apply (stale_timer_evicts_early client_init "t7"
           [hi_chunk 0 hi_part0; hi_chunk 1 hi_part1; hi_chunk 2 hi_part2]
           0%N (hi_payload "0" hi_part0)
           [(10%N, hi_payload "1" hi_part1); (20%N, hi_payload "2" hi_part2)]
           4000%N (hi_payload "0" hi_part0) (hi_chunk 0 hi_part0)).
  - reflexivity.
  - repeat constructor.
  - repeat constructor.
  - simpl. lia.
  - reflexivity.
  - reflexivity.
  - discriminate.
  - lia.
Defined.

(** X12 at a state with one timer pending. *)
Lemma clock_steps_compose_witness :
  advance 9000 (advance 5000 (receive client_init (0%N, m1_part0))) =
  advance 9000 (receive client_init (0%N, m1_part0)).
Proof.
  destruct (clock_steps_compose 5000 9000 (receive client_init (0%N, m1_part0)))
    as [H _]; [lia|exact H].
Defined.

(** X14 at the state after the first chunk of [m1] and a look at the clock. *)
Lemma reachable_cache_invariant_witness :
  entry_invariant "m1" [m1_chunk 0 "SGVsbG8s"].
Proof.
  apply (reachable_cache_invariant
           (advance 100 (receive client_init (0%N, m1_part0)))).
  - apply reachable_advance, reachable_receive, reachable_init.
  - vm_compute. reflexivity.
Defined.


(** X17 while speaking with a window of three readings of 1. *)
Lemma sustained_silence_stops_speaking_witness :
  isAgentSpeaking
    (volume_checks [0%Q; 0%Q; 0%Q]
       {| volumes := [1%Q; 1%Q; 1%Q]; isAgentSpeaking := true |}) = false.
Proof.
  destruct (sustained_silence_stops_speaking [0%Q; 0%Q; 0%Q]
              {| volumes := [1%Q; 1%Q; 1%Q]; isAgentSpeaking := true |})
    as [H _].
  - simpl. lia.
  - repeat constructor.
  - simpl. lia.
  - exact H.
Defined.

(** X18 from the initial state. *)
Lemma sustained_sound_starts_speaking_witness :
  isAgentSpeaking (volume_checks [(1 # 2)%Q; (1 # 3)%Q] voice_init) = true.
Proof.
  apply (sustained_sound_starts_speaking [(1 # 2)%Q; (1 # 3)%Q] voice_init).
  - repeat constructor.
  - simpl. lia.
Defined.

(** X20 at the default options, for two frames whose bins all read 5. *)
Lemma below_threshold_stays_dark_witness :
  visualizationData default_options
    (updates default_options [repeat 5%N 128; repeat 5%N 128] levels_init) =
  repeat 0%N 24.
Proof.
  destruct (below_threshold_stays_dark default_options
              [repeat 5%N 128; repeat 5%N 128]) as (_ & _ & H).
  - repeat constructor.
  - exact H.
Defined.

(** X21 at a session in which [hi_record] was finalized: after leaving,
    the same record gets turn id 1. *)
Lemma turn_ids_continue_after_leaving_witness :
  let c := {| messageCache := ∅; timers := [];
              dispatcher := dispatch_all [hi_record] dispatcher_init |} in
  (turn_id hi_message <
   turn_id {| turn_id := 1; uid := uid hi_message; text := text hi_message;
              status := status hi_message;
              timestamp := timestamp hi_message |})%N.
Proof.
  intros c.
  destruct (turn_ids_continue_after_leaving c [hi_record] hi_message
              {| turn_id := 1; uid := uid hi_message; text := text hi_message;
                 status := status hi_message;
                 timestamp := timestamp hi_message |}) as [H _].
  - apply dispatch_all_ids_below, dispatcher_init_ids_below.
  - left. vm_compute. constructor.
  - left. vm_compute. constructor.
  - exact H.
Defined.

(** X22 at the joined text of [m1], where the padding of the second part
    is followed by the third. *)
Lemma inner_padding_rejected_witness :
  atob ("SGVsbG8sQg=" +:+ "=" +:+ String "d" "29ybGQh") =
    Throw "InvalidCharacterError" ∧
  try_dispatch ("SGVsbG8sQg=" +:+ "=" +:+ String "d" "29ybGQh") dispatcher_init =
    dispatcher_init.
Proof.
  apply (inner_padding_rejected "SGVsbG8sQg=" "29ybGQh" "d" dispatcher_init).
  - discriminate.
  - reflexivity.
Defined.

(** X23 at the base64 text of the two letters of the word hi. *)
Lemma ascii_text_decoded_bytewise_witness :
  base64ToUtf8 "aGk=" = Ok (js "hi").
Proof.
  apply (ascii_text_decoded_bytewise "aGk=" (js "hi")).
  - reflexivity.
  - repeat constructor; discriminate.
Defined.

(** X24 at the state in which the channel was left after the record of
    [t7] had arrived in one chunk, and the record has arrived once more:
    the counter started at 1, and the message held has turn id 1. *)
Lemma reachable_transcript_is_a_run_witness :
  let c := receive (leaveChannel (Ok tt) (receive client_init (0%N, hi_single)))
                   (10%N, hi_single) in
  (1 <= turnIdCounter (dispatcher c))%N ∧
  ∀ m, held (dispatcher c) m → (1 <= turn_id m)%N.
Proof.
  intros c.
  destruct (reachable_transcript_is_a_run c) as [_ H].
  destruct (H 1%N) as (_ & Hcounter & Hheld).
  - apply session_receive.
    apply (session_left 0 (receive client_init (0%N, hi_single))).
    apply session_receive, session_init.
  - split; assumption.
Defined.
